(** * mm.c: a boundary-tag allocator over an implicit block list, next fit

    A shallow embedding of [mm.c] (the CS:APP-style malloc package with
    header and footer words, immediate coalescing and a roving next-fit
    pointer) and the verification of its documented properties.

    Conventions of the embedding
    - addresses and pointers are integers ([Z]); [NULL] is [0] and
      [(void * )-1] is [-1];
    - memory is a total map from addresses to bytes, words are little endian
      and four bytes wide ([unsigned int]);
    - [size_t] is [w] bits wide, its arithmetic wraps modulo [2^w];
    - the two loops of [fit] take fuel, so that every function is total. *)

From Stdlib Require Import ZArith List Lia Bool.
Import ListNotations.
Local Open Scope Z_scope.

(** ** Constants and macros *)

Definition NULL : Z := 0.

(** header/footer size (bytes) *)
Definition HFSIZE : Z := 4.

(** double word size (bytes) *)
Definition DWORD : Z := 8.

(** Default size to extend heap (bytes): [1<<12] *)
Definition CHUNKSIZE : Z := Z.shiftl 1 12.

(** [unsigned int] arithmetic wraps modulo [2^32]. *)
Definition UINT_MOD : Z := 2 ^ 32.
Definition wrap32 (x : Z) : Z := x mod UINT_MOD.

(** Combines the size and allocated bit into a word. *)
Definition HF (size alloc : Z) : Z := Z.lor size alloc.

(** ** Byte-addressed memory *)

Definition memory := Z -> Z.

Definition byte_at (m : memory) (a : Z) : Z := m a mod 256.

(** [READ(a)]: the [unsigned int] stored at [a]. *)
Definition READ (m : memory) (a : Z) : Z :=
  byte_at m a + 2 ^ 8 * byte_at m (a + 1)
  + 2 ^ 16 * byte_at m (a + 2) + 2 ^ 24 * byte_at m (a + 3).

(** [WRITE(a, val)]: stores the low 32 bits of [val] at [a]. *)
Definition WRITE (m : memory) (a val : Z) : memory :=
  fun x =>
    if (a <=? x) && (x <? a + 4)
    then (val / 2 ^ (8 * (x - a))) mod 256
    else m x.

(** [memcpy(dst, src, n)] for regions that do not overlap. *)
Definition memcpy (m : memory) (dst src n : Z) : memory :=
  fun x => if (dst <=? x) && (x <? dst + n) then m (src + (x - dst)) else m x.

(** A store of one byte by the application. *)
Definition store_byte (m : memory) (a v : Z) : memory :=
  fun x => if x =? a then v mod 256 else m x.

(** Read the size and allocation status of the header/footer word at [a].
    [~0x7] is converted to [unsigned int] before the conjunction. *)
Definition GET_SIZE (m : memory) (a : Z) : Z :=
  Z.land (READ m a) (wrap32 (Z.lnot 7)).
Definition GET_ALLOC (m : memory) (a : Z) : Z := Z.land (READ m a) 1.

(** Address of a block's header and footer. *)
Definition HEAD (ptr : Z) : Z := ptr - HFSIZE.
Definition FOOT (m : memory) (ptr : Z) : Z := ptr + GET_SIZE m (HEAD ptr) - DWORD.

(** Address of the next and previous blocks. *)
Definition NEXT (m : memory) (ptr : Z) : Z := ptr + GET_SIZE m (ptr - HFSIZE).
Definition PREV (m : memory) (ptr : Z) : Z := ptr - GET_SIZE m (ptr - DWORD).

(** ** The allocator state: memory, the provider's break, and the globals *)

Record state := mkState {
  mem : memory;
  mem_start_brk : Z;   (* first byte of the region managed by the provider *)
  mem_brk : Z;         (* first byte past the memory granted so far *)
  mem_max_addr : Z;    (* first byte the provider can never grant *)
  heapL : Z;           (* static char *heapL = 0 *)
  trav : Z             (* static char *trav *)
}.

Definition set_mem (s : state) (m : memory) : state :=
  mkState m (mem_start_brk s) (mem_brk s) (mem_max_addr s) (heapL s) (trav s).
Definition set_trav (s : state) (t : Z) : state :=
  mkState (mem s) (mem_start_brk s) (mem_brk s) (mem_max_addr s) (heapL s) t.
Definition set_heapL (s : state) (h : Z) : state :=
  mkState (mem s) (mem_start_brk s) (mem_brk s) (mem_max_addr s) h (trav s).

(** Modelled from the spec: the memory provider [mem_sbrk] (declared in
    [memlib.h], defined outside this file).  It grants [incr] more bytes
    right after all memory granted before and returns their first address,
    or fails with [(void * )-1] and no side effect when the region cannot
    grow. *)
Definition mem_sbrk (s : state) (incr : Z) : state * Z :=
  if mem_brk s + incr <=? mem_max_addr s
  then (mkState (mem s) (mem_start_brk s) (mem_brk s + incr) (mem_max_addr s)
                (heapL s) (trav s), mem_brk s)
  else (s, -1).

(** ** The allocator, function by function *)

Section Allocator.

(** Width of [size_t] in bits. *)
Variable w : Z.

Definition SIZE_MOD : Z := 2 ^ w.
Definition SIZE_MAX : Z := SIZE_MOD - 1.

(** [size_t] arithmetic wraps modulo [2^w]. *)
Definition wrap (x : Z) : Z := x mod SIZE_MOD.

(** [coalesce]: boundary coalescing, returns the pointer to the coalesced
    block.  Every macro reads the memory as it is when it is evaluated. *)
Definition coalesce (s : state) (ptr : Z) : state * Z :=
  let m := mem s in
  let prev_alloc := GET_ALLOC m (FOOT m (PREV m ptr)) in
  let next_alloc := GET_ALLOC m (HEAD (NEXT m ptr)) in
  let size := GET_SIZE m (HEAD ptr) in
  if negb (prev_alloc =? 0) && negb (next_alloc =? 0) then (s, ptr)
  else
    let '(m', ptr') :=
      if (prev_alloc =? 0) && negb (next_alloc =? 0) then
        let size := wrap (size + GET_SIZE m (HEAD (PREV m ptr))) in
        let m1 := WRITE m (FOOT m ptr) (HF size 0) in
        let m2 := WRITE m1 (HEAD (PREV m1 ptr)) (HF size 0) in
        (m2, PREV m2 ptr)
      else if negb (prev_alloc =? 0) && (next_alloc =? 0) then
        let size := wrap (size + GET_SIZE m (HEAD (NEXT m ptr))) in
        let m1 := WRITE m (HEAD ptr) (HF size 0) in
        let m2 := WRITE m1 (FOOT m1 ptr) (HF size 0) in
        (m2, ptr)
      else
        let size :=
          wrap (size + wrap32 (GET_SIZE m (HEAD (PREV m ptr))
                               + GET_SIZE m (FOOT m (NEXT m ptr)))) in
        let m1 := WRITE m (HEAD (PREV m ptr)) (HF size 0) in
        let m2 := WRITE m1 (FOOT m1 (NEXT m1 ptr)) (HF size 0) in
        (m2, PREV m2 ptr) in
    let t := trav s in
    let t' := if (ptr' <? t) && (t <? NEXT m' ptr') then ptr' else t in
    (mkState m' (mem_start_brk s) (mem_brk s) (mem_max_addr s) (heapL s) t', ptr').

(** [grow_heap]: grows the heap by [words] header words, rounded up to an
    even count. *)
Definition grow_heap (s : state) (words : Z) : state * Z :=
  let size :=
    if negb (words mod 2 =? 0) then wrap (wrap (words + 1) * HFSIZE)
    else wrap (words * HFSIZE) in
  let '(s1, ptr) := mem_sbrk s size in
  if ptr =? -1 then (s1, NULL)
  else
    let m1 := WRITE (mem s1) (HEAD ptr) (HF size 0) in
    let m2 := WRITE m1 (FOOT m1 ptr) (HF size 0) in
    let m3 := WRITE m2 (HEAD (NEXT m2 ptr)) (HF 0 1) in
    coalesce (set_mem s1 m3) ptr.

(** The outcome of one of the two loops of [fit]: it returned the block
    [p], or it ran to its exit condition with [trav = t]. *)
Inductive scan : Type :=
| Found (p : Z)
| Stop (t : Z).

(** [for (; GET_SIZE(HEAD(trav)) > 0; trav = NEXT(trav))] *)
Fixpoint fit_to_end (fuel : nat) (m : memory) (adj_size t : Z) : option scan :=
  match fuel with
  | O => None
  | S f =>
      if 0 <? GET_SIZE m (HEAD t) then
        if (GET_ALLOC m (HEAD t) =? 0) && (adj_size <=? GET_SIZE m (HEAD t))
        then Some (Found t)
        else fit_to_end f m adj_size (NEXT m t)
      else Some (Stop t)
  end.

(** [for (trav = heapL; trav < origtrav; trav = NEXT(trav))] *)
Fixpoint fit_from_start (fuel : nat) (m : memory) (adj_size origtrav t : Z)
  : option scan :=
  match fuel with
  | O => None
  | S f =>
      if t <? origtrav then
        if (GET_ALLOC m (HEAD t) =? 0) && (adj_size <=? GET_SIZE m (HEAD t))
        then Some (Found t)
        else fit_from_start f m adj_size origtrav (NEXT m t)
      else Some (Stop t)
  end.

(** [fit]: next-fit search; [None] only when the fuel runs out. *)
Definition fit (fuel : nat) (s : state) (adj_size : Z) : option (state * Z) :=
  let origtrav := trav s in
  match fit_to_end fuel (mem s) adj_size (trav s) with
  | None => None
  | Some (Found t) => Some (set_trav s t, t)
  | Some (Stop _) =>
      match fit_from_start fuel (mem s) adj_size origtrav (heapL s) with
      | None => None
      | Some (Found t) => Some (set_trav s t, t)
      | Some (Stop t) => Some (set_trav s t, NULL)
      end
  end.

(** [put]: puts an [adj_size] byte block at the free block [ptr], splitting
    if required. *)
Definition put (s : state) (ptr adj_size : Z) : state :=
  let m := mem s in
  let csize := GET_SIZE m (HEAD ptr) in
  if 2 * DWORD <=? wrap (csize - adj_size) then
    let m1 := WRITE m (HEAD ptr) (HF adj_size 1) in
    let m2 := WRITE m1 (FOOT m1 ptr) (HF adj_size 1) in
    let ptr' := NEXT m2 ptr in
    let m3 := WRITE m2 (HEAD ptr') (HF (wrap (csize - adj_size)) 0) in
    let m4 := WRITE m3 (FOOT m3 ptr') (HF (wrap (csize - adj_size)) 0) in
    set_mem s m4
  else
    let m1 := WRITE m (HEAD ptr) (HF csize 1) in
    let m2 := WRITE m1 (FOOT m1 ptr) (HF csize 1) in
    set_mem s m2.

(** [mm_init]: returns [0], or [-1] when the provider fails. *)
Definition mm_init (s : state) : state * Z :=
  let '(s1, p) := mem_sbrk s (4 * HFSIZE) in
  let s2 := set_heapL s1 p in
  if p =? -1 then (s2, -1)
  else
    let h := heapL s2 in
    let m1 := WRITE (mem s2) h 0 in
    let m2 := WRITE m1 (h + 1 * HFSIZE) (HF DWORD 1) in
    let m3 := WRITE m2 (h + 2 * HFSIZE) (HF DWORD 1) in
    let m4 := WRITE m3 (h + 3 * HFSIZE) (HF 0 1) in
    let s3 := set_heapL (set_mem s2 m4) (h + 2 * HFSIZE) in
    let s4 := set_trav s3 (heapL s3) in
    let '(s5, r) := grow_heap s4 (CHUNKSIZE / HFSIZE) in
    if r =? NULL then (s5, -1) else (s5, 0).

(** The adjusted block size computed by [mm_malloc]. *)
Definition adj_size (size : Z) : Z :=
  if size <=? DWORD then 2 * DWORD
  else wrap (DWORD * (wrap (size + DWORD + (DWORD - 1)) / DWORD)).

(** The amount by which [mm_malloc] grows the heap when nothing fits. *)
Definition growsize (adj : Z) : Z := if CHUNKSIZE <? adj then adj else CHUNKSIZE.

(** [mm_malloc]: [None] only when the fuel of [fit] runs out. *)
Definition mm_malloc (fuel : nat) (s : state) (size : Z) : option (state * Z) :=
  let s0 := if heapL s =? 0 then fst (mm_init s) else s in
  if size =? 0 then Some (s0, NULL)
  else
    let adj := adj_size size in
    match fit fuel s0 adj with
    | None => None
    | Some (s1, ptr) =>
        if negb (ptr =? NULL) then Some (put s1 ptr adj, ptr)
        else
          let '(s2, ptr) := grow_heap s1 (growsize adj / HFSIZE) in
          if ptr =? NULL then Some (s2, NULL)
          else Some (put s2 ptr adj, ptr)
    end.

(** [mm_free] *)
Definition mm_free (s : state) (ptr : Z) : state :=
  if ptr =? 0 then s
  else
    let size := GET_SIZE (mem s) (HEAD ptr) in
    let s0 := if heapL s =? 0 then fst (mm_init s) else s in
    let m1 := WRITE (mem s0) (HEAD ptr) (HF size 0) in
    let m2 := WRITE m1 (FOOT m1 ptr) (HF size 0) in
    fst (coalesce (set_mem s0 m2) ptr).

(** The number of bytes [mm_realloc] hands to [memcpy]. *)
Definition copy_size (m : memory) (ptr size : Z) : Z :=
  let oldsize := GET_SIZE m (HEAD ptr) in
  if size <? oldsize then size else oldsize.

(** [mm_realloc] *)
Definition mm_realloc (fuel : nat) (s : state) (ptr size : Z)
  : option (state * Z) :=
  if size =? 0 then Some (mm_free s ptr, 0)
  else if ptr =? NULL then mm_malloc fuel s size
  else
    match mm_malloc fuel s size with
    | None => None
    | Some (s1, newptr) =>
        if newptr =? 0 then Some (s1, 0)
        else
          let oldsize := copy_size (mem s1) ptr size in
          let s2 := set_mem s1 (memcpy (mem s1) newptr ptr oldsize) in
          Some (mm_free s2 ptr, newptr)
    end.

End Allocator.


(** * Definitions for the statements *)

(** ** Words of the block list *)

(** The word of a block of size [sz] whose allocated bit is [a]. *)
Definition tag (sz : Z) (a : bool) : Z := HF sz (if a then 1 else 0).

(** A block as the list sees it: its size and its allocated bit. *)
Abbreviation block := (Z * bool)%type.

(** The sum of the sizes of the blocks of a list. *)
Fixpoint total (bs : list block) : Z :=
  match bs with
  | [] => 0
  | b :: bs' => fst b + total bs'
  end.

(** The block that a scan meets first: the head of the list, or the end
    header (size zero, allocated) when the list is empty. *)
Definition next_block (post : list block) : block :=
  match post with
  | [] => (0, true)
  | b :: _ => b
  end.

(** Two consecutive free blocks somewhere in the list. *)
Fixpoint adjacent_free (bs : list block) : bool :=
  match bs with
  | [] => false
  | b :: tl =>
      (negb (snd b) && negb (snd (next_block tl))) || adjacent_free tl
  end.

(** The forward scan of the implicit list that [fit] performs, from the block
    at [p] to the first header of size zero, collecting what it sees. *)
Fixpoint block_list (fuel : nat) (m : memory) (p : Z) : option (list block) :=
  match fuel with
  | O => None
  | S f =>
      if 0 <? GET_SIZE m (HEAD p) then
        option_map
          (cons (GET_SIZE m (HEAD p), negb (GET_ALLOC m (HEAD p) =? 0)))
          (block_list f m (NEXT m p))
      else Some []
  end.

(** Header and footer of the block at [p] both hold the word of [b]. *)
Definition tagged (m : memory) (p : Z) (b : block) : Prop :=
  READ m (HEAD p) = tag (fst b) (snd b)
  /\ READ m (p + fst b - DWORD) = tag (fst b) (snd b).

(** The blocks [bs] lie one after the other from [p] up to [q]. *)
Fixpoint layout (m : memory) (p : Z) (bs : list block) (q : Z) : Prop :=
  match bs with
  | [] => p = q
  | b :: bs' =>
      8 <= fst b /\ fst b mod 8 = 0 /\ tagged m p b
      /\ layout m (p + fst b) bs' q
  end.

(** ** The operations on the block list *)

(** What [coalesce] does to the list: the free block of size [sz] that
    follows [pb] absorbs its free neighbours. *)
Definition coalesce_ptr (ptr : Z) (pb : block) : Z :=
  if snd pb then ptr else ptr - fst pb.

Definition coalesce_size (pb : block) (sz : Z) (post : list block) : Z :=
  sz + (if snd pb then 0 else fst pb)
  + (if snd (next_block post) then 0 else fst (next_block post)).

Definition coalesce_blocks (pre : list block) (pb : block) (sz : Z)
  (post : list block) : list block :=
  (if snd pb then pre ++ [pb] else pre)
  ++ (coalesce_size pb sz post, false)
  :: (if snd (next_block post) then post else tl post).

(** The blocks of a list with the payload pointer of each. *)
Fixpoint located (p : Z) (bs : list block) : list (Z * block) :=
  match bs with
  | [] => []
  | b :: bs' => (p, b) :: located (p + fst b) bs'
  end.

Definition last_alloc (pre : list block) : bool := snd (last pre (0, true)).

(** What [put] does to the free block of size [csize]. *)
Definition put_blocks (csize adj : Z) : list block :=
  if 2 * DWORD <=? csize - adj
  then [(adj, true); (csize - adj, false)]
  else [(csize, true)].

(** The first block of a list laid out from [p] that is free and holds
    [adj] bytes. *)
Fixpoint first_fit (adj p : Z) (bs : list block) : option Z :=
  match bs with
  | [] => None
  | b :: bs' =>
      if negb (snd b) && (adj <=? fst b) then Some p
      else first_fit adj (p + fst b) bs'
  end.

Definition scan_result (found : option Z) (stop : Z) : scan :=
  match found with
  | Some p => Found p
  | None => Stop stop
  end.

(** What [fit] returns on a laid-out list whose cursor stands after [c1]. *)
Definition next_fit (adj p0 : Z) (c1 c2 : list block) : option Z :=
  match first_fit adj (p0 + total c1) c2 with
  | Some p => Some p
  | None => first_fit adj p0 c1
  end.

(** The cursor after [coalesce] has merged the block at [ptr]. *)
Definition coalesce_trav (t ptr : Z) (pb : block) (sz : Z) (post : list block) : Z :=
  if snd pb && snd (next_block post) then t
  else if (coalesce_ptr ptr pb <? t) && (t <? coalesce_ptr ptr pb + coalesce_size pb sz post)
       then coalesce_ptr ptr pb else t.

(** ** Well-formed heaps and the states an application reaches *)

(** The heap once [mm_init] has laid its skeleton: the list [ch] starts with
    the start block (eight bytes, allocated) at [heapL] and ends at the
    provider's break, where the end header stands, and the cursor is the
    address of a block. *)
Record heap_shape (s : state) (ch : list block) : Prop := {
  sh_start : 0 <= mem_start_brk s /\ mem_start_brk s mod 8 = 0;
  sh_heapL : heapL s = mem_start_brk s + 8;
  sh_first : exists bs, ch = (8, true) :: bs;
  sh_layout : layout (mem s) (heapL s) ch (mem_brk s);
  sh_end : READ (mem s) (HEAD (mem_brk s)) = tag 0 true;
  sh_max : mem_brk s <= mem_max_addr s
           /\ mem_max_addr s - mem_start_brk s < UINT_MOD;
  sh_trav : In (trav s) (map fst (located (heapL s) ch))
}.

(** A heap is well formed when, besides, it holds no two consecutive free
    blocks. *)
Record heap_ok (s : state) (ch : list block) : Prop := {
  ok_shape : heap_shape s ch;
  ok_adjacent : adjacent_free ch = false
}.

(** Before the first call: nothing granted yet, and room for the skeleton. *)
Definition fresh (s : state) : Prop :=
  heapL s = 0 /\ mem_brk s = mem_start_brk s
  /\ 0 <= mem_start_brk s /\ mem_start_brk s mod 8 = 0
  /\ mem_start_brk s + 4 * HFSIZE <= mem_max_addr s
  /\ mem_max_addr s - mem_start_brk s < UINT_MOD.

(** The blocks the application holds, each with the size it asked for: each
    is an allocated block of the list with room for that size. *)
Definition live_ok (s : state) (ch : list block) (L : list (Z * Z)) : Prop :=
  NoDup (map fst L)
  /\ forall p n, In (p, n) L ->
       0 < n /\ exists sz, In (p, (sz, true)) (located (heapL s) ch) /\ n + DWORD <= sz.

(** The list of live blocks once [p] has been given back. *)
Definition remove_ptr (p : Z) (L : list (Z * Z)) : list (Z * Z) :=
  filter (fun e => negb (fst e =? p)) L.

(** Either nothing has been called yet, or the heap is well formed and the
    application's blocks are allocated blocks of it. *)
Definition heap_inv (s : state) (L : list (Z * Z)) : Prop :=
  (fresh s /\ L = []) \/ (exists ch, heap_ok s ch /\ live_ok s ch L).

(** The states an application can reach: it starts from a fresh state,
    asks for sizes whose adjusted size does not wrap, gives back only blocks
    it holds, and writes only into the bytes it asked for. *)
Inductive reachable (w : Z) : state -> list (Z * Z) -> Prop :=
| reach_fresh s : fresh s -> reachable w s []
| reach_init s L :
    reachable w s L -> heapL s = 0 -> reachable w (fst (mm_init w s)) L
| reach_malloc s L fuel size s' p :
    reachable w s L -> 0 <= size <= SIZE_MAX w - 15 ->
    mm_malloc w fuel s size = Some (s', p) ->
    reachable w s' (if p =? NULL then L else (p, size) :: L)
| reach_free s L p :
    reachable w s L -> p = NULL \/ In p (map fst L) ->
    reachable w (mm_free w s p) (remove_ptr p L)
| reach_realloc s L fuel p size s' q :
    reachable w s L -> p = NULL \/ In p (map fst L) ->
    0 <= size <= SIZE_MAX w - 15 ->
    mm_realloc w fuel s p size = Some (s', q) ->
    reachable w s' (if size =? 0 then remove_ptr p L
                    else if q =? NULL then L else (q, size) :: remove_ptr p L)
| reach_store s L p n a v :
    reachable w s L -> In (p, n) L -> p <= a < p + n ->
    reachable w (set_mem s (store_byte (mem s) a v)) L.

(** ** The search, as a function of the block list *)

(** A block at some address fits a request when it is free and large enough. *)
Definition fits (adj : Z) (e : Z * block) : bool :=
  negb (snd (snd e)) && (adj <=? fst (snd e)).

(** The search in the specification's words: scan the real blocks from the
    cursor toward the end header and return the first that fits; else scan
    from the first real block up to, not including, the cursor; [NULL] when
    no block fits. *)
Definition fit_spec (adj : Z) (blocks : list (Z * block)) (cursor : Z) : Z :=
  let ahead := filter (fun e => cursor <=? fst e) blocks in
  let behind := filter (fun e => fst e <? cursor) blocks in
  match find (fits adj) (ahead ++ behind) with
  | Some e => fst e
  | None => NULL
  end.

(** ** Two sentences of the documentation, as they are written *)

(** C9 as the specification states it: the blocks between the sentinels add
    up to all the bytes the provider has granted.  [skel] is what the sum
    counts for the sentinels: nothing when it runs from the first real
    block, [DWORD] when it takes the start sentinel in. *)
Definition conserved_as_stated (w skel : Z) : Prop :=
  forall s L, reachable w s L -> heapL s <> 0 ->
  forall fuel bs,
    block_list fuel (mem s) (heapL s + DWORD) = Some bs ->
    skel + total bs = mem_brk s - mem_start_brk s.

(** C8 as the specification states it, with [unit] for the bytes of the
    unit it counts in: on a miss the break moves up by
    [max adj CHUNKSIZE] units. *)
Definition grows_by (unit w : Z) : Prop :=
  forall s L size fuel s1 s' p,
    reachable w s L -> heapL s <> 0 -> 0 < size <= SIZE_MAX w - 15 ->
    fit fuel s (adj_size w size) = Some (s1, NULL) ->
    mm_malloc w fuel s size = Some (s', p) -> p <> NULL ->
    mem_brk s' - mem_brk s = unit * Z.max (adj_size w size) CHUNKSIZE.

(** ** Concrete heaps *)

(** The result of a call that takes fuel, with [d] for a run out of fuel. *)
Definition state_of (r : option (state * Z)) (d : state) : state :=
  match r with
  | Some (s, _) => s
  | None => d
  end.

Definition ptr_of (r : option (state * Z)) : Z :=
  match r with
  | Some (_, p) => p
  | None => NULL
  end.

(** A provider with one megabyte at address 4096, zero filled, and the
    allocator's globals before the first call. *)
Definition example_heap : state :=
  {| mem := fun _ => 0; mem_start_brk := 4096; mem_brk := 4096;
     mem_max_addr := 4096 + 2 ^ 20; heapL := 0; trav := 0 |}.

(** A provider with room for the skeleton and the first chunk only. *)
Definition small_heap : state :=
  {| mem := fun _ => 0; mem_start_brk := 4096; mem_brk := 4096;
     mem_max_addr := 4096 + 4 * HFSIZE + CHUNKSIZE; heapL := 0; trav := 0 |}.

(** Whether a call that takes fuel has returned. *)
Definition returned (r : option (state * Z)) : bool :=
  match r with
  | Some _ => true
  | None => false
  end.

(** [example_heap] after [mm_malloc(8)]: the block [4112]. *)
Definition heap1 : state := state_of (mm_malloc 32 4 example_heap 8) example_heap.

(** [heap1] after [mm_malloc(8)]: the blocks [4112] and [4128]. *)
Definition heap2 : state := state_of (mm_malloc 32 4 heap1 8) heap1.

(** [small_heap] after [mm_malloc(8)]: the provider has nothing left to
    grant. *)
Definition small1 : state := state_of (mm_malloc 32 4 small_heap 8) small_heap.

(** [heap2], that is [a = mm_malloc(8)] and [b = mm_malloc(8)], after
    [c = mm_malloc(4056)], which fills the first chunk. *)
Definition heap3 : state := state_of (mm_malloc 32 5 heap2 4056) heap2.

(** [heap3] after [mm_free(a)]: the free block [4112], then [b] and [c],
    and the cursor on [c]. *)
Definition heap4 : state := mm_free 32 heap3 4112.

(** The state in which [mm_free] calls [coalesce]: the block at [ptr] is
    marked free and not merged yet. *)
Definition marked_free (s : state) (ptr : Z) : state :=
  let size := GET_SIZE (mem s) (HEAD ptr) in
  let m1 := WRITE (mem s) (HEAD ptr) (HF size 0) in
  set_mem s (WRITE m1 (FOOT m1 ptr) (HF size 0)).

(** [heap2] after [mm_free(4112)]: a free block, the block [4128] with the
    cursor on it, and the free rest of the chunk. *)
Definition heap2_freed : state := mm_free 32 heap2 4112.

(** [example_heap] after [mm_init]: the skeleton and one free chunk. *)
Definition heap0 : state := fst (mm_init 32 example_heap).

(** [heap4] after [d = mm_malloc(SIZE_MAX - 14)], whose adjusted size wraps
    to zero; the call returns [4112]. *)
Definition heap5 : state := state_of (mm_malloc 32 5 heap4 (SIZE_MAX 32 - 14)) heap4.

(** [heap5] after [mm_free(c)]. *)
Definition heap6 : state := mm_free 32 heap5 4144.

(** [heap6] after [mm_free(d)]. *)
Definition heap7 : state := mm_free 32 heap6 4112.

(** [example_heap] after [d = mm_malloc(SIZE_MAX - 14)], the first call:
    the adjusted size wraps to zero and the call returns [4112], a block
    that is still free. *)
Definition heap8 : state :=
  state_of (mm_malloc 32 3 example_heap (SIZE_MAX 32 - 14)) example_heap.

(** [heap8] after [mm_free(d)]. *)
Definition heap9 : state := mm_free 32 heap8 4112.

(** [heap9] after [mm_malloc(5000)]. *)
Definition heap10 : state := state_of (mm_malloc 32 4 heap9 5000) heap9.

(** [heap10] after [mm_malloc(3000)]. *)
Definition heap11 : state := state_of (mm_malloc 32 4 heap10 3000) heap10.

(** [example_heap] after [p = mm_malloc(100)]: the block [4112] of 112 bytes,
    104 of them payload. *)
Definition heap_a : state := state_of (mm_malloc 32 4 example_heap 100) example_heap.

(** The payload of [n] bytes at [p] filled with the pattern 1, 2, 3, ... *)
Fixpoint fill (n : nat) (m : memory) (p : Z) : memory :=
  match n with
  | O => m
  | S k => store_byte (fill k m p) (p + Z.of_nat k) (Z.of_nat (S k))
  end.

(** [heap_a] with the pattern in the payload of [p]. *)
Definition heap_b : state := set_mem heap_a (fill 100 (mem heap_a) 4112).

(** Whether the [n] bytes at [q] in [m'] are the [n] bytes at [p] in [m]. *)
Definition same_bytes (n : nat) (m' : memory) (q : Z) (m : memory) (p : Z) : bool :=
  forallb (fun i => m' (q + Z.of_nat i) =? m (p + Z.of_nat i)) (seq 0 n).

(** A provider that has nothing to grant. *)
Definition empty_provider : state :=
  {| mem := fun _ => 0; mem_start_brk := 4096; mem_brk := 4096;
     mem_max_addr := 4096; heapL := 0; trav := 0 |}.

(** * The heap as a list of blocks *)

(** ** Basic facts about words *)

Lemma byte_at_range m a : 0 <= byte_at m a < 256.
Proof. unfold byte_at. apply Z.mod_pos_bound. lia. Qed.

Lemma READ_range m a : 0 <= READ m a < UINT_MOD.
Proof.
  unfold READ, UINT_MOD.
  pose proof (byte_at_range m a). pose proof (byte_at_range m (a + 1)).
  pose proof (byte_at_range m (a + 2)). pose proof (byte_at_range m (a + 3)).
  change (2 ^ 8) with 256. change (2 ^ 16) with 65536.
  change (2 ^ 24) with 16777216. change (2 ^ 32) with 4294967296. lia.
Qed.

Lemma bytes_recombine v :
  v mod 256 + 2 ^ 8 * ((v / 2 ^ 8) mod 256)
  + 2 ^ 16 * ((v / 2 ^ 16) mod 256) + 2 ^ 24 * ((v / 2 ^ 24) mod 256)
  = v mod 2 ^ 32.
Proof.
  change (2 ^ 32) with (256 * (256 * (256 * 256))).
  rewrite (Z.rem_mul_r v 256 (256 * (256 * 256))) by lia.
  rewrite (Z.rem_mul_r (v / 256) 256 (256 * 256)) by lia.
  rewrite (Z.rem_mul_r (v / 256 / 256) 256 256) by lia.
  rewrite !Z.div_div by lia.
  change (2 ^ 8) with 256. change (2 ^ 16) with (256 * 256).
  change (2 ^ 24) with (256 * 256 * 256). lia.
Qed.

Lemma READ_WRITE_same m a v : READ (WRITE m a v) a = wrap32 v.
Proof.
  unfold READ, WRITE, byte_at, wrap32, UINT_MOD.
  replace ((a <=? a) && (a <? a + 4)) with true
    by (symmetry; apply andb_true_iff; split; [apply Z.leb_le | apply Z.ltb_lt]; lia).
  replace ((a <=? a + 1) && (a + 1 <? a + 4)) with true
    by (symmetry; apply andb_true_iff; split; [apply Z.leb_le | apply Z.ltb_lt]; lia).
  replace ((a <=? a + 2) && (a + 2 <? a + 4)) with true
    by (symmetry; apply andb_true_iff; split; [apply Z.leb_le | apply Z.ltb_lt]; lia).
  replace ((a <=? a + 3) && (a + 3 <? a + 4)) with true
    by (symmetry; apply andb_true_iff; split; [apply Z.leb_le | apply Z.ltb_lt]; lia).
  replace (a - a) with 0 by lia. replace (a + 1 - a) with 1 by lia.
  replace (a + 2 - a) with 2 by lia. replace (a + 3 - a) with 3 by lia.
  change (8 * 0) with 0. change (8 * 1) with 8. change (8 * 2) with 16.
  change (8 * 3) with 24. rewrite !Z.mod_mod by lia.
  change (2 ^ 0) with 1. rewrite Z.div_1_r. apply bytes_recombine.
Qed.

(** Two memories that agree on the four bytes of a word hold the same word. *)
Lemma READ_ext m m' a :
  (forall x, a <= x < a + 4 -> m' x = m x) -> READ m' a = READ m a.
Proof.
  intros H. unfold READ, byte_at.
  rewrite (H a), (H (a + 1)), (H (a + 2)), (H (a + 3)) by lia. reflexivity.
Qed.

Lemma WRITE_other m a v x : x < a \/ a + 4 <= x -> WRITE m a v x = m x.
Proof.
  intros H. unfold WRITE.
  destruct (a <=? x) eqn:E1; destruct (x <? a + 4) eqn:E2; simpl; try reflexivity.
  apply Z.leb_le in E1. apply Z.ltb_lt in E2. lia.
Qed.

Lemma READ_WRITE_other m a v b :
  b + 4 <= a \/ a + 4 <= b -> READ (WRITE m a v) b = READ m b.
Proof. intros H. apply READ_ext. intros x Hx. apply WRITE_other. lia. Qed.

(** ** Decoding header and footer words *)

Lemma land_mask_clears_low x :
  0 <= x < UINT_MOD -> Z.land x (wrap32 (Z.lnot 7)) = 8 * (x / 8).
Proof.
  intros Hx. unfold wrap32, UINT_MOD.
  rewrite <- (Z.land_ones (Z.lnot 7) 32) by lia.
  rewrite (Z.land_comm (Z.lnot 7)), Z.land_assoc.
  rewrite (Z.land_ones x 32) by lia.
  rewrite (Z.mod_small x (2 ^ 32)) by exact Hx.
  rewrite <- Z.ldiff_land. change 7 with (Z.ones 3).
  rewrite Z.ldiff_ones_r by lia.
  rewrite Z.shiftl_mul_pow2, Z.shiftr_div_pow2 by lia.
  change (2 ^ 3) with 8. lia.
Qed.

Lemma HF_free sz : HF sz 0 = sz.
Proof. unfold HF. apply Z.lor_0_r. Qed.

Lemma HF_alloc sz : 0 <= sz -> sz mod 2 = 0 -> HF sz 1 = sz + 1.
Proof.
  intros H0 H8. unfold HF.
  assert (L : Z.land sz 1 = 0).
  { change 1 with (Z.ones 1). rewrite Z.land_ones by lia. exact H8. }
  rewrite <- Z.lxor_lor by exact L.
  symmetry. apply Z.add_nocarry_lxor. exact L.
Qed.

Lemma tag_value sz a :
  0 <= sz -> sz mod 8 = 0 -> tag sz a = sz + (if a then 1 else 0).
Proof.
  intros H0 H8. unfold tag. destruct a.
  - apply HF_alloc; [exact H0|].
    rewrite (Z.div_mod sz 8) by lia. rewrite H8.
    replace (8 * (sz / 8) + 0) with (4 * (sz / 8) * 2) by lia.
    apply Z.mod_mul. lia.
  - rewrite HF_free. lia.
Qed.

Lemma GET_SIZE_tag m a sz al :
  0 <= sz < UINT_MOD -> sz mod 8 = 0 -> READ m a = tag sz al -> GET_SIZE m a = sz.
Proof.
  intros Hsz H8 Hrd.
  unfold GET_SIZE. rewrite land_mask_clears_low by apply READ_range.
  rewrite Hrd, tag_value by lia.
  pose proof (Z.div_mod sz 8).
  destruct al.
  - pose proof (Z.div_mod (sz + 1) 8). pose proof (Z.mod_pos_bound (sz + 1) 8). lia.
  - rewrite Z.add_0_r. lia.
Qed.

Lemma GET_ALLOC_tag m a sz al :
  0 <= sz < UINT_MOD -> sz mod 8 = 0 -> READ m a = tag sz al ->
  GET_ALLOC m a = if al then 1 else 0.
Proof.
  intros Hsz H8 Hrd.
  unfold GET_ALLOC. change 1 with (Z.ones 1) at 1.
  rewrite Z.land_ones by lia. rewrite Hrd, tag_value by lia.
  change (2 ^ 1) with 2.
  assert (E : sz = 2 * (4 * (sz / 8))) by (pose proof (Z.div_mod sz 8); lia).
  destruct al.
  - rewrite E, Z.add_comm, Z.mul_comm, Z.mod_add by lia. reflexivity.
  - rewrite Z.add_0_r, E, Z.mul_comm, Z.mod_mul by lia. reflexivity.
Qed.

Lemma wrap32_small x : 0 <= x < UINT_MOD -> wrap32 x = x.
Proof. intros H. unfold wrap32. apply Z.mod_small. exact H. Qed.

Lemma tag_range sz a : 0 <= sz < UINT_MOD -> sz mod 8 = 0 -> 0 <= tag sz a < UINT_MOD.
Proof.
  intros H H8. rewrite tag_value by lia. unfold UINT_MOD in *.
  change (2 ^ 32) with 4294967296 in *.
  destruct a; pose proof (Z.div_mod sz 8); lia.
Qed.

Lemma READ_WRITE_tag m a sz al :
  0 <= sz < UINT_MOD -> sz mod 8 = 0 -> READ (WRITE m a (tag sz al)) a = tag sz al.
Proof.
  intros H H8. rewrite READ_WRITE_same. apply wrap32_small. apply tag_range; assumption.
Qed.

(** ** The block list laid out in memory *)

Lemma total_app bs1 bs2 : total (bs1 ++ bs2) = total bs1 + total bs2.
Proof. induction bs1 as [|b bs1 IH]; simpl; [reflexivity | rewrite IH; lia]. Qed.

Lemma layout_total m bs : forall p q, layout m p bs q -> q = p + total bs.
Proof.
  induction bs as [|b bs IH]; simpl; intros p q H.
  - lia.
  - destruct H as (_ & _ & _ & H). apply IH in H. lia.
Qed.

Lemma layout_nonneg m bs : forall p q, layout m p bs q -> 0 <= total bs.
Proof.
  induction bs as [|b bs IH]; simpl; intros p q H.
  - lia.
  - destruct H as (H8 & _ & _ & H). apply IH in H. lia.
Qed.

Lemma layout_length m bs :
  forall p q, layout m p bs q -> 8 * Z.of_nat (length bs) <= total bs.
Proof.
  induction bs as [|b bs IH]; intros p q H.
  - simpl. lia.
  - destruct H as (H8 & _ & _ & H). apply IH in H.
    change (total (b :: bs)) with (fst b + total bs).
    rewrite length_cons, Nat2Z.inj_succ. lia.
Qed.

Lemma layout_app m bs1 bs2 :
  forall p q,
    layout m p (bs1 ++ bs2) q <->
    layout m p bs1 (p + total bs1) /\ layout m (p + total bs1) bs2 q.
Proof.
  induction bs1 as [|b bs1 IH]; simpl; intros p q.
  - rewrite Z.add_0_r. tauto.
  - rewrite IH. replace (p + (fst b + total bs1)) with (p + fst b + total bs1) by lia.
    tauto.
Qed.

(** [layout] reads memory only between the first header and the last footer. *)
Lemma layout_ext m m' bs :
  forall p q,
    (forall x, p - 4 <= x < q - 4 -> m' x = m x) ->
    layout m p bs q -> layout m' p bs q.
Proof.
  induction bs as [|b bs IH]; simpl; intros p q Hagree H.
  - exact H.
  - destruct H as (H8 & Hm & (Hh & Hf) & H).
    pose proof (layout_total _ _ _ _ H) as Hq.
    pose proof (layout_nonneg _ _ _ _ H) as Hnn.
    repeat split; try assumption.
    + rewrite <- Hh. apply READ_ext. intros x Hx. apply Hagree.
      unfold HEAD, HFSIZE in *. lia.
    + rewrite <- Hf. apply READ_ext. intros x Hx. apply Hagree.
      unfold DWORD in *. lia.
    + apply IH; [|exact H]. intros x Hx. apply Hagree. lia.
Qed.

Lemma layout_WRITE m bs p q a v :
  a + 4 <= p - 4 \/ q - 4 <= a ->
  layout m p bs q -> layout (WRITE m a v) p bs q.
Proof.
  intros Ha. apply layout_ext. intros x Hx. apply WRITE_other. lia.
Qed.

(** The word in front of a laid-out list is the header of its first block,
    or the end header when the list is empty. *)
Lemma layout_next_header m post p q :
  layout m p post q -> READ m (HEAD q) = tag 0 true ->
  READ m (HEAD p) = tag (fst (next_block post)) (snd (next_block post)).
Proof.
  destruct post as [|b post]; simpl.
  - intros -> H. exact H.
  - intros (_ & _ & (H & _) & _) _. exact H.
Qed.

Lemma next_block_size m post p q :
  layout m p post q ->
  0 <= fst (next_block post) <= q - p /\ fst (next_block post) mod 8 = 0.
Proof.
  destruct post as [|b post]; simpl.
  - intros ->. split; [lia | reflexivity].
  - intros (H8 & Hm & _ & H).
    pose proof (layout_total _ _ _ _ H). pose proof (layout_nonneg _ _ _ _ H).
    split; [lia | exact Hm].
Qed.

(** The footer in front of [q] belongs to the last block of the list. *)
Lemma layout_last m pre b :
  forall p q,
    layout m p (pre ++ [b]) q ->
    layout m p pre (q - fst b) /\ 8 <= fst b /\ fst b mod 8 = 0
    /\ READ m (HEAD (q - fst b)) = tag (fst b) (snd b)
    /\ READ m (q - DWORD) = tag (fst b) (snd b).
Proof.
  intros p q H. apply layout_app in H. destruct H as (Hpre & Hb).
  simpl in Hb. destruct Hb as (H8 & Hm & (Hh & Hf) & Hq).
  assert (E : q - fst b = p + total pre) by lia.
  rewrite E. repeat split; try assumption.
  rewrite <- Hf. f_equal. lia.
Qed.

Lemma mod8_add a b : a mod 8 = 0 -> b mod 8 = 0 -> (a + b) mod 8 = 0.
Proof. intros Ha Hb. rewrite Z.add_mod, Ha, Hb by lia. reflexivity. Qed.

Lemma mod8_sub a b : a mod 8 = 0 -> b mod 8 = 0 -> (a - b) mod 8 = 0.
Proof. intros Ha Hb. rewrite Zminus_mod, Ha, Hb. reflexivity. Qed.

(** ** The operations refine operations on the block list *)

Section Refinement.

Variable w : Z.
Hypothesis Hw : 32 <= w.

Lemma UINT_MOD_le_SIZE_MOD : UINT_MOD <= SIZE_MOD w.
Proof. unfold UINT_MOD, SIZE_MOD. apply Z.pow_le_mono_r; lia. Qed.

Lemma wrap_small x : 0 <= x < UINT_MOD -> wrap w x = x.
Proof.
  intros H. unfold wrap. apply Z.mod_small.
  pose proof UINT_MOD_le_SIZE_MOD. lia.
Qed.

Lemma SIZE_MOD_multiple_of_8 : SIZE_MOD w mod 8 = 0.
Proof.
  unfold SIZE_MOD. replace w with (3 + (w - 3)) by lia.
  rewrite Z.pow_add_r by lia. change (2 ^ 3) with 8.
  rewrite Z.mul_comm. apply Z.mod_mul. lia.
Qed.

Lemma coalesce_mem s ptr p0 pre pb sz post q :
  layout (mem s) p0 (pre ++ [pb]) ptr ->
  layout (mem s) ptr ((sz, false) :: post) q ->
  READ (mem s) (HEAD q) = tag 0 true ->
  q - p0 < UINT_MOD ->
  let r := coalesce_ptr ptr pb in
  let n := coalesce_size pb sz post in
  let s' := fst (coalesce w s ptr) in
  snd (coalesce w s ptr) = r
  /\ READ (mem s') (r - 4) = tag n false
  /\ READ (mem s') (r + n - 8) = tag n false
  /\ (forall x, ~ (r - 4 <= x < r) -> ~ (r + n - 8 <= x < r + n - 4) ->
                mem s' x = mem s x)
  /\ trav s' =
       (if snd pb && snd (next_block post) then trav s
        else if (r <? trav s) && (trav s <? r + n) then r else trav s)
  /\ heapL s' = heapL s /\ mem_brk s' = mem_brk s
  /\ mem_max_addr s' = mem_max_addr s /\ mem_start_brk s' = mem_start_brk s.
Proof.
  intros Hpre Hcur Hend Hlt r n s'.
  apply layout_last in Hpre. destruct Hpre as (Hpre & Hp8 & Hpm & Hph & Hpf).
  destruct pb as [psz pa]. simpl fst in *. simpl snd in *.
  destruct Hcur as (H8 & Hm & (Hh & Hf) & Hpost). simpl fst in *. simpl snd in *.
  pose proof (layout_next_header _ _ _ _ Hpost Hend) as Hnh.
  pose proof (next_block_size _ _ _ _ Hpost) as (Hnr & Hnm).
  pose proof (layout_total _ _ _ _ Hpre) as Tpre.
  pose proof (layout_nonneg _ _ _ _ Hpre) as Npre.
  pose proof (layout_total _ _ _ _ Hpost) as Tpost.
  pose proof (layout_nonneg _ _ _ _ Hpost) as Npost.
  subst n. unfold coalesce_size. 
  remember (next_block post) as nb eqn:Enb. destruct nb as [nsz na].
  simpl fst in *. simpl snd in *.
  set (m := mem s) in *.
  assert (Gp : GET_SIZE m (ptr - DWORD) = psz)
    by (apply (GET_SIZE_tag _ _ _ pa); [lia | assumption | assumption]).
  assert (Gc : GET_SIZE m (HEAD ptr) = sz)
    by (apply (GET_SIZE_tag _ _ _ false); [lia | assumption | assumption]).
  assert (Gph : GET_SIZE m (HEAD (ptr - psz)) = psz)
    by (apply (GET_SIZE_tag _ _ _ pa); [lia | assumption | assumption]).
  assert (Gn : GET_SIZE m (HEAD (ptr + sz)) = nsz)
    by (apply (GET_SIZE_tag _ _ _ na); [lia | assumption | assumption]).
  assert (Ap : GET_ALLOC m (ptr - DWORD) = if pa then 1 else 0)
    by (apply (GET_ALLOC_tag _ _ psz); [lia | assumption | assumption]).
  assert (An : GET_ALLOC m (HEAD (ptr + sz)) = if na then 1 else 0)
    by (apply (GET_ALLOC_tag _ _ nsz); [lia | assumption | assumption]).
  assert (E1 : PREV m ptr = ptr - psz) by (unfold PREV; rewrite Gp; reflexivity).
  assert (E2 : FOOT m (ptr - psz) = ptr - DWORD) by (unfold FOOT; rewrite Gph; lia).
  assert (E3 : NEXT m ptr = ptr + sz) by (unfold NEXT; fold (HEAD ptr); rewrite Gc; reflexivity).
  assert (E4 : FOOT m ptr = ptr + sz - DWORD) by (unfold FOOT; rewrite Gc; reflexivity).
  subst s' r. unfold coalesce, coalesce_ptr. fold m. rewrite E1, E2, E3, E4, Ap, An, Gc, Gph, Gn.
  destruct pa, na; cbn [negb andb Z.eqb fst snd]; cbv zeta.
  - (* both allocated *)
    rewrite !Z.add_0_r. unfold HEAD, HFSIZE, DWORD in *.
    repeat split; try reflexivity; assumption.
  - (* only the next block is free *)
    rewrite wrap_small by lia.
    change (HF (sz + nsz) 0) with (tag (sz + nsz) false).
    set (v := tag (sz + nsz) false).
    set (m1 := WRITE m (HEAD ptr) v).
    assert (R1 : READ m1 (HEAD ptr) = v)
      by (apply READ_WRITE_tag; [lia | apply mod8_add; assumption]).
    assert (G1 : GET_SIZE m1 (HEAD ptr) = sz + nsz)
      by (apply (GET_SIZE_tag _ _ _ false); [lia | apply mod8_add; assumption | exact R1]).
    assert (F1 : FOOT m1 ptr = ptr + (sz + nsz) - DWORD) by (unfold FOOT; rewrite G1; reflexivity).
    rewrite F1. set (m2 := WRITE m1 (ptr + (sz + nsz) - DWORD) v).
    assert (R2 : READ m2 (HEAD ptr) = v).
    { unfold m2. rewrite READ_WRITE_other by (unfold HEAD, HFSIZE, DWORD; lia). exact R1. }
    assert (G2 : GET_SIZE m2 (HEAD ptr) = sz + nsz)
      by (apply (GET_SIZE_tag _ _ _ false); [lia | apply mod8_add; assumption | exact R2]).
    assert (N2 : NEXT m2 ptr = ptr + (sz + nsz)) by (unfold NEXT; fold (HEAD ptr); rewrite G2; reflexivity).
    rewrite N2. cbn [mem trav heapL mem_brk mem_max_addr mem_start_brk fst snd].
    rewrite Z.add_0_r.
    replace (ptr + sz + nsz) with (ptr + (sz + nsz)) by lia.
    repeat split; try reflexivity.
    + exact R2.
    + unfold m2. unfold DWORD. apply READ_WRITE_tag; [lia | apply mod8_add; assumption].
    + intros x Hx1 Hx2. unfold m2, m1.
      rewrite !WRITE_other by (unfold HEAD, HFSIZE, DWORD; lia). reflexivity.
  - (* only the previous block is free *)
    rewrite wrap_small by lia.
    change (HF (sz + psz) 0) with (tag (sz + psz) false).
    set (v := tag (sz + psz) false).
    set (m1 := WRITE m (ptr + sz - DWORD) v).
    assert (P1 : PREV m1 ptr = ptr - psz).
    { unfold PREV. rewrite (GET_SIZE_tag m1 _ psz false); [reflexivity | lia | assumption |].
      unfold m1. rewrite READ_WRITE_other by (unfold DWORD; lia). exact Hpf. }
    rewrite P1. set (m2 := WRITE m1 (HEAD (ptr - psz)) v).
    assert (P2 : PREV m2 ptr = ptr - psz).
    { unfold PREV. rewrite (GET_SIZE_tag m2 _ psz false); [reflexivity | lia | assumption |].
      unfold m2, m1. rewrite !READ_WRITE_other by (unfold HEAD, HFSIZE, DWORD; lia). exact Hpf. }
    rewrite P2.
    assert (R2 : READ m2 (HEAD (ptr - psz)) = v)
      by (apply READ_WRITE_tag; [lia | apply mod8_add; assumption]).
    assert (G2 : GET_SIZE m2 (HEAD (ptr - psz)) = sz + psz)
      by (apply (GET_SIZE_tag _ _ _ false); [lia | apply mod8_add; assumption | exact R2]).
    assert (N2 : NEXT m2 (ptr - psz) = ptr - psz + (sz + psz))
      by (unfold NEXT; fold (HEAD (ptr - psz)); rewrite G2; reflexivity).
    rewrite N2. cbn [mem trav heapL mem_brk mem_max_addr mem_start_brk fst snd].
    rewrite Z.add_0_r.
    repeat split; try reflexivity.
    + exact R2.
    + unfold m2. rewrite READ_WRITE_other by (unfold HEAD, HFSIZE, DWORD; lia).
      unfold m1. replace (ptr - psz + (sz + psz) - 8) with (ptr + sz - DWORD) by (unfold DWORD; lia).
      apply READ_WRITE_tag; [lia | apply mod8_add; assumption].
    + intros x Hx1 Hx2. unfold m2, m1.
      rewrite !WRITE_other by (unfold HEAD, HFSIZE, DWORD; lia). reflexivity.
  - (* both neighbours are free *)
    assert (Gnf : GET_SIZE m (FOOT m (ptr + sz)) = nsz).
    { destruct post as [|b post]; simpl in Enb; [discriminate|]. subst b.
      destruct Hpost as (_ & _ & (_ & Hnf) & _). simpl fst in *. simpl snd in *.
      unfold FOOT. rewrite Gn.
      apply (GET_SIZE_tag _ _ _ false); [lia | assumption | assumption]. }
    rewrite Gnf. rewrite (wrap32_small (psz + nsz)) by lia.
    rewrite wrap_small by lia.
    change (HF (sz + (psz + nsz)) 0) with (tag (sz + (psz + nsz)) false).
    set (v := tag (sz + (psz + nsz)) false).
    assert (Vm : (sz + (psz + nsz)) mod 8 = 0) by (repeat apply mod8_add; assumption).
    set (m1 := WRITE m (HEAD (ptr - psz)) v).
    assert (N1 : NEXT m1 ptr = ptr + sz).
    { unfold NEXT. fold (HEAD ptr). rewrite (GET_SIZE_tag m1 _ sz false); [reflexivity | lia | assumption |].
      unfold m1. rewrite READ_WRITE_other by (unfold HEAD, HFSIZE; lia). exact Hh. }
    rewrite N1.
    assert (F1 : FOOT m1 (ptr + sz) = ptr + sz + nsz - DWORD).
    { unfold FOOT. rewrite (GET_SIZE_tag m1 _ nsz false); [reflexivity | lia | assumption |].
      unfold m1. rewrite READ_WRITE_other by (unfold HEAD, HFSIZE; lia). exact Hnh. }
    rewrite F1. set (m2 := WRITE m1 (ptr + sz + nsz - DWORD) v).
    assert (P2 : PREV m2 ptr = ptr - psz).
    { unfold PREV. rewrite (GET_SIZE_tag m2 _ psz false); [reflexivity | lia | assumption |].
      unfold m2, m1. rewrite !READ_WRITE_other by (unfold HEAD, HFSIZE, DWORD; lia). exact Hpf. }
    rewrite P2.
    assert (R2 : READ m2 (HEAD (ptr - psz)) = v).
    { unfold m2. rewrite READ_WRITE_other by (unfold HEAD, HFSIZE, DWORD; lia).
      apply READ_WRITE_tag; [lia | assumption]. }
    assert (G2 : GET_SIZE m2 (HEAD (ptr - psz)) = sz + (psz + nsz))
      by (apply (GET_SIZE_tag _ _ _ false); [lia | assumption | exact R2]).
    assert (N2 : NEXT m2 (ptr - psz) = ptr - psz + (sz + (psz + nsz)))
      by (unfold NEXT; fold (HEAD (ptr - psz)); rewrite G2; reflexivity).
    rewrite N2. cbn [mem trav heapL mem_brk mem_max_addr mem_start_brk fst snd].
    replace (sz + psz + nsz) with (sz + (psz + nsz)) by lia.
    repeat split; try reflexivity.
    + exact R2.
    + unfold m2. replace (ptr - psz + (sz + (psz + nsz)) - 8) with (ptr + sz + nsz - DWORD)
        by (unfold DWORD; lia).
      apply READ_WRITE_tag; [lia | assumption].
    + intros x Hx1 Hx2. unfold m2, m1.
      rewrite !WRITE_other by (unfold HEAD, HFSIZE, DWORD; lia). reflexivity.
Qed.


Lemma located_app bs1 bs2 :
  forall p,
    located p (bs1 ++ bs2) = located p bs1 ++ located (p + total bs1) bs2.
Proof.
  induction bs1 as [|b bs1 IH]; simpl; intros p.
  - rewrite Z.add_0_r. reflexivity.
  - rewrite IH. do 3 f_equal. lia.
Qed.

Lemma located_split bs :
  forall p x b,
    In (x, b) (located p bs) ->
    exists pre post, bs = pre ++ b :: post /\ x = p + total pre.
Proof.
  induction bs as [|c bs IH]; simpl; intros p x b H.
  - contradiction.
  - destruct H as [H | H].
    + inversion H; subst. exists [], bs. simpl. split; [reflexivity | lia].
    + apply IH in H. destruct H as (pre & post & -> & ->).
      exists (c :: pre), post. simpl. split; [reflexivity | lia].
Qed.

Lemma located_mid pre b post p :
  In (p + total pre, b) (located p (pre ++ b :: post)).
Proof. rewrite located_app. apply in_or_app. right. simpl. left. reflexivity. Qed.

(** Where the blocks of a laid-out list are. *)
Lemma located_range m bs :
  forall p q x b,
    layout m p bs q -> In (x, b) (located p bs) ->
    p <= x /\ 8 <= fst b /\ x + fst b <= q.
Proof.
  induction bs as [|c bs IH]; simpl; intros p q x b Hl H.
  - contradiction.
  - destruct Hl as (H8 & _ & _ & Hl).
    pose proof (layout_total _ _ _ _ Hl). pose proof (layout_nonneg _ _ _ _ Hl).
    destruct H as [H | H].
    + inversion H; subst. lia.
    + specialize (IH _ _ _ _ Hl H). lia.
Qed.

(** Blocks at the same address of one list are the same block. *)
Lemma located_functional m bs :
  forall p q x b1 b2,
    layout m p bs q -> In (x, b1) (located p bs) -> In (x, b2) (located p bs) ->
    b1 = b2.
Proof.
  induction bs as [|c bs IH]; simpl; intros p q x b1 b2 Hl H1 H2.
  - contradiction.
  - destruct Hl as (H8 & _ & _ & Hl).
    destruct H1 as [H1 | H1]; destruct H2 as [H2 | H2].
    + congruence.
    + inversion H1; subst. pose proof (located_range _ _ _ _ _ _ Hl H2). lia.
    + inversion H2; subst. pose proof (located_range _ _ _ _ _ _ Hl H1). lia.
    + eapply IH; eassumption.
Qed.

Lemma coalesce_layout m m' p0 pre pb sz post q :
  layout m p0 (pre ++ [pb]) (p0 + total (pre ++ [pb])) ->
  layout m (p0 + total (pre ++ [pb])) ((sz, false) :: post) q ->
  READ m (HEAD q) = tag 0 true ->
  let ptr := p0 + total (pre ++ [pb]) in
  let r := coalesce_ptr ptr pb in
  let n := coalesce_size pb sz post in
  READ m' (r - 4) = tag n false ->
  READ m' (r + n - 8) = tag n false ->
  (forall x, ~ (r - 4 <= x < r) -> ~ (r + n - 8 <= x < r + n - 4) -> m' x = m x) ->
  layout m' p0 (coalesce_blocks pre pb sz post) q
  /\ READ m' (HEAD q) = tag 0 true
  /\ r = p0 + total (if snd pb then pre ++ [pb] else pre).
Proof.
  intros Hpre Hcur Hend ptr r n Rh Rf Hframe.
  pose proof Hpre as Hpre0.
  apply layout_last in Hpre. destruct Hpre as (Hpre & Hp8 & Hpm & Hph & Hpf).
  fold ptr in Hpre, Hph, Hpf, Hcur, Hpre0.
  destruct Hcur as (H8 & Hm & (Hh & Hf) & Hpost). simpl fst in *. simpl snd in *.
  pose proof (next_block_size _ _ _ _ Hpost) as (Hnr & Hnm).
  pose proof (layout_total _ _ _ _ Hpre) as Tpre.
  pose proof (layout_nonneg _ _ _ _ Hpre) as Npre.
  pose proof (layout_total _ _ _ _ Hpost) as Tpost.
  assert (Er : r = p0 + total (if snd pb then pre ++ [pb] else pre)).
  { subst r. unfold coalesce_ptr. destruct (snd pb); [reflexivity | lia]. }
  assert (Hn : 8 <= n /\ n mod 8 = 0 /\ ptr <= r + n - 8 /\ r <= ptr - 8 + 8
               /\ r + n <= q).
  { subst n r. unfold coalesce_size, coalesce_ptr.
    destruct (snd pb), (snd (next_block post)); rewrite ?Z.add_0_r;
      repeat split; try lia; repeat apply mod8_add; assumption. }
  destruct Hn as (Hn8 & Hnm8 & Hn1 & Hn2 & Hn3).
  split; [|split; [|exact Er]].
  - unfold coalesce_blocks. fold n. apply layout_app. rewrite <- Er. split.
    + apply (layout_ext m); [intros x Hx; apply Hframe; lia|].
      rewrite Er. destruct (snd pb).
      * exact Hpre0.
      * rewrite <- Tpre. exact Hpre.
    + simpl. split; [exact Hn8|]. split; [exact Hnm8|].
      split; [split; [exact Rh | exact Rf]|].
      apply (layout_ext m); [intros x Hx; apply Hframe; lia|].
      subst n r. unfold coalesce_size, coalesce_ptr.
      destruct post as [|[nsz na] post]; cbn [next_block fst snd tl].
      * simpl in Hpost. simpl. subst q. destruct (snd pb); lia.
      * destruct na, (snd pb); cbn [layout] in Hpost.
        -- replace (ptr + (sz + 0 + 0)) with (ptr + sz) by lia. exact Hpost.
        -- replace (ptr - fst pb + (sz + fst pb + 0)) with (ptr + sz) by lia.
           exact Hpost.
        -- replace (ptr + (sz + 0 + nsz)) with (ptr + sz + nsz) by lia. tauto.
        -- replace (ptr - fst pb + (sz + fst pb + nsz)) with (ptr + sz + nsz) by lia.
           tauto.
  - rewrite <- Hend. apply READ_ext. intros x Hx. apply Hframe; unfold HEAD, HFSIZE in *; lia.
Qed.

(** *** Facts about lists of blocks *)

Lemma last_alloc_cons b l : l <> [] -> last_alloc (b :: l) = last_alloc l.
Proof. unfold last_alloc. destruct l; [congruence | reflexivity]. Qed.

Lemma last_alloc_snoc l b : last_alloc (l ++ [b]) = snd b.
Proof. unfold last_alloc. rewrite last_last. reflexivity. Qed.

Lemma adjacent_free_mid_free l1 z l2 :
  adjacent_free (l1 ++ (z, false) :: l2) = false <->
  adjacent_free l1 = false /\ last_alloc l1 = true
  /\ snd (next_block l2) = true /\ adjacent_free l2 = false.
Proof.
  induction l1 as [|b l1 IH].
  - unfold last_alloc. cbn [app last snd adjacent_free negb andb orb].
    destruct (snd (next_block l2)), (adjacent_free l2); simpl; intuition congruence.
  - cbn [app adjacent_free].
    destruct l1 as [|c l1].
    + unfold last_alloc. cbn [app next_block snd last adjacent_free negb andb orb].
      destruct (snd b), (snd (next_block l2)), (adjacent_free l2); simpl; intuition congruence.
    + rewrite last_alloc_cons by discriminate.
      cbn [app next_block] in *.
      destruct (negb (snd b) && negb (snd c)); cbn [orb]; [intuition congruence|].
      exact IH.
Qed.

Lemma adjacent_free_mid_alloc l1 z l2 :
  adjacent_free (l1 ++ (z, true) :: l2) = false <->
  adjacent_free l1 = false /\ adjacent_free l2 = false.
Proof.
  induction l1 as [|b l1 IH].
  - cbn [app snd negb andb orb adjacent_free]. intuition congruence.
  - cbn [app adjacent_free].
    destruct l1 as [|c l1].
    + cbn [app next_block snd negb andb orb adjacent_free].
      rewrite !andb_false_r. cbn [orb]. intuition congruence.
    + cbn [app next_block] in *.
      destruct (negb (snd b) && negb (snd c)); cbn [orb]; [intuition congruence|].
      exact IH.
Qed.

Lemma total_next_tl post :
  snd (next_block post) = false -> fst (next_block post) + total (tl post) = total post.
Proof. destruct post as [|b post]; simpl; [discriminate | reflexivity]. Qed.

Lemma coalesce_blocks_total pre pb sz post :
  total (coalesce_blocks pre pb sz post) = total (pre ++ pb :: (sz, false) :: post).
Proof.
  unfold coalesce_blocks, coalesce_size. rewrite !total_app.
  cbn [total fst].
  destruct (snd (next_block post)) eqn:En.
  - destruct (snd pb); rewrite ?total_app; cbn [total fst]; lia.
  - pose proof (total_next_tl _ En).
    destruct (snd pb); rewrite ?total_app; cbn [total fst]; lia.
Qed.

Lemma coalesce_blocks_adjacent pre pb sz post :
  adjacent_free (pre ++ pb :: (sz, true) :: post) = false ->
  adjacent_free (coalesce_blocks pre pb sz post) = false.
Proof.
  intros H.
  change (pre ++ pb :: (sz, true) :: post) with (pre ++ [pb] ++ (sz, true) :: post) in H.
  rewrite app_assoc in H. apply adjacent_free_mid_alloc in H. destruct H as (Hp & Hq).
  unfold coalesce_blocks. apply adjacent_free_mid_free.
  destruct pb as [psz pa]. cbn [snd fst] in *.
  assert (Hpost : snd (next_block post) = false ->
                  snd (next_block (tl post)) = true /\ adjacent_free (tl post) = false).
  { intros En. destruct post as [|[nsz na] post]; simpl in En; [discriminate|]. subst na.
    apply (adjacent_free_mid_free [] nsz post) in Hq. simpl. tauto. }
  assert (Hpre : pa = false -> adjacent_free pre = false /\ last_alloc pre = true).
  { intros ->. apply adjacent_free_mid_free in Hp. tauto. }
  destruct pa, (snd (next_block post)) eqn:En;
    rewrite ?last_alloc_snoc; cbn [snd]; intuition.
Qed.

Lemma coalesce_blocks_keeps pre pb sz post p0 x z :
  In (x, (z, true)) (located p0 (pre ++ pb :: (sz, false) :: post)) ->
  In (x, (z, true)) (located p0 (coalesce_blocks pre pb sz post)).
Proof.
  unfold coalesce_blocks, coalesce_size.
  rewrite !located_app. cbn [located fst]. intros H.
  apply in_app_or in H. destruct H as [H | [H | [H | H]]].
  - apply in_or_app. left. destruct (snd pb); [|exact H].
    rewrite located_app. apply in_or_app. left. exact H.
  - destruct pb as [psz pa]. inversion H; subst. cbn [snd].
    apply in_or_app. left. rewrite located_app. apply in_or_app. right. left. reflexivity.
  - discriminate.
  - apply in_or_app. right. right.
    destruct post as [|[nsz na] post]; [contradiction|].
    cbn [next_block snd fst tl located] in *.
    destruct na.
    + destruct (snd pb); rewrite ?total_app; cbn [total fst located];
        match goal with
        | |- In _ ((?a, _) :: _) =>
            match type of H with
            | In _ ((?b, _) :: _) => replace a with b by lia; exact H
            end
        end.
    + destruct H as [H | H]; [discriminate|].
      destruct (snd pb); rewrite ?total_app; cbn [total fst];
        match goal with
        | |- In _ (located ?a _) =>
            match type of H with
            | In _ (located ?b _) => replace a with b by lia; exact H
            end
        end.
Qed.

Lemma coalesce_blocks_result pre pb sz post p0 :
  In (coalesce_ptr (p0 + total (pre ++ [pb])) pb, (coalesce_size pb sz post, false))
     (located p0 (coalesce_blocks pre pb sz post)).
Proof.
  unfold coalesce_blocks, coalesce_ptr.
  replace (if snd pb then p0 + total (pre ++ [pb]) else p0 + total (pre ++ [pb]) - fst pb)
    with (p0 + total (if snd pb then pre ++ [pb] else pre)).
  - apply located_mid.
  - destruct (snd pb); [reflexivity|]. rewrite total_app. simpl. lia.
Qed.

Lemma coalesce_blocks_same pre pb sz post :
  snd pb = true -> snd (next_block post) = true ->
  coalesce_blocks pre pb sz post = pre ++ pb :: (sz, false) :: post.
Proof.
  intros Ea Eb. unfold coalesce_blocks, coalesce_size.
  rewrite Ea, Eb, !Z.add_0_r, <- app_assoc. reflexivity.
Qed.

(** A merge removes at most two addresses from the list: that of the block
    itself when it joins its predecessor, and that of its successor. *)
Lemma coalesce_blocks_positions pre pb sz post p0 t :
  In t (map fst (located p0 (pre ++ pb :: (sz, false) :: post))) ->
  In t (map fst (located p0 (coalesce_blocks pre pb sz post)))
  \/ (snd pb = false /\ t = p0 + total (pre ++ [pb]))
  \/ (snd (next_block post) = false /\ t = p0 + total (pre ++ [pb]) + sz).
Proof.
  unfold coalesce_blocks, coalesce_size.
  rewrite !located_app, !map_app, total_app. cbn [located fst map total].
  intros H. apply in_app_or in H. destruct H as [H | [H | [H | H]]].
  - left. apply in_or_app. left. destruct (snd pb); [|exact H].
    rewrite located_app, map_app. apply in_or_app. left. exact H.
  - subst t. left. destruct (snd pb).
    + apply in_or_app. left. rewrite located_app, map_app. apply in_or_app. right.
      left. reflexivity.
    + apply in_or_app. right. left. reflexivity.
  - subst t. destruct (snd pb).
    + left. apply in_or_app. right. left. rewrite total_app. cbn [total fst]. lia.
    + right. left. split; [reflexivity | lia].
  - destruct post as [|[nsz na] post]; [contradiction|].
    cbn [next_block snd fst tl located map] in *.
    destruct na.
    + left. apply in_or_app. right. right.
      destruct (snd pb); rewrite ?total_app; cbn [total fst located map];
        match goal with
        | |- In _ (?a :: _) =>
            match type of H with
            | In _ (?b :: _) => replace a with b by lia; exact H
            end
        end.
    + destruct H as [H | H].
      * right. right. split; [reflexivity | lia].
      * left. apply in_or_app. right. right.
        destruct (snd pb); rewrite ?total_app; cbn [total fst];
        match goal with
        | |- In _ (map fst (located ?a _)) =>
            match type of H with
            | In _ (map fst (located ?b _)) => replace a with b by lia; exact H
            end
        end.
Qed.

Lemma layout_sizes m bs :
  forall p q, layout m p bs q -> Forall (fun b => 8 <= fst b) bs.
Proof.
  induction bs as [|b bs IH]; intros p q H; constructor.
  - destruct H as (H8 & _). exact H8.
  - destruct H as (_ & _ & _ & H). eapply IH. exact H.
Qed.

(** The cursor after a merge is again the address of a block. *)
Lemma coalesce_blocks_cursor pre pb sz post p0 t :
  Forall (fun b => 8 <= fst b) (pre ++ pb :: (sz, false) :: post) ->
  In t (map fst (located p0 (pre ++ pb :: (sz, false) :: post))) ->
  let r := coalesce_ptr (p0 + total (pre ++ [pb])) pb in
  let n := coalesce_size pb sz post in
  In (if snd pb && snd (next_block post) then t
      else if (r <? t) && (t <? r + n) then r else t)
     (map fst (located p0 (coalesce_blocks pre pb sz post))).
Proof.
  intros Hl Ht r n.
  assert (Hr : In r (map fst (located p0 (coalesce_blocks pre pb sz post)))).
  { exact (in_map fst _ _ (coalesce_blocks_result pre pb sz post p0)). }
  destruct (snd pb && snd (next_block post)) eqn:Eb.
  { apply andb_true_iff in Eb. destruct Eb as (Ea & Eb).
    rewrite coalesce_blocks_same by assumption. exact Ht. }
  destruct ((r <? t) && (t <? r + n)) eqn:Ein; [exact Hr|].
  apply coalesce_blocks_positions in Ht. destruct Ht as [Ht | Ht]; [exact Ht|].
  exfalso.
  apply Forall_app in Hl. destruct Hl as (_ & Hl).
  inversion Hl as [|? ? Hp8 Hl']; subst. inversion Hl' as [|? ? Hs8 Hl3]; subst.
  cbn [fst] in *.
  assert (Hn : snd (next_block post) = false -> 8 <= fst (next_block post)).
  { destruct post as [|c post]; simpl; [discriminate|].
    inversion Hl3; subst. intros _. assumption. }
  assert (Hin : r < t < r + n).
  { subst r n. unfold coalesce_ptr, coalesce_size.
    rewrite total_app in *. cbn [total fst] in *.
    destruct Ht as [(Ea & ->) | (Ea & ->)]; rewrite Ea in *.
    - destruct (snd (next_block post)); [lia|]. specialize (Hn eq_refl). lia.
    - specialize (Hn eq_refl). destruct (snd pb); lia. }
  apply andb_false_iff in Ein.
  destruct Ein as [E | E]; apply Z.ltb_ge in E; lia.
Qed.

Lemma put_mem s ptr csize adj :
  READ (mem s) (HEAD ptr) = tag csize false ->
  0 <= csize < UINT_MOD -> csize mod 8 = 0 ->
  8 <= adj <= csize -> adj mod 8 = 0 ->
  let m' := mem (put w s ptr adj) in
  put w s ptr adj = set_mem s m'
  /\ (if 2 * DWORD <=? csize - adj
      then READ m' (HEAD ptr) = tag adj true
           /\ READ m' (ptr + adj - DWORD) = tag adj true
           /\ READ m' (HEAD (ptr + adj)) = tag (csize - adj) false
           /\ READ m' (ptr + csize - DWORD) = tag (csize - adj) false
           /\ (forall x, ~ (ptr - 4 <= x < ptr) -> ~ (ptr + adj - 8 <= x < ptr + adj) ->
                         ~ (ptr + csize - 8 <= x < ptr + csize - 4) ->
                         m' x = mem s x)
      else READ m' (HEAD ptr) = tag csize true
           /\ READ m' (ptr + csize - DWORD) = tag csize true
           /\ (forall x, ~ (ptr - 4 <= x < ptr) ->
                         ~ (ptr + csize - 8 <= x < ptr + csize - 4) ->
                         m' x = mem s x)).
Proof.
  intros Hh Hc Hcm Ha Ham m'. subst m'.
  set (m := mem s) in *.
  assert (Gc : GET_SIZE m (HEAD ptr) = csize)
    by (apply (GET_SIZE_tag _ _ _ false); assumption).
  unfold put. fold m. rewrite Gc.
  rewrite wrap_small by lia.
  destruct (2 * DWORD <=? csize - adj) eqn:E.
  - apply Z.leb_le in E. unfold DWORD in E.
    change (HF adj 1) with (tag adj true).
    change (HF (csize - adj) 0) with (tag (csize - adj) false).
    set (m1 := WRITE m (HEAD ptr) (tag adj true)).
    assert (R1 : READ m1 (HEAD ptr) = tag adj true)
      by (apply READ_WRITE_tag; [lia | assumption]).
    assert (F1 : FOOT m1 ptr = ptr + adj - DWORD).
    { unfold FOOT. rewrite (GET_SIZE_tag m1 _ adj true); [reflexivity | lia | assumption | exact R1]. }
    rewrite F1. set (m2 := WRITE m1 (ptr + adj - DWORD) (tag adj true)).
    assert (R2 : READ m2 (HEAD ptr) = tag adj true).
    { unfold m2. rewrite READ_WRITE_other by (unfold HEAD, HFSIZE, DWORD; lia). exact R1. }
    assert (N2 : NEXT m2 ptr = ptr + adj).
    { unfold NEXT. fold (HEAD ptr).
      rewrite (GET_SIZE_tag m2 _ adj true); [reflexivity | lia | assumption | exact R2]. }
    rewrite N2. set (m3 := WRITE m2 (HEAD (ptr + adj)) (tag (csize - adj) false)).
    assert (Rm : (csize - adj) mod 8 = 0) by (apply mod8_sub; assumption).
    assert (R3 : READ m3 (HEAD (ptr + adj)) = tag (csize - adj) false)
      by (apply READ_WRITE_tag; [lia | assumption]).
    assert (F3 : FOOT m3 (ptr + adj) = ptr + csize - DWORD).
    { unfold FOOT. rewrite (GET_SIZE_tag m3 _ (csize - adj) false);
        [lia | lia | assumption | exact R3]. }
    rewrite F3. set (m4 := WRITE m3 (ptr + csize - DWORD) (tag (csize - adj) false)).
    split; [reflexivity|]. cbn [mem set_mem].
    split; [|split; [|split; [|split]]].
    + unfold m4, m3. rewrite !READ_WRITE_other by (unfold HEAD, HFSIZE, DWORD; lia). exact R2.
    + unfold m4, m3. rewrite !READ_WRITE_other by (unfold HEAD, HFSIZE, DWORD; lia).
      unfold m2. apply READ_WRITE_tag; [lia | assumption].
    + unfold m4. rewrite !READ_WRITE_other by (unfold HEAD, HFSIZE, DWORD; lia). exact R3.
    + unfold m4. apply READ_WRITE_tag; [lia | assumption].
    + intros x H1 H2 H3. unfold m4, m3, m2, m1.
      rewrite !WRITE_other by (unfold HEAD, HFSIZE, DWORD; lia). reflexivity.
  - apply Z.leb_gt in E. unfold DWORD in E.
    change (HF csize 1) with (tag csize true).
    set (m1 := WRITE m (HEAD ptr) (tag csize true)).
    assert (R1 : READ m1 (HEAD ptr) = tag csize true)
      by (apply READ_WRITE_tag; [lia | assumption]).
    assert (F1 : FOOT m1 ptr = ptr + csize - DWORD).
    { unfold FOOT. rewrite (GET_SIZE_tag m1 _ csize true); [reflexivity | lia | assumption | exact R1]. }
    rewrite F1. set (m2 := WRITE m1 (ptr + csize - DWORD) (tag csize true)).
    split; [reflexivity|]. cbn [mem set_mem].
    split; [|split].
    + unfold m2. rewrite READ_WRITE_other by (unfold HEAD, HFSIZE, DWORD; lia). exact R1.
    + unfold m2. apply READ_WRITE_tag; [lia | assumption].
    + intros x H1 H2. unfold m2, m1.
      rewrite !WRITE_other by (unfold HEAD, HFSIZE, DWORD; lia). reflexivity.
Qed.


Lemma put_layout s p0 pre csize post q adj :
  layout (mem s) p0 (pre ++ (csize, false) :: post) q ->
  READ (mem s) (HEAD q) = tag 0 true ->
  q - p0 < UINT_MOD ->
  8 <= adj <= csize -> adj mod 8 = 0 ->
  let s' := put w s (p0 + total pre) adj in
  s' = set_mem s (mem s')
  /\ layout (mem s') p0 (pre ++ put_blocks csize adj ++ post) q
  /\ READ (mem s') (HEAD q) = tag 0 true.
Proof.
  intros Hl Hend Hlt Ha Ham s'.
  apply layout_app in Hl. destruct Hl as (Hpre & Hcur).
  pose proof Hcur as Hcur0.
  destruct Hcur as (H8 & Hm & (Hh & Hf) & Hpost). cbn [fst snd] in *.
  pose proof (layout_nonneg _ _ _ _ Hpre) as Npre.
  pose proof (layout_total _ _ _ _ Hpost) as Tpost.
  pose proof (layout_nonneg _ _ _ _ Hpost) as Npost.
  set (ptr := p0 + total pre) in *.
  destruct (put_mem s ptr csize adj Hh) as (Eq & Hput); try assumption; [lia|].
  fold s' in Eq, Hput. split; [exact Eq|].
  unfold put_blocks. destruct (2 * DWORD <=? csize - adj) eqn:E.
  - apply Z.leb_le in E. unfold DWORD in E.
    destruct Hput as (R1 & R2 & R3 & R4 & Hframe).
    split.
    + apply layout_app. fold ptr. split.
      * apply (layout_ext (mem s)); [|exact Hpre]. intros x Hx. apply Hframe; lia.
      * cbn [app layout fst snd tagged].
        replace (ptr + adj + (csize - adj)) with (ptr + csize) by lia.
        split; [lia|]. split; [exact Ham|]. split; [split; [exact R1 | exact R2]|].
        split; [lia|]. split; [apply mod8_sub; assumption|].
        split; [split; [exact R3|]|].
        { cbn [fst snd]. replace (ptr + adj + (csize - adj) - DWORD)
            with (ptr + csize - DWORD) by lia. exact R4. }
        cbn [fst snd]. replace (ptr + adj + (csize - adj)) with (ptr + csize) by lia.
        apply (layout_ext (mem s)); [|exact Hpost]. intros x Hx. apply Hframe; lia.
    + rewrite <- Hend. apply READ_ext. intros x Hx.
      apply Hframe; unfold HEAD, HFSIZE in *; lia.
  - apply Z.leb_gt in E. unfold DWORD in E.
    destruct Hput as (R1 & R2 & Hframe).
    split.
    + apply layout_app. fold ptr. split.
      * apply (layout_ext (mem s)); [|exact Hpre]. intros x Hx. apply Hframe; lia.
      * cbn [app layout fst snd tagged].
        split; [lia|]. split; [exact Hm|]. split; [split; [exact R1 | exact R2]|].
        apply (layout_ext (mem s)); [|exact Hpost]. intros x Hx. apply Hframe; lia.
    + rewrite <- Hend. apply READ_ext. intros x Hx.
      apply Hframe; unfold HEAD, HFSIZE in *; lia.
Qed.

Lemma put_blocks_total csize adj : total (put_blocks csize adj) = csize.
Proof. unfold put_blocks. destruct (2 * DWORD <=? csize - adj); simpl; lia. Qed.

Lemma put_blocks_adjacent pre csize adj post :
  adjacent_free (pre ++ (csize, false) :: post) = false ->
  adjacent_free (pre ++ put_blocks csize adj ++ post) = false.
Proof.
  intros H. apply adjacent_free_mid_free in H. destruct H as (H1 & H2 & H3 & H4).
  unfold put_blocks. destruct (2 * DWORD <=? csize - adj).
  - cbn [app]. apply adjacent_free_mid_alloc. split; [exact H1|].
    apply (adjacent_free_mid_free [] _ post). repeat split; assumption.
  - cbn [app]. apply adjacent_free_mid_alloc. split; assumption.
Qed.

Lemma put_blocks_keeps pre csize adj post p0 x b :
  In (x, b) (located p0 (pre ++ (csize, false) :: post)) ->
  snd b = true ->
  In (x, b) (located p0 (pre ++ put_blocks csize adj ++ post)).
Proof.
  rewrite !located_app. cbn [located fst]. intros H Hb.
  apply in_app_or in H. apply in_or_app.
  destruct H as [H | [H | H]].
  - left. exact H.
  - inversion H; subst. discriminate.
  - right. apply in_or_app. right. rewrite put_blocks_total. exact H.
Qed.

Lemma put_blocks_positions pre csize adj post p0 t :
  In t (map fst (located p0 (pre ++ (csize, false) :: post))) ->
  In t (map fst (located p0 (pre ++ put_blocks csize adj ++ post))).
Proof.
  rewrite !located_app, !map_app. cbn [located fst map]. intros H.
  apply in_app_or in H. apply in_or_app.
  destruct H as [H | [H | H]].
  - left. exact H.
  - right. apply in_or_app. left. subst t.
    unfold put_blocks. destruct (2 * DWORD <=? csize - adj); left; reflexivity.
  - right. apply in_or_app. right. rewrite put_blocks_total. exact H.
Qed.

Lemma put_blocks_result pre csize adj post p0 :
  16 <= adj <= csize ->
  exists sz, In (p0 + total pre, (sz, true)) (located p0 (pre ++ put_blocks csize adj ++ post))
             /\ adj <= sz.
Proof.
  intros Ha. unfold put_blocks. destruct (2 * DWORD <=? csize - adj).
  - exists adj. split; [apply located_mid | lia].
  - exists csize. split; [apply located_mid | lia].
Qed.


Lemma fit_to_end_layout m adj c2 :
  forall fuel t q,
    layout m t c2 q -> READ m (HEAD q) = tag 0 true -> q - t < UINT_MOD ->
    (length c2 < fuel)%nat ->
    fit_to_end fuel m adj t = Some (scan_result (first_fit adj t c2) q).
Proof.
  induction c2 as [|[sz a] c2 IH]; intros fuel t q Hl Hend Hlt Hfuel.
  - simpl in Hl. subst t. destruct fuel as [|fuel]; [simpl in Hfuel; lia|].
    simpl. rewrite (GET_SIZE_tag m _ 0 true); [reflexivity | | reflexivity | exact Hend].
    unfold UINT_MOD. change (2 ^ 32) with 4294967296. lia.
  - destruct fuel as [|fuel]; [simpl in Hfuel; lia|].
    destruct Hl as (H8 & Hm & (Hh & _) & Hl). cbn [fst snd] in *.
    pose proof (layout_total _ _ _ _ Hl). pose proof (layout_nonneg _ _ _ _ Hl).
    assert (G : GET_SIZE m (HEAD t) = sz)
      by (apply (GET_SIZE_tag _ _ _ a); [lia | assumption | assumption]).
    assert (A : GET_ALLOC m (HEAD t) = if a then 1 else 0)
      by (apply (GET_ALLOC_tag _ _ sz); [lia | assumption | assumption]).
    cbn [fit_to_end first_fit fst snd]. rewrite G, A.
    replace (0 <? sz) with true by (symmetry; apply Z.ltb_lt; lia).
    replace ((if a then 1 else 0) =? 0) with (negb a) by (destruct a; reflexivity).
    destruct (negb a && (adj <=? sz)); [reflexivity|].
    assert (N : NEXT m t = t + sz) by (unfold NEXT; fold (HEAD t); rewrite G; reflexivity).
    rewrite N. apply IH; try assumption; [lia | simpl in Hfuel; lia].
Qed.

Lemma fit_from_start_layout m adj c1 :
  forall fuel p o,
    layout m p c1 o -> o - p < UINT_MOD ->
    (length c1 < fuel)%nat ->
    fit_from_start fuel m adj o p = Some (scan_result (first_fit adj p c1) o).
Proof.
  induction c1 as [|[sz a] c1 IH]; intros fuel p o Hl Hlt Hfuel.
  - simpl in Hl. subst p. destruct fuel as [|fuel]; [simpl in Hfuel; lia|].
    simpl. rewrite Z.ltb_irrefl. reflexivity.
  - destruct fuel as [|fuel]; [simpl in Hfuel; lia|].
    destruct Hl as (H8 & Hm & (Hh & _) & Hl). cbn [fst snd] in *.
    pose proof (layout_total _ _ _ _ Hl). pose proof (layout_nonneg _ _ _ _ Hl).
    assert (G : GET_SIZE m (HEAD p) = sz)
      by (apply (GET_SIZE_tag _ _ _ a); [lia | assumption | assumption]).
    assert (A : GET_ALLOC m (HEAD p) = if a then 1 else 0)
      by (apply (GET_ALLOC_tag _ _ sz); [lia | assumption | assumption]).
    cbn [fit_from_start first_fit fst snd]. rewrite G, A.
    replace (p <? o) with true by (symmetry; apply Z.ltb_lt; lia).
    replace ((if a then 1 else 0) =? 0) with (negb a) by (destruct a; reflexivity).
    destruct (negb a && (adj <=? sz)); [reflexivity|].
    assert (N : NEXT m p = p + sz) by (unfold NEXT; fold (HEAD p); rewrite G; reflexivity).
    rewrite N. apply IH; try assumption; [lia | simpl in Hfuel; lia].
Qed.

Lemma fit_layout s adj c1 c2 fuel :
  layout (mem s) (heapL s) (c1 ++ c2) (mem_brk s) ->
  READ (mem s) (HEAD (mem_brk s)) = tag 0 true ->
  mem_brk s - heapL s < UINT_MOD ->
  trav s = heapL s + total c1 ->
  (length (c1 ++ c2) < fuel)%nat ->
  fit fuel s adj =
  Some (match next_fit adj (heapL s) c1 c2 with
        | Some p => (set_trav s p, p)
        | None => (set_trav s (trav s), NULL)
        end).
Proof.
  intros Hl Hend Hlt Ht Hfuel.
  apply layout_app in Hl. destruct Hl as (H1 & H2).
  pose proof (layout_nonneg _ _ _ _ H1). pose proof (layout_nonneg _ _ _ _ H2).
  pose proof (layout_total _ _ _ _ H2).
  rewrite length_app in Hfuel.
  unfold fit, next_fit. rewrite Ht.
  rewrite (fit_to_end_layout _ _ c2 fuel _ (mem_brk s)); try assumption; try lia.
  destruct (first_fit adj (heapL s + total c1) c2); [reflexivity|].
  cbn [scan_result].
  rewrite (fit_from_start_layout _ _ c1 fuel); try assumption; try lia.
  destruct (first_fit adj (heapL s) c1); reflexivity.
Qed.

Lemma first_fit_some adj bs :
  forall p x,
    first_fit adj p bs = Some x ->
    exists pre sz post,
      bs = pre ++ (sz, false) :: post /\ x = p + total pre /\ adj <= sz
      /\ first_fit adj p pre = None.
Proof.
  induction bs as [|[sz a] bs IH]; intros p x H.
  - discriminate.
  - cbn [first_fit fst snd] in H.
    destruct (negb a && (adj <=? sz)) eqn:E.
    + inversion H; subst. apply andb_true_iff in E. destruct E as (Ea & Ez).
      apply Z.leb_le in Ez. destruct a; [discriminate|].
      exists [], sz, bs. simpl. repeat split; [lia | assumption].
    + apply IH in H. destruct H as (pre & sz' & post & -> & -> & Hz & Hn).
      exists ((sz, a) :: pre), sz', post. cbn [app total first_fit fst snd].
      rewrite E. repeat split; [lia | assumption | assumption].
Qed.

Lemma first_fit_none adj bs :
  forall p, first_fit adj p bs = None ->
            forall b, In b bs -> snd b = true \/ fst b < adj.
Proof.
  induction bs as [|[sz a] bs IH]; intros p H b Hb.
  - contradiction.
  - cbn [first_fit fst snd] in H.
    destruct (negb a && (adj <=? sz)) eqn:E; [discriminate|].
    destruct Hb as [<- | Hb]; [|eapply IH; eassumption].
    apply andb_false_iff in E. cbn [fst snd]. destruct E as [E | E].
    + left. destruct a; [reflexivity | discriminate].
    + right. apply Z.leb_gt in E. exact E.
Qed.


Lemma coalesce_refines s p0 pre pb sz post q :
  layout (mem s) p0 (pre ++ pb :: (sz, false) :: post) q ->
  READ (mem s) (HEAD q) = tag 0 true ->
  q - p0 < UINT_MOD ->
  let ptr := p0 + total (pre ++ [pb]) in
  let s' := fst (coalesce w s ptr) in
  snd (coalesce w s ptr) = coalesce_ptr ptr pb
  /\ layout (mem s') p0 (coalesce_blocks pre pb sz post) q
  /\ READ (mem s') (HEAD q) = tag 0 true
  /\ trav s' = coalesce_trav (trav s) ptr pb sz post
  /\ heapL s' = heapL s /\ mem_brk s' = mem_brk s
  /\ mem_max_addr s' = mem_max_addr s /\ mem_start_brk s' = mem_start_brk s.
Proof.
  intros Hl Hend Hlt ptr s'.
  change (pre ++ pb :: (sz, false) :: post)
    with (pre ++ [pb] ++ (sz, false) :: post) in Hl.
  rewrite app_assoc in Hl. apply layout_app in Hl. fold ptr in Hl.
  destruct Hl as (H1 & H2).
  destruct (coalesce_mem s ptr p0 pre pb sz post q H1 H2 Hend Hlt)
    as (Er & Rh & Rf & Hframe & Ht & Hrest).
  fold s' in Rh, Rf, Hframe, Ht, Hrest.
  destruct (coalesce_layout (mem s) (mem s') p0 pre pb sz post q H1 H2 Hend Rh Rf Hframe)
    as (L1 & L2 & _).
  repeat split; try tauto.
Qed.

Lemma even_words_size words :
  words mod 2 = 0 -> 0 <= words * HFSIZE < SIZE_MOD w ->
  (if negb (words mod 2 =? 0) then wrap w (wrap w (words + 1) * HFSIZE)
   else wrap w (words * HFSIZE)) = words * HFSIZE.
Proof.
  intros He Hr. rewrite He. cbn [Z.eqb negb]. apply Z.mod_small; assumption.
Qed.

Lemma grow_heap_fail s words :
  words mod 2 = 0 -> 0 <= words * HFSIZE < SIZE_MOD w ->
  mem_max_addr s < mem_brk s + words * HFSIZE ->
  grow_heap w s words = (s, NULL).
Proof.
  intros He Hr Hmax. unfold grow_heap. rewrite even_words_size by assumption.
  unfold mem_sbrk.
  replace (mem_brk s + words * HFSIZE <=? mem_max_addr s) with false
    by (symmetry; apply Z.leb_gt; lia).
  reflexivity.
Qed.

Lemma grow_heap_layout s p0 pre pb words :
  layout (mem s) p0 (pre ++ [pb]) (mem_brk s) ->
  READ (mem s) (HEAD (mem_brk s)) = tag 0 true ->
  0 <= p0 -> words mod 2 = 0 -> 8 <= words * HFSIZE ->
  mem_brk s + words * HFSIZE <= mem_max_addr s ->
  mem_brk s + words * HFSIZE - p0 < UINT_MOD ->
  let size := words * HFSIZE in
  let q := mem_brk s + size in
  let s' := fst (grow_heap w s words) in
  snd (grow_heap w s words) = coalesce_ptr (mem_brk s) pb
  /\ layout (mem s') p0 (coalesce_blocks pre pb size []) q
  /\ READ (mem s') (HEAD q) = tag 0 true
  /\ trav s' = coalesce_trav (trav s) (mem_brk s) pb size []
  /\ heapL s' = heapL s /\ mem_brk s' = q
  /\ mem_max_addr s' = mem_max_addr s /\ mem_start_brk s' = mem_start_brk s.
Proof.
  intros Hl Hend Hp0 He H8 Hmax Hlt size q s'.
  pose proof (layout_total _ _ _ _ Hl) as Tl.
  pose proof (layout_nonneg _ _ _ _ Hl) as Nl.
  assert (Hsz : 0 <= size < UINT_MOD) by (subst size; lia).
  assert (H8' : 8 <= size) by exact H8.
  assert (Hm8 : size mod 8 = 0).
  { subst size. unfold HFSIZE.
    rewrite (Z.div_mod words 2), He by lia.
    replace ((2 * (words / 2) + 0) * 4) with (words / 2 * 8) by lia.
    apply Z.mod_mul. lia. }
  subst s'. unfold grow_heap.
  rewrite even_words_size by (fold size; pose proof UINT_MOD_le_SIZE_MOD; lia).
  fold size. unfold mem_sbrk.
  replace (mem_brk s + size <=? mem_max_addr s) with true
    by (symmetry; apply Z.leb_le; exact Hmax).
  set (ptr := mem_brk s).
  assert (Hp : 0 <= total (pre ++ [pb])) by exact Nl.
  assert (Hpb : 8 <= total (pre ++ [pb])).
  { pose proof (layout_length _ _ _ _ Hl) as H. rewrite length_app in H.
    simpl length in H. lia. }
  replace (ptr =? -1) with false by (symmetry; apply Z.eqb_neq; subst ptr; lia).
  cbn [mem].
  change (HF size 0) with (tag size false). change (HF 0 1) with (tag 0 true).
  set (m := mem s) in *.
  set (m1 := WRITE m (HEAD ptr) (tag size false)).
  assert (R1 : READ m1 (HEAD ptr) = tag size false)
    by (apply READ_WRITE_tag; assumption).
  assert (F1 : FOOT m1 ptr = ptr + size - DWORD).
  { unfold FOOT. rewrite (GET_SIZE_tag m1 _ size false); [reflexivity | | |]; assumption. }
  rewrite F1. set (m2 := WRITE m1 (ptr + size - DWORD) (tag size false)).
  assert (R2 : READ m2 (HEAD ptr) = tag size false).
  { unfold m2. rewrite READ_WRITE_other by (unfold HEAD, HFSIZE, DWORD in *; lia). exact R1. }
  assert (N2 : NEXT m2 ptr = ptr + size).
  { unfold NEXT. fold (HEAD ptr).
    rewrite (GET_SIZE_tag m2 _ size false); [reflexivity | | |]; assumption. }
  rewrite N2. set (m3 := WRITE m2 (HEAD (ptr + size)) (tag 0 true)).
  set (s1 := set_mem _ m3).
  assert (L3 : layout (mem s1) p0 (pre ++ pb :: (size, false) :: []) q).
  { change (pre ++ pb :: (size, false) :: []) with (pre ++ [pb] ++ [(size, false)]).
    rewrite app_assoc. apply layout_app. rewrite <- Tl. fold ptr. split.
    - apply (layout_ext m); [|exact Hl]. intros x Hx. unfold s1, m3, m2, m1. cbn [mem set_mem].
      repeat (rewrite WRITE_other by (unfold HEAD, HFSIZE, DWORD in *; lia)).
      reflexivity.
    - cbn [layout fst snd tagged]. split; [exact H8'|]. split; [exact Hm8|].
      split; [split|reflexivity].
      + unfold s1, m3. cbn [mem set_mem].
        rewrite READ_WRITE_other by (unfold HEAD, HFSIZE, DWORD in *; lia). exact R2.
      + unfold s1, m3. cbn [mem set_mem fst snd].
        rewrite READ_WRITE_other by (unfold HEAD, HFSIZE, DWORD in *; lia).
        unfold m2. apply READ_WRITE_tag; assumption. }
  assert (E3 : READ (mem s1) (HEAD q) = tag 0 true).
  { unfold s1, m3. cbn [mem set_mem]. apply READ_WRITE_tag; [|reflexivity].
    unfold UINT_MOD. change (2 ^ 32) with 4294967296. lia. }
  pose proof (coalesce_refines s1 p0 pre pb size [] q L3 E3 Hlt) as H.
  cbv zeta in H. rewrite <- Tl in H. fold ptr in H.
  destruct H as (A1 & A2 & A3 & A4 & A5 & A6 & A7 & A8).
  repeat split; assumption.
Qed.


(** ** The heap invariant *)

Lemma heap_ok_intro s ch :
  (0 <= mem_start_brk s /\ mem_start_brk s mod 8 = 0) ->
  heapL s = mem_start_brk s + 8 ->
  (exists bs, ch = (8, true) :: bs) ->
  layout (mem s) (heapL s) ch (mem_brk s) ->
  READ (mem s) (HEAD (mem_brk s)) = tag 0 true ->
  (mem_brk s <= mem_max_addr s /\ mem_max_addr s - mem_start_brk s < UINT_MOD) ->
  adjacent_free ch = false ->
  In (trav s) (map fst (located (heapL s) ch)) ->
  heap_ok s ch.
Proof. intros. constructor; [constructor|]; assumption. Qed.

Lemma ok_start s ch : heap_ok s ch -> 0 <= mem_start_brk s /\ mem_start_brk s mod 8 = 0.
Proof. intros H. exact (sh_start _ _ (ok_shape _ _ H)). Qed.
Lemma ok_heapL s ch : heap_ok s ch -> heapL s = mem_start_brk s + 8.
Proof. intros H. exact (sh_heapL _ _ (ok_shape _ _ H)). Qed.
Lemma ok_first s ch : heap_ok s ch -> exists bs, ch = (8, true) :: bs.
Proof. intros H. exact (sh_first _ _ (ok_shape _ _ H)). Qed.
Lemma ok_layout s ch : heap_ok s ch -> layout (mem s) (heapL s) ch (mem_brk s).
Proof. intros H. exact (sh_layout _ _ (ok_shape _ _ H)). Qed.
Lemma ok_end s ch : heap_ok s ch -> READ (mem s) (HEAD (mem_brk s)) = tag 0 true.
Proof. intros H. exact (sh_end _ _ (ok_shape _ _ H)). Qed.
Lemma ok_max s ch :
  heap_ok s ch ->
  mem_brk s <= mem_max_addr s /\ mem_max_addr s - mem_start_brk s < UINT_MOD.
Proof. intros H. exact (sh_max _ _ (ok_shape _ _ H)). Qed.
Lemma ok_trav s ch : heap_ok s ch -> In (trav s) (map fst (located (heapL s) ch)).
Proof. intros H. exact (sh_trav _ _ (ok_shape _ _ H)). Qed.

Lemma set_trav_id s : set_trav s (trav s) = s.
Proof. destruct s. reflexivity. Qed.

Lemma bound_total s ch :
  heap_ok s ch -> mem_brk s - heapL s < UINT_MOD /\ 0 < heapL s.
Proof.
  intros H. destruct (ok_start _ _ H). pose proof (ok_heapL _ _ H).
  destruct (ok_max _ _ H). lia.
Qed.

Lemma chain_snoc ch :
  (exists bs, ch = (8, true) :: bs) -> exists pre pb, ch = pre ++ [pb].
Proof.
  intros (bs & ->).
  destruct (exists_last (l := (8, true) :: bs)) as (pre & pb & E); [discriminate|].
  exists pre, pb. exact E.
Qed.

(** [mm_init] on a fresh state builds a heap, whether the first growth
    succeeds or not. *)
Lemma mm_init_ok s :
  fresh s ->
  let s' := fst (mm_init w s) in
  exists ch, heap_ok s' ch /\ trav s' = heapL s'
             /\ mem_start_brk s' = mem_start_brk s
             /\ mem_max_addr s' = mem_max_addr s
             /\ (ch = [(8, true)] \/ ch = [(8, true); (CHUNKSIZE, false)])
             /\ (mem_start_brk s + 4 * HFSIZE + CHUNKSIZE <= mem_max_addr s ->
                 ch = [(8, true); (CHUNKSIZE, false)]).
Proof.
  intros (Hh & Hb & H0 & H8 & Hroom & Hmax) s'. subst s'.
  unfold mm_init, mem_sbrk.
  replace (mem_brk s + 4 * HFSIZE <=? mem_max_addr s) with true
    by (symmetry; apply Z.leb_le; lia).
  cbn [set_heapL heapL mem]. rewrite Hb.
  set (b := mem_start_brk s) in *.
  replace (b =? -1) with false by (symmetry; apply Z.eqb_neq; lia).
  unfold set_trav, set_heapL, set_mem.
  cbn [heapL mem mem_start_brk mem_brk mem_max_addr trav].
  change (HF DWORD 1) with (tag 8 true). change (HF 0 1) with (tag 0 true).
  set (m4 := WRITE _ (b + 3 * HFSIZE) _).
  set (s4 := mkState m4 b (b + 4 * HFSIZE) (mem_max_addr s) (b + 2 * HFSIZE) (b + 2 * HFSIZE)).
  assert (R1 : READ m4 (b + 4) = tag 8 true).
  { unfold m4. repeat (rewrite READ_WRITE_other by (unfold HFSIZE; lia)).
    unfold HFSIZE. replace (b + 1 * 4) with (b + 4) by lia.
    apply READ_WRITE_tag; [unfold UINT_MOD; change (2 ^ 32) with 4294967296; lia | reflexivity]. }
  assert (R2 : READ m4 (b + 8) = tag 8 true).
  { unfold m4. repeat (rewrite READ_WRITE_other by (unfold HFSIZE; lia)).
    unfold HFSIZE. replace (b + 2 * 4) with (b + 8) by lia.
    apply READ_WRITE_tag; [unfold UINT_MOD; change (2 ^ 32) with 4294967296; lia | reflexivity]. }
  assert (R3 : READ m4 (b + 12) = tag 0 true).
  { unfold m4. unfold HFSIZE. replace (b + 3 * 4) with (b + 12) by lia.
    apply READ_WRITE_tag; [unfold UINT_MOD; change (2 ^ 32) with 4294967296; lia | reflexivity]. }
  assert (L4 : layout (mem s4) (b + 8) ([] ++ [(8, true)]) (mem_brk s4)).
  { cbn [app layout mem mem_brk s4]. unfold tagged. cbn [fst snd].
    unfold HEAD, HFSIZE, DWORD.
    replace (b + 8 - 4) with (b + 4) by lia. replace (b + 8 + 8 - 8) with (b + 8) by lia.
    repeat split; try assumption; try lia; try reflexivity. }
  assert (E4 : READ (mem s4) (HEAD (mem_brk s4)) = tag 0 true).
  { cbn [mem mem_brk s4]. unfold HEAD, HFSIZE. replace (b + 4 * 4 - 4) with (b + 12) by lia.
    exact R3. }
  assert (W : CHUNKSIZE / HFSIZE = 1024) by reflexivity.
  rewrite W.
  destruct (Z_le_gt_dec (mem_brk s4 + 1024 * HFSIZE) (mem_max_addr s4)) as [Hfit | Hfull].
  - (* the first growth succeeds *)
    assert (Hfit' : b + 16 + 4096 <= mem_max_addr s)
      by (unfold s4, HFSIZE in Hfit; cbn [mem_brk mem_max_addr] in Hfit; lia).
    pose proof (grow_heap_layout s4 (b + 8) [] (8, true) 1024 L4 E4) as G.
    cbv zeta in G.
    destruct G as (G1 & G2 & G3 & G4 & G5 & G6 & G7 & G8);
      try (cbn [mem_brk mem_max_addr s4] in *; unfold HFSIZE in *; lia);
      [reflexivity|].
    destruct (grow_heap w s4 1024) as (s5, r) eqn:Eg.
    cbn [fst snd] in *.
    assert (r <> NULL).
    { rewrite G1. unfold coalesce_ptr, NULL. cbn [snd mem_brk s4]. unfold HFSIZE. lia. }
    replace (r =? NULL) with false by (symmetry; apply Z.eqb_neq; assumption).
    cbn [fst]. exists [(8, true); (CHUNKSIZE, false)].
    assert (Ech : coalesce_blocks [] (8, true) (1024 * HFSIZE) []
                  = [(8, true); (CHUNKSIZE, false)]) by reflexivity.
    rewrite Ech in G2. cbn [heapL s4] in G5. cbn [mem_brk s4] in G6, G3, G2.
    cbn [mem_max_addr s4] in G7. cbn [mem_start_brk s4] in G8.
    assert (Et : trav s5 = b + 2 * HFSIZE).
    { rewrite G4. unfold coalesce_trav. reflexivity. }
    split; [|split; [|split; [|split; [|split]]]]; [| | | | |reflexivity].
    + apply heap_ok_intro.
      * rewrite G8. split; assumption.
      * rewrite G5, G8. unfold HFSIZE. lia.
      * eexists. reflexivity.
      * rewrite G5, G6. unfold HFSIZE in *. replace (b + 2 * 4) with (b + 8) by lia. exact G2.
      * rewrite G6. exact G3.
      * rewrite G6, G7, G8. unfold HFSIZE in *. split; [lia | assumption].
      * reflexivity.
      * rewrite Et, G5. left. reflexivity.
    + rewrite Et, G5. reflexivity.
    + exact G8.
    + exact G7.
    + right. reflexivity.
  - (* the provider has no room for the first chunk *)
    rewrite grow_heap_fail;
      [| reflexivity
       | unfold HFSIZE; pose proof UINT_MOD_le_SIZE_MOD; unfold UINT_MOD in *;
         change (2 ^ 32) with 4294967296 in *; lia
       | fold s4; lia].
    cbn [Z.eqb NULL fst]. fold s4. exists [(8, true)].
    split; [|split; [|split; [|split; [|split]]]]; try reflexivity; [|left; reflexivity|].
    2:{ intros Hroom'. exfalso. unfold s4 in Hfull.
        cbn [mem_brk mem_max_addr] in Hfull. change CHUNKSIZE with 4096 in Hroom'.
        unfold HFSIZE in *. lia. }
    apply heap_ok_intro; cbn [s4 mem_start_brk heapL mem_brk mem_max_addr trav mem].
    + split; assumption.
    + unfold HFSIZE. lia.
    + eexists. reflexivity.
    + replace (b + 2 * HFSIZE) with (b + 8) by (unfold HFSIZE; lia). exact L4.
    + exact E4.
    + unfold HFSIZE in *. split; [lia | assumption].
    + reflexivity.
    + left. reflexivity.
Qed.

(** *** The adjusted size *)

Lemma adj_size_range size :
  0 < size <= SIZE_MAX w - 15 ->
  2 * DWORD <= adj_size w size /\ adj_size w size mod 8 = 0
  /\ size + DWORD <= adj_size w size /\ adj_size w size < SIZE_MOD w
  /\ adj_size w size <= size + 15.
Proof.
  intros Hs. unfold SIZE_MAX in Hs. pose proof UINT_MOD_le_SIZE_MOD as Hle.
  unfold UINT_MOD in Hle. change (2 ^ 32) with 4294967296 in Hle.
  unfold adj_size, DWORD. destruct (size <=? 8) eqn:E.
  - apply Z.leb_le in E. repeat split; try reflexivity; lia.
  - apply Z.leb_gt in E.
    replace (size + 8 + (8 - 1)) with (size + 15) by lia.
    unfold wrap. rewrite (Z.mod_small (size + 15)) by lia.
    pose proof (Z.div_mod (size + 15) 8). pose proof (Z.mod_pos_bound (size + 15) 8).
    rewrite (Z.mod_small (8 * _)) by lia.
    repeat split; try lia.
    rewrite Z.mul_comm. apply Z.mod_mul. lia.
Qed.

Lemma growsize_words adj :
  0 <= adj -> adj mod 8 = 0 ->
  let words := growsize adj / HFSIZE in
  words mod 2 = 0 /\ words * HFSIZE = growsize adj
  /\ adj <= growsize adj /\ CHUNKSIZE <= growsize adj.
Proof.
  intros H0 H8 words. subst words. unfold growsize, HFSIZE.
  change CHUNKSIZE with 4096.
  destruct (4096 <? adj) eqn:E; [apply Z.ltb_lt in E | apply Z.ltb_ge in E].
  - assert (Ek : adj = 2 * (adj / 8) * 4) by (pose proof (Z.div_mod adj 8); lia).
    rewrite Ek at 1 2. rewrite Z.div_mul by lia.
    split; [rewrite Z.mul_comm; apply Z.mod_mul; lia|]. lia.
  - change (4096 / 4) with 1024. repeat split; try reflexivity; lia.
Qed.

(** *** Searching *)

Lemma next_fit_some adj p0 c1 c2 p :
  next_fit adj p0 c1 c2 = Some p ->
  exists pre sz post,
    c1 ++ c2 = pre ++ (sz, false) :: post /\ p = p0 + total pre /\ adj <= sz.
Proof.
  unfold next_fit. destruct (first_fit adj (p0 + total c1) c2) as [x|] eqn:E.
  - intros H. inversion H; subst x.
    apply first_fit_some in E. destruct E as (pre & sz & post & -> & -> & Hz & _).
    exists (c1 ++ pre), sz, post. rewrite total_app, <- app_assoc.
    repeat split; [lia | assumption].
  - intros H. apply first_fit_some in H.
    destruct H as (pre & sz & post & -> & -> & Hz & _).
    exists pre, sz, (post ++ c2). rewrite <- app_assoc.
    repeat split; assumption.
Qed.

Lemma chain_first (bs pre post : list block) sz :
  (8, true) :: bs = pre ++ (sz, false) :: post ->
  exists pre', pre = (8, true) :: pre'.
Proof.
  destruct pre as [|c pre]; simpl; intros H; inversion H; subst.
  exists pre. reflexivity.
Qed.

Lemma heap_ok_set_trav s ch t :
  heap_ok s ch -> In t (map fst (located (heapL s) ch)) ->
  heap_ok (set_trav s t) ch.
Proof.
  intros [[] Ha] Ht. apply heap_ok_intro; assumption.
Qed.

Lemma live_ok_set_trav s ch L t :
  live_ok s ch L -> live_ok (set_trav s t) ch L.
Proof. intros H. exact H. Qed.

(** *** Placing a request in a free block *)

Lemma place_ok s ch L pre sz post adj size :
  heap_ok s ch -> live_ok s ch L ->
  ch = pre ++ (sz, false) :: post ->
  2 * DWORD <= adj <= sz -> adj mod 8 = 0 -> 0 < size -> size + DWORD <= adj ->
  let p := heapL s + total pre in
  let s' := put w s p adj in
  heap_ok s' (pre ++ put_blocks sz adj ++ post)
  /\ live_ok s' (pre ++ put_blocks sz adj ++ post) ((p, size) :: L)
  /\ (exists bsz, In (p, (bsz, true)) (located (heapL s') (pre ++ put_blocks sz adj ++ post))
                  /\ adj <= bsz)
  /\ trav s' = trav s /\ heapL s' = heapL s /\ mem_brk s' = mem_brk s
  /\ mem_max_addr s' = mem_max_addr s /\ mem_start_brk s' = mem_start_brk s.
Proof.
  intros Hok (Hnd & Hlive) -> Hadj Ham Hsz Hroom p s'.
  pose proof (bound_total _ _ Hok) as (Hlt & Hpos).
  destruct (put_layout s (heapL s) pre sz post (mem_brk s) adj
              (ok_layout _ _ Hok) (ok_end _ _ Hok) Hlt) as (Es & Hl' & He');
    [unfold DWORD in *; lia | exact Ham |].
  fold p in Es, Hl', He'. fold s' in Es, Hl', He'.
  assert (F : trav s' = trav s /\ heapL s' = heapL s /\ mem_brk s' = mem_brk s
              /\ mem_max_addr s' = mem_max_addr s /\ mem_start_brk s' = mem_start_brk s).
  { rewrite Es. repeat split. }
  destruct F as (F1 & F2 & F3 & F4 & F5).
  assert (Hres : exists bsz, In (p, (bsz, true))
                               (located (heapL s') (pre ++ put_blocks sz adj ++ post))
                             /\ adj <= bsz).
  { rewrite F2. apply put_blocks_result. unfold DWORD in *. lia. }
  split; [|split; [|split; [exact Hres | repeat split; assumption]]].
  - apply heap_ok_intro.
    + rewrite F5. exact (ok_start _ _ Hok).
    + rewrite F2, F5. exact (ok_heapL _ _ Hok).
    + destruct (ok_first _ _ Hok) as (bs & E).
      destruct (chain_first _ _ _ _ (eq_sym E)) as (pre' & ->). eexists. reflexivity.
    + rewrite F2, F3. exact Hl'.
    + rewrite F3. exact He'.
    + rewrite F3, F4, F5. exact (ok_max _ _ Hok).
    + apply put_blocks_adjacent. exact (ok_adjacent _ _ Hok).
    + rewrite F1, F2. apply put_blocks_positions. exact (ok_trav _ _ Hok).
  - split.
    + cbn [map fst]. constructor; [|exact Hnd].
      intros Hin. apply in_map_iff in Hin. destruct Hin as ((p' & n) & Ep & Hin).
      cbn [fst] in Ep. subst p'. apply Hlive in Hin.
      destruct Hin as (_ & bsz & Hin & _).
      pose proof (located_functional _ _ _ _ _ _ _ (ok_layout _ _ Hok) Hin
                    (located_mid pre (sz, false) post (heapL s))) as E.
      discriminate.
    + intros q n [Hq | Hq].
      * inversion Hq; subst q n. split; [exact Hsz|].
        destruct Hres as (bsz & Hin & Hb). exists bsz. split; [exact Hin | lia].
      * apply Hlive in Hq. destruct Hq as (Hn & bsz & Hin & Hb).
        split; [exact Hn|]. exists bsz. split; [|exact Hb].
        rewrite F2. apply put_blocks_keeps; [exact Hin | reflexivity].
Qed.

(** *** Merging a block that has just become free *)

Lemma coalesce_blocks_first (bs pre post : list block) pb sz :
  (8, true) :: bs = pre ++ pb :: (sz, false) :: post ->
  exists bs', coalesce_blocks pre pb sz post = (8, true) :: bs'.
Proof.
  unfold coalesce_blocks. destruct pre as [|c pre]; simpl; intros H; inversion H; subst.
  - eexists. reflexivity.
  - destruct (snd pb); eexists; reflexivity.
Qed.

Lemma positions_not_inside m bs :
  forall p q x (b : block) t,
    layout m p bs q -> In (x, b) (located p bs) ->
    In t (map fst (located p bs)) -> ~ (x < t < x + fst b).
Proof.
  induction bs as [|c bs IH]; simpl; intros p q x b t Hl Hx Ht.
  - contradiction.
  - destruct Hl as (H8 & _ & _ & Hl).
    destruct Hx as [Hx | Hx]; destruct Ht as [Ht | Ht].
    + inversion Hx; subst. lia.
    + inversion Hx; subst. apply in_map_iff in Ht. destruct Ht as ((t' & b') & Et & Ht).
      cbn [fst] in Et. subst t'. pose proof (located_range _ _ _ _ _ _ Hl Ht). lia.
    + subst t. pose proof (located_range _ _ _ _ _ _ Hl Hx). lia.
    + eapply IH; eassumption.
Qed.

(** [coalesce] keeps the shape of the heap and moves the cursor out of the
    span it has merged. *)
Lemma coalesce_shape s pre pb sz post :
  heap_shape s (pre ++ pb :: (sz, false) :: post) ->
  let ptr := heapL s + total (pre ++ [pb]) in
  let r := coalesce_ptr ptr pb in
  let n := coalesce_size pb sz post in
  let s' := fst (coalesce w s ptr) in
  let ch' := coalesce_blocks pre pb sz post in
  heap_shape s' ch'
  /\ snd (coalesce w s ptr) = r
  /\ In (r, (n, false)) (located (heapL s') ch')
  /\ (r < trav s < r + n -> trav s' = r)
  /\ (~ (r < trav s < r + n) -> trav s' = trav s)
  /\ heapL s' = heapL s /\ mem_brk s' = mem_brk s
  /\ mem_max_addr s' = mem_max_addr s /\ mem_start_brk s' = mem_start_brk s.
Proof.
  intros Hsh ptr r n s' ch'.
  assert (Hlt : mem_brk s - heapL s < UINT_MOD).
  { destruct (sh_start _ _ Hsh). pose proof (sh_heapL _ _ Hsh).
    destruct (sh_max _ _ Hsh). lia. }
  destruct (coalesce_refines s (heapL s) pre pb sz post (mem_brk s)
              (sh_layout _ _ Hsh) (sh_end _ _ Hsh) Hlt)
    as (Er & Hl' & He' & Ht & F2 & F3 & F4 & F5).
  fold ptr in Er, Hl', He', Ht, F2, F3, F4, F5.
  fold s' in Hl', He', Ht, F2, F3, F4, F5. fold ch' in Hl'. fold r in Er.
  assert (Hmid : In (ptr, (sz, false))
                    (located (heapL s) (pre ++ pb :: (sz, false) :: post))).
  { change (pre ++ pb :: (sz, false) :: post) with (pre ++ [pb] ++ (sz, false) :: post).
    rewrite app_assoc. apply located_mid. }
  split; [|split; [exact Er | split; [|split; [|split; [|repeat split; assumption]]]]].
  - constructor.
    + rewrite F5. exact (sh_start _ _ Hsh).
    + rewrite F2, F5. exact (sh_heapL _ _ Hsh).
    + destruct (sh_first _ _ Hsh) as (bs & E).
      exact (coalesce_blocks_first _ _ _ _ _ (eq_sym E)).
    + rewrite F2, F3. exact Hl'.
    + rewrite F3. exact He'.
    + rewrite F3, F4, F5. exact (sh_max _ _ Hsh).
    + rewrite Ht, F2. unfold coalesce_trav. unfold ptr.
      apply coalesce_blocks_cursor; [|exact (sh_trav _ _ Hsh)].
      exact (layout_sizes _ _ _ _ (sh_layout _ _ Hsh)).
  - rewrite F2. apply coalesce_blocks_result.
  - intros Hin. rewrite Ht. unfold coalesce_trav. fold r. fold n.
    destruct (snd pb && snd (next_block post)) eqn:Eb.
    + exfalso. apply andb_true_iff in Eb. destruct Eb as (Ea & Eb).
      apply (positions_not_inside _ _ _ _ _ _ (trav s) (sh_layout _ _ Hsh) Hmid
               (sh_trav _ _ Hsh)).
      subst r n. unfold coalesce_ptr, coalesce_size in Hin. rewrite Ea, Eb in Hin.
      cbn [fst]. lia.
    + replace (r <? trav s) with true by (symmetry; apply Z.ltb_lt; lia).
      replace (trav s <? r + n) with true by (symmetry; apply Z.ltb_lt; lia).
      reflexivity.
  - intros Hout. rewrite Ht. unfold coalesce_trav. fold r. fold n.
    destruct (snd pb && snd (next_block post)); [reflexivity|].
    destruct (r <? trav s) eqn:E1; destruct (trav s <? r + n) eqn:E2;
      cbn [andb]; try reflexivity.
    apply Z.ltb_lt in E1. apply Z.ltb_lt in E2. lia.
Qed.

Lemma coalesce_ok s L pre pb sz post :
  heap_shape s (pre ++ pb :: (sz, false) :: post) ->
  adjacent_free (pre ++ pb :: (sz, true) :: post) = false ->
  live_ok s (pre ++ pb :: (sz, false) :: post) L ->
  let ptr := heapL s + total (pre ++ [pb]) in
  let s' := fst (coalesce w s ptr) in
  let ch' := coalesce_blocks pre pb sz post in
  heap_ok s' ch' /\ live_ok s' ch' L
  /\ snd (coalesce w s ptr) = coalesce_ptr ptr pb
  /\ In (coalesce_ptr ptr pb, (coalesce_size pb sz post, false))
        (located (heapL s') ch')
  /\ heapL s' = heapL s /\ mem_brk s' = mem_brk s
  /\ mem_max_addr s' = mem_max_addr s /\ mem_start_brk s' = mem_start_brk s.
Proof.
  intros Hsh Hadj (Hnd & Hlive) ptr s' ch'.
  destruct (coalesce_shape s pre pb sz post Hsh)
    as (Hsh' & Er & Hres & _ & _ & F2 & F3 & F4 & F5).
  fold ptr in Er, Hres. fold s' in Hsh', Hres, F2, F3, F4, F5. fold ch' in Hsh', Hres.
  split; [|split; [|split; [exact Er | split; [exact Hres | repeat split; assumption]]]].
  - constructor; [exact Hsh'|]. apply coalesce_blocks_adjacent. exact Hadj.
  - split; [exact Hnd|]. intros p n Hp. apply Hlive in Hp.
    destruct Hp as (Hn & bsz & Hin & Hb). split; [exact Hn|].
    exists bsz. split; [|exact Hb].
    replace (heapL s') with (heapL s) by (symmetry; exact F2).
    apply coalesce_blocks_keeps. exact Hin.
Qed.

(** *** Growing the heap *)

Lemma grow_ok s ch L words :
  heap_ok s ch -> live_ok s ch L ->
  words mod 2 = 0 -> 8 <= words * HFSIZE ->
  mem_brk s + words * HFSIZE <= mem_max_addr s ->
  let s' := fst (grow_heap w s words) in
  let r := snd (grow_heap w s words) in
  exists pre n,
    heap_ok s' (pre ++ [(n, false)]) /\ live_ok s' (pre ++ [(n, false)]) L
    /\ r = heapL s' + total pre /\ words * HFSIZE <= n
    /\ heapL s' = heapL s /\ mem_brk s' = mem_brk s + words * HFSIZE
    /\ mem_max_addr s' = mem_max_addr s /\ mem_start_brk s' = mem_start_brk s.
Proof.
  intros Hok (Hnd & Hlive) He H8 Hroom s' r.
  pose proof (bound_total _ _ Hok) as (Hlt & Hpos).
  destruct (ok_start _ _ Hok) as (Hs0 & Hs8). pose proof (ok_heapL _ _ Hok) as Hh.
  destruct (ok_max _ _ Hok) as (Hm1 & Hm2).
  destruct (chain_snoc ch (ok_first _ _ Hok)) as (pre0 & pb & ->).
  pose proof (layout_total _ _ _ _ (ok_layout _ _ Hok)) as Tl.
  pose proof (layout_last _ _ _ _ _ (ok_layout _ _ Hok)) as (_ & Hpb8 & _).
  destruct (grow_heap_layout s (heapL s) pre0 pb words
              (ok_layout _ _ Hok) (ok_end _ _ Hok))
    as (G1 & G2 & G3 & G4 & G5 & G6 & G7 & G8); try assumption; try lia.
  fold s' in G2, G3, G4, G5, G6, G7, G8. fold r in G1.
  set (size := words * HFSIZE) in *.
  exists (if snd pb then pre0 ++ [pb] else pre0), (coalesce_size pb size []).
  change ((if snd pb then pre0 ++ [pb] else pre0) ++ [(coalesce_size pb size [], false)])
    with (coalesce_blocks pre0 pb size []).
  assert (Hadj : adjacent_free (coalesce_blocks pre0 pb size []) = false).
  { apply coalesce_blocks_adjacent.
    change (pre0 ++ pb :: (size, true) :: []) with (pre0 ++ [pb] ++ (size, true) :: []).
    rewrite app_assoc. apply adjacent_free_mid_alloc.
    split; [exact (ok_adjacent _ _ Hok) | reflexivity]. }
  assert (Hsub : forall x, In x (located (heapL s) (pre0 ++ [pb])) ->
                           In x (located (heapL s) (pre0 ++ pb :: (size, false) :: []))).
  { intros x Hx.
    change (pre0 ++ pb :: (size, false) :: []) with (pre0 ++ [pb] ++ [(size, false)]).
    rewrite app_assoc, located_app. apply in_or_app. left. exact Hx. }
  split; [|split; [|split; [|split; [|repeat split; assumption]]]].
  - apply heap_ok_intro.
    + rewrite G8. split; assumption.
    + rewrite G5, G8. exact Hh.
    + destruct (ok_first _ _ Hok) as (bs & E).
      apply (coalesce_blocks_first (bs ++ [(size, false)])).
      change (pre0 ++ pb :: (size, false) :: []) with (pre0 ++ [pb] ++ [(size, false)]).
      rewrite app_assoc, E. reflexivity.
    + rewrite G5, G6. exact G2.
    + rewrite G6. exact G3.
    + rewrite G6, G7, G8. split; [exact Hroom | exact Hm2].
    + exact Hadj.
    + rewrite G4, G5. unfold coalesce_trav. rewrite Tl.
      apply coalesce_blocks_cursor.
      * change (pre0 ++ pb :: (size, false) :: []) with (pre0 ++ [pb] ++ [(size, false)]).
        rewrite app_assoc. apply Forall_app. split.
        -- exact (layout_sizes _ _ _ _ (ok_layout _ _ Hok)).
        -- constructor; [exact H8 | constructor].
      * pose proof (ok_trav _ _ Hok) as Ht. apply in_map_iff in Ht.
        destruct Ht as (x & Ex & Hx). rewrite <- Ex. apply in_map. apply Hsub. exact Hx.
  - split; [exact Hnd|]. intros p n Hp. apply Hlive in Hp.
    destruct Hp as (Hn & bsz & Hin & Hb). split; [exact Hn|].
    exists bsz. split; [|exact Hb]. rewrite G5.
    apply coalesce_blocks_keeps. apply Hsub. exact Hin.
  - rewrite G1, G5, Tl. unfold coalesce_ptr. rewrite total_app. cbn [total fst].
    destruct (snd pb); rewrite ?total_app; cbn [total fst]; lia.
  - unfold coalesce_size. cbn [next_block snd].
    destruct (snd pb); lia.
Qed.

(** *** [mm_malloc] on a well-formed heap *)

Lemma malloc_heap_ok s ch L size fuel :
  heap_ok s ch -> live_ok s ch L ->
  0 < size <= SIZE_MAX w - 15 ->
  (length ch < fuel)%nat ->
  exists s' p ch',
    mm_malloc w fuel s size = Some (s', p)
    /\ heap_ok s' ch' /\ live_ok s' ch' (if p =? NULL then L else (p, size) :: L)
    /\ (p <> NULL ->
        exists bsz, In (p, (bsz, true)) (located (heapL s') ch')
                    /\ adj_size w size <= bsz)
    /\ (p = NULL -> mem s' = mem s /\ mem_brk s' = mem_brk s)
    /\ heapL s' = heapL s /\ mem_start_brk s' = mem_start_brk s
    /\ mem_max_addr s' = mem_max_addr s.
Proof.
  intros Hok Hlive Hsize Hfuel.
  pose proof (bound_total _ _ Hok) as (Hlt & Hpos).
  destruct (adj_size_range size Hsize) as (A16 & A8 & Aroom & Amax & _).
  set (adj := adj_size w size) in *.
  unfold mm_malloc.
  replace (heapL s =? 0) with false by (symmetry; apply Z.eqb_neq; lia).
  replace (size =? 0) with false by (symmetry; apply Z.eqb_neq; lia).
  fold adj.
  (* where the cursor stands *)
  pose proof (ok_trav _ _ Hok) as Ht. apply in_map_iff in Ht.
  destruct Ht as ((t & b) & Et & Hb). cbn [fst] in Et. subst t.
  destruct (located_split _ _ _ _ Hb) as (c1 & c2 & Ech & Etrav).
  assert (Hl : layout (mem s) (heapL s) (c1 ++ b :: c2) (mem_brk s))
    by (rewrite <- Ech; exact (ok_layout _ _ Hok)).
  rewrite (fit_layout s adj c1 (b :: c2) fuel Hl (ok_end _ _ Hok) Hlt Etrav)
    by (rewrite <- Ech; exact Hfuel).
  destruct (next_fit adj (heapL s) c1 (b :: c2)) as [p|] eqn:Efit.
  - (* a block fits *)
    apply next_fit_some in Efit. destruct Efit as (pre & sz & post & E & -> & Hsz).
    rewrite <- Ech in E.
    assert (Hp : In (heapL s + total pre) (map fst (located (heapL s) ch))).
    { rewrite E. apply in_map_iff. exists (heapL s + total pre, (sz, false)).
      split; [reflexivity | apply located_mid]. }
    pose proof (layout_nonneg (mem s) pre (heapL s) (heapL s + total pre)) as Hnn.
    assert (Hne : heapL s + total pre <> NULL).
    { rewrite E in Hok. pose proof (ok_layout _ _ Hok) as Hl2.
      apply layout_app in Hl2. destruct Hl2 as (Hl2 & _). apply Hnn in Hl2.
      unfold NULL. lia. }
    assert (Hnb : (heapL s + total pre =? NULL) = false)
      by (apply Z.eqb_neq; exact Hne).
    rewrite Hnb. cbn [negb].
    pose proof (heap_ok_set_trav s ch _ Hok Hp) as Hok1.
    destruct (place_ok (set_trav s (heapL s + total pre)) ch L pre sz post adj size
                Hok1 Hlive E) as (P1 & P2 & P3 & P4 & P5 & P6 & P7 & P8);
      try assumption; try (split; assumption); try lia.
    cbn [set_trav heapL mem_brk mem_max_addr mem_start_brk trav] in *.
    eexists _, _, _. split; [reflexivity|]. rewrite Hnb.
    split; [exact P1|]. split; [exact P2|].
    split; [intros _; exact P3|].
    split; [intros Hn; contradiction|].
    repeat split; assumption.
  - (* nothing fits: grow the heap *)
    rewrite set_trav_id. change (NULL =? NULL) with true. cbn [negb].
    destruct (growsize_words adj) as (We & Wm & Wa & Wc);
      [unfold DWORD in A16; lia | exact A8 |].
    set (words := growsize adj / HFSIZE) in *.
    destruct (Z_le_gt_dec (mem_brk s + words * HFSIZE) (mem_max_addr s)) as [Hroom | Hfull].
    + destruct (grow_ok s ch L words Hok Hlive We) as
        (pre & n & G1 & G2 & G3 & G4 & G5 & G6 & G7 & G8);
        [change CHUNKSIZE with 4096 in Wc; lia | exact Hroom |].
      destruct (grow_heap w s words) as (s2, r) eqn:Eg. cbn [fst snd] in *.
      pose proof (bound_total _ _ G1) as (_ & Hpos2).
      pose proof (layout_nonneg (mem s2) pre (heapL s2) (heapL s2 + total pre)) as Hnn.
      assert (Hne : r <> NULL).
      { pose proof (ok_layout _ _ G1) as Hl2.
        apply layout_app in Hl2. destruct Hl2 as (Hl2 & _). apply Hnn in Hl2.
        unfold NULL. lia. }
      assert (Hnb : (r =? NULL) = false) by (apply Z.eqb_neq; exact Hne).
      rewrite Hnb.
      destruct (place_ok s2 (pre ++ [(n, false)]) L pre n [] adj size G1 G2 eq_refl)
        as (P1 & P2 & P3 & P4 & P5 & P6 & P7 & P8);
        try assumption; try lia.
      rewrite <- G3 in *. rewrite app_nil_r in *.
      eexists _, _, _. split; [reflexivity|]. rewrite Hnb.
      split; [exact P1|]. split; [exact P2|].
      split; [intros _; exact P3|].
      split; [intros Hn; contradiction|].
      repeat split; congruence.
    + rewrite grow_heap_fail; [| exact We | | lia].
      * change (NULL =? NULL) with true.
        eexists _, _, _. split; [reflexivity|].
        split; [exact Hok|]. split; [exact Hlive|].
        split; [intros Hn; contradiction|].
        repeat split; reflexivity.
      * rewrite Wm. unfold growsize. change CHUNKSIZE with 4096.
        pose proof UINT_MOD_le_SIZE_MOD as Hle. unfold UINT_MOD in Hle.
        change (2 ^ 32) with 4294967296 in Hle.
        unfold DWORD in A16. destruct (4096 <? adj); lia.
Qed.

(** *** [mm_free] on a well-formed heap *)

Lemma located_flip A sz a a' B p0 x (b : block) :
  In (x, b) (located p0 (A ++ (sz, a) :: B)) -> x <> p0 + total A ->
  In (x, b) (located p0 (A ++ (sz, a') :: B)).
Proof.
  rewrite !located_app. cbn [located fst]. intros H Hx.
  apply in_app_or in H. apply in_or_app. destruct H as [H | [H | H]].
  - left. exact H.
  - inversion H. congruence.
  - right. right. exact H.
Qed.

Lemma positions_flip A sz a a' B p0 :
  map fst (located p0 (A ++ (sz, a) :: B)) = map fst (located p0 (A ++ (sz, a') :: B)).
Proof. rewrite !located_app, !map_app. reflexivity. Qed.

Lemma remove_ptr_NoDup p L : NoDup (map fst L) -> NoDup (map fst (remove_ptr p L)).
Proof.
  induction L as [|e L IH]; simpl; intros H; [constructor|].
  inversion H as [|? ? Hn Hd]; subst.
  destruct (negb (fst e =? p)); simpl; [|apply IH; exact Hd].
  constructor; [|apply IH; exact Hd].
  intros Hin. apply Hn. apply in_map_iff in Hin. destruct Hin as (e' & Ee & Hin).
  apply in_map_iff. exists e'. split; [exact Ee|].
  unfold remove_ptr in Hin. apply filter_In in Hin. tauto.
Qed.

Lemma remove_ptr_In p L q n :
  In (q, n) (remove_ptr p L) <-> In (q, n) L /\ q <> p.
Proof.
  unfold remove_ptr. rewrite filter_In. cbn [fst].
  rewrite negb_true_iff, Z.eqb_neq. tauto.
Qed.

Lemma free_heap_ok s ch L p n :
  heap_ok s ch -> live_ok s ch L -> In (p, n) L ->
  let s' := mm_free w s p in
  exists ch',
    heap_ok s' ch' /\ live_ok s' ch' (remove_ptr p L)
    /\ heapL s' = heapL s /\ mem_brk s' = mem_brk s
    /\ mem_max_addr s' = mem_max_addr s /\ mem_start_brk s' = mem_start_brk s.
Proof.
  intros Hok (Hnd & Hlive) Hin s'.
  pose proof (bound_total _ _ Hok) as (Hlt & Hpos).
  destruct (Hlive _ _ Hin) as (Hn & sz & Hb & Hroom).
  destruct (located_split _ _ _ _ Hb) as (pre0 & post & Ech & Ep).
  assert (Hpre0 : pre0 <> []).
  { intros ->. destruct (ok_first _ _ Hok) as (bs & E). rewrite E in Ech.
    inversion Ech. unfold DWORD in *. lia. }
  destruct (exists_last Hpre0) as (pre & pb & ->).
  pose proof (ok_layout _ _ Hok) as Hl. rewrite Ech in Hl.
  apply layout_app in Hl. rewrite <- Ep in Hl. destruct Hl as (Hl1 & Hl2).
  pose proof (layout_nonneg _ _ _ _ Hl1) as N1.
  pose proof (layout_length _ _ _ _ Hl1) as Len1.
  rewrite length_app in Len1. cbn [length] in Len1.
  destruct Hl2 as (H8 & Hm & (Hh & Hf) & Hl3). cbn [fst snd] in *.
  pose proof (layout_total _ _ _ _ Hl3) as T3.
  pose proof (layout_nonneg _ _ _ _ Hl3) as N3.
  assert (G : GET_SIZE (mem s) (HEAD p) = sz)
    by (apply (GET_SIZE_tag _ _ _ true); [lia | assumption | assumption]).
  subst s'. unfold mm_free.
  replace (p =? 0) with false by (symmetry; apply Z.eqb_neq; lia).
  replace (heapL s =? 0) with false by (symmetry; apply Z.eqb_neq; lia).
  rewrite G. change (HF sz 0) with (tag sz false).
  set (m1 := WRITE (mem s) (HEAD p) (tag sz false)).
  assert (R1 : READ m1 (HEAD p) = tag sz false)
    by (apply READ_WRITE_tag; [lia | assumption]).
  assert (F1 : FOOT m1 p = p + sz - DWORD).
  { unfold FOOT. rewrite (GET_SIZE_tag m1 _ sz false); [reflexivity | lia | assumption | exact R1]. }
  rewrite F1. set (m2 := WRITE m1 (p + sz - DWORD) (tag sz false)).
  set (s2 := set_mem s m2).
  assert (Hagree : forall x, ~ (p - 4 <= x < p) -> ~ (p + sz - 8 <= x < p + sz - 4) ->
                             m2 x = mem s x).
  { intros x H1 H2. unfold m2, m1.
    rewrite !WRITE_other by (unfold HEAD, HFSIZE, DWORD; lia). reflexivity. }
  assert (Hsh : heap_shape s2 (pre ++ pb :: (sz, false) :: post)).
  { constructor; cbn [s2 set_mem mem mem_start_brk mem_brk mem_max_addr heapL trav].
    - exact (ok_start _ _ Hok).
    - exact (ok_heapL _ _ Hok).
    - destruct (ok_first _ _ Hok) as (bs & E). rewrite E in Ech.
      destruct pre as [|c pre]; simpl in Ech; inversion Ech; subst; eexists; reflexivity.
    - change (pre ++ pb :: (sz, false) :: post) with (pre ++ [pb] ++ (sz, false) :: post).
      rewrite app_assoc. apply layout_app. rewrite <- Ep. split.
      + apply (layout_ext (mem s)); [|exact Hl1]. intros x Hx. apply Hagree; lia.
      + cbn [layout]. unfold tagged. cbn [fst snd].
        split; [exact H8|]. split; [exact Hm|]. split; [split|].
        * unfold m2. rewrite READ_WRITE_other by (unfold HEAD, HFSIZE, DWORD; lia). exact R1.
        * unfold m2. apply READ_WRITE_tag; [lia | assumption].
        * apply (layout_ext (mem s)); [|exact Hl3]. intros x Hx. apply Hagree; lia.
    - rewrite <- (ok_end _ _ Hok). apply READ_ext. intros x Hx.
      apply Hagree; unfold HEAD, HFSIZE in *; lia.
    - exact (ok_max _ _ Hok).
    - pose proof (ok_trav _ _ Hok) as Ht. rewrite Ech in Ht.
      rewrite (positions_flip (pre ++ [pb]) sz true false) in Ht.
      rewrite <- app_assoc in Ht. exact Ht. }
  assert (Hadj : adjacent_free (pre ++ pb :: (sz, true) :: post) = false).
  { pose proof (ok_adjacent _ _ Hok) as Ha. rewrite Ech, <- app_assoc in Ha. exact Ha. }
  assert (Hlive2 : live_ok s2 (pre ++ pb :: (sz, false) :: post) (remove_ptr p L)).
  { split; [apply remove_ptr_NoDup; exact Hnd|].
    intros q k Hq. apply remove_ptr_In in Hq. destruct Hq as (Hq & Hne).
    destruct (Hlive _ _ Hq) as (Hk & bsz & Hqb & Hqr).
    split; [exact Hk|]. exists bsz. split; [|exact Hqr].
    cbn [s2 set_mem heapL]. rewrite Ech in Hqb.
    change (pre ++ pb :: (sz, false) :: post) with (pre ++ [pb] ++ (sz, false) :: post).
    rewrite app_assoc. apply (located_flip _ sz true false); [exact Hqb | lia]. }
  destruct (coalesce_ok s2 (remove_ptr p L) pre pb sz post Hsh Hadj Hlive2)
    as (C1 & C2 & _ & _ & C5 & C6 & C7 & C8).
  cbn [s2 set_mem heapL mem_brk mem_max_addr mem_start_brk] in C1, C2, C5, C6, C7, C8.
  rewrite <- Ep in C1, C2, C5, C6, C7, C8.
  eexists. split; [exact C1|]. split; [exact C2|]. repeat split; assumption.
Qed.

(** *** Writing into the payload of a live block *)

Lemma payload_write_ok s ch L m' p n :
  heap_ok s ch -> live_ok s ch L -> In (p, n) L ->
  (forall x, ~ (p <= x < p + n) -> m' x = mem s x) ->
  heap_ok (set_mem s m') ch /\ live_ok (set_mem s m') ch L.
Proof.
  intros Hok (Hnd & Hlive) Hin Hagree.
  split; [|split; [exact Hnd | exact Hlive]].
  destruct (Hlive _ _ Hin) as (Hn & sz & Hb & Hroom).
  destruct (located_split _ _ _ _ Hb) as (pre & post & Ech & Ep).
  pose proof (ok_layout _ _ Hok) as Hl. rewrite Ech in Hl.
  apply layout_app in Hl. rewrite <- Ep in Hl. destruct Hl as (Hl1 & Hl2).
  destruct Hl2 as (H8 & Hm & (Hh & Hf) & Hl3). cbn [fst snd] in *.
  pose proof (layout_total _ _ _ _ Hl3) as T3.
  pose proof (layout_nonneg _ _ _ _ Hl3) as N3.
  apply heap_ok_intro; cbn [set_mem mem mem_start_brk mem_brk mem_max_addr heapL trav].
  - exact (ok_start _ _ Hok).
  - exact (ok_heapL _ _ Hok).
  - exact (ok_first _ _ Hok).
  - rewrite Ech. apply layout_app. rewrite <- Ep. split.
    + apply (layout_ext (mem s)); [|exact Hl1]. intros x Hx. apply Hagree. lia.
    + cbn [layout]. unfold tagged. cbn [fst snd].
      split; [exact H8|]. split; [exact Hm|]. split; [split|].
      * rewrite <- Hh. apply READ_ext. intros x Hx. apply Hagree.
        unfold HEAD, HFSIZE in *. lia.
      * rewrite <- Hf. apply READ_ext. intros x Hx. apply Hagree.
        unfold DWORD in *. lia.
      * apply (layout_ext (mem s)); [|exact Hl3]. intros x Hx. apply Hagree.
        unfold DWORD in *. lia.
  - rewrite <- (ok_end _ _ Hok). apply READ_ext. intros x Hx. apply Hagree.
    unfold HEAD, HFSIZE, DWORD in *. lia.
  - exact (ok_max _ _ Hok).
  - exact (ok_adjacent _ _ Hok).
  - exact (ok_trav _ _ Hok).
Qed.

Lemma store_byte_other m a v x : x <> a -> store_byte m a v x = m x.
Proof.
  intros H. unfold store_byte.
  replace (x =? a) with false by (symmetry; apply Z.eqb_neq; exact H). reflexivity.
Qed.

Lemma memcpy_other m dst src n x :
  ~ (dst <= x < dst + n) -> memcpy m dst src n x = m x.
Proof.
  intros H. unfold memcpy.
  destruct (dst <=? x) eqn:E1; destruct (x <? dst + n) eqn:E2; simpl; try reflexivity.
  apply Z.leb_le in E1. apply Z.ltb_lt in E2. lia.
Qed.

Lemma copy_size_le m ptr size : copy_size m ptr size <= size.
Proof.
  unfold copy_size. destruct (size <? GET_SIZE m (HEAD ptr)) eqn:E; [lia|].
  apply Z.ltb_ge in E. exact E.
Qed.

(** *** The fuel of [fit] *)

Lemma fit_to_end_mono m adj r :
  forall fuel fuel' t,
    fit_to_end fuel m adj t = Some r -> (fuel <= fuel')%nat ->
    fit_to_end fuel' m adj t = Some r.
Proof.
  induction fuel as [|fuel IH]; intros fuel' t H Hle; [discriminate|].
  destruct fuel' as [|fuel']; [lia|].
  cbn [fit_to_end] in *.
  destruct (0 <? GET_SIZE m (HEAD t)); [|exact H].
  destruct ((GET_ALLOC m (HEAD t) =? 0) && (adj <=? GET_SIZE m (HEAD t))); [exact H|].
  apply IH; [exact H | lia].
Qed.

Lemma fit_from_start_mono m adj o r :
  forall fuel fuel' t,
    fit_from_start fuel m adj o t = Some r -> (fuel <= fuel')%nat ->
    fit_from_start fuel' m adj o t = Some r.
Proof.
  induction fuel as [|fuel IH]; intros fuel' t H Hle; [discriminate|].
  destruct fuel' as [|fuel']; [lia|].
  cbn [fit_from_start] in *.
  destruct (t <? o); [|exact H].
  destruct ((GET_ALLOC m (HEAD t) =? 0) && (adj <=? GET_SIZE m (HEAD t))); [exact H|].
  apply IH; [exact H | lia].
Qed.

Lemma fit_mono fuel fuel' s adj r :
  fit fuel s adj = Some r -> (fuel <= fuel')%nat -> fit fuel' s adj = Some r.
Proof.
  unfold fit. intros H Hle.
  destruct (fit_to_end fuel (mem s) adj (trav s)) as [r1|] eqn:E1; [|discriminate].
  rewrite (fit_to_end_mono _ _ _ _ _ _ E1 Hle).
  destruct r1; [exact H|].
  destruct (fit_from_start fuel (mem s) adj (trav s) (heapL s)) as [r2|] eqn:E2;
    [|discriminate].
  rewrite (fit_from_start_mono _ _ _ _ _ _ _ E2 Hle). exact H.
Qed.

Lemma mm_malloc_mono fuel fuel' s size r :
  mm_malloc w fuel s size = Some r -> (fuel <= fuel')%nat ->
  mm_malloc w fuel' s size = Some r.
Proof.
  unfold mm_malloc. intros H Hle.
  destruct (size =? 0); [exact H|].
  set (s0 := if heapL s =? 0 then fst (mm_init w s) else s) in *.
  destruct (fit fuel s0 (adj_size w size)) as [r1|] eqn:E1; [|discriminate].
  rewrite (fit_mono _ _ _ _ _ E1 Hle). exact H.
Qed.

(** ** The invariant of the allocator *)

Lemma live_ok_nil s ch : live_ok s ch [].
Proof. split; [constructor | intros p n []]. Qed.

Lemma init_inv s : fresh s -> heap_inv (fst (mm_init w s)) [].
Proof.
  intros Hf. destruct (mm_init_ok s Hf) as (ch & Hok & _).
  right. exists ch. split; [exact Hok | apply live_ok_nil].
Qed.

Lemma heap_inv_initialised s L :
  heap_inv s L -> heapL s <> 0 -> exists ch, heap_ok s ch /\ live_ok s ch L.
Proof.
  intros [((Hh & _) & _) | H] Hne; [contradiction | exact H].
Qed.

Lemma live_ptr_pos s ch L p n : heap_ok s ch -> live_ok s ch L -> In (p, n) L -> 0 < p.
Proof.
  intros Hok (_ & Hlive) Hin. destruct (Hlive _ _ Hin) as (_ & sz & Hb & _).
  pose proof (located_range _ _ _ _ _ _ (ok_layout _ _ Hok) Hb).
  pose proof (bound_total _ _ Hok). lia.
Qed.

Lemma remove_ptr_notin p L : ~ In p (map fst L) -> remove_ptr p L = L.
Proof.
  induction L as [|e L IH]; simpl; intros H; [reflexivity|].
  replace (fst e =? p) with false by (symmetry; apply Z.eqb_neq; tauto).
  simpl. f_equal. apply IH. tauto.
Qed.

Lemma remove_NULL s L : heap_inv s L -> remove_ptr NULL L = L.
Proof.
  intros [(_ & ->) | (ch & Hok & Hlive)]; [reflexivity|].
  apply remove_ptr_notin. intros Hin. apply in_map_iff in Hin.
  destruct Hin as ((p & n) & Ep & Hin). cbn [fst] in Ep. subst p.
  pose proof (live_ptr_pos _ _ _ _ _ Hok Hlive Hin). unfold NULL in *. lia.
Qed.

Lemma mm_malloc_fresh fuel s size :
  fresh s -> mm_malloc w fuel s size = mm_malloc w fuel (fst (mm_init w s)) size.
Proof.
  intros Hf. destruct (mm_init_ok s Hf) as (ch & Hok & _).
  pose proof (bound_total _ _ Hok) as (_ & Hpos).
  destruct Hf as (Hh & _). unfold mm_malloc. rewrite Hh. cbn [Z.eqb].
  replace (heapL (fst (mm_init w s)) =? 0) with false
    by (symmetry; apply Z.eqb_neq; lia).
  reflexivity.
Qed.

Lemma malloc_inv s L fuel size s' p :
  heap_inv s L -> 0 <= size <= SIZE_MAX w - 15 ->
  mm_malloc w fuel s size = Some (s', p) ->
  heap_inv s' (if p =? NULL then L else (p, size) :: L).
Proof.
  intros Hinv Hsize Hm.
  assert (H : exists s0 ch, heap_ok s0 ch /\ live_ok s0 ch L
                            /\ mm_malloc w fuel s0 size = Some (s', p)).
  { destruct Hinv as [(Hf & ->) | (ch & Hok & Hlive)].
    - destruct (mm_init_ok s Hf) as (ch & Hok & _).
      exists (fst (mm_init w s)), ch. rewrite <- mm_malloc_fresh by exact Hf.
      split; [exact Hok|]. split; [apply live_ok_nil | exact Hm].
    - exists s, ch. split; [exact Hok | split; [exact Hlive | exact Hm]]. }
  clear Hinv Hm. destruct H as (s0 & ch & Hok & Hlive & Hm).
  pose proof (bound_total _ _ Hok) as (_ & Hpos).
  destruct (Z.eq_dec size 0) as [-> | Hnz].
  - unfold mm_malloc in Hm.
    replace (heapL s0 =? 0) with false in Hm by (symmetry; apply Z.eqb_neq; lia).
    cbn [Z.eqb] in Hm. inversion Hm; subst. cbn [Z.eqb NULL].
    right. exists ch. split; assumption.
  - destruct (malloc_heap_ok s0 ch L size (Nat.max fuel (S (length ch))) Hok Hlive)
      as (s'' & p'' & ch' & Hm' & Hok' & Hlive' & _); [lia | lia |].
    rewrite (mm_malloc_mono _ _ _ _ _ Hm (Nat.le_max_l _ _)) in Hm'.
    inversion Hm'; subst. right. exists ch'. split; assumption.
Qed.

Lemma live_ok_remove s ch L p : live_ok s ch L -> live_ok s ch (remove_ptr p L).
Proof.
  intros (Hnd & Hlive). split; [apply remove_ptr_NoDup; exact Hnd|].
  intros q n Hq. apply remove_ptr_In in Hq. apply Hlive. tauto.
Qed.

Lemma free_inv s L p :
  heap_inv s L -> p = NULL \/ In p (map fst L) ->
  heap_inv (mm_free w s p) (remove_ptr p L).
Proof.
  intros Hinv [-> | Hin].
  - rewrite (remove_NULL _ _ Hinv). exact Hinv.
  - destruct Hinv as [(_ & ->) | (ch & Hok & Hlive)]; [contradiction|].
    apply in_map_iff in Hin. destruct Hin as ((q & n) & Ep & Hin).
    cbn [fst] in Ep. subst q.
    destruct (free_heap_ok s ch L p n Hok Hlive Hin) as (ch' & Hok' & Hlive' & _).
    right. exists ch'. split; assumption.
Qed.

Lemma store_inv s L p n a v :
  heap_inv s L -> In (p, n) L -> p <= a < p + n ->
  heap_inv (set_mem s (store_byte (mem s) a v)) L.
Proof.
  intros [(_ & ->) | (ch & Hok & Hlive)] Hin Ha; [contradiction|].
  right. exists ch. apply (payload_write_ok s ch L _ p n); try assumption.
  intros x Hx. apply store_byte_other. lia.
Qed.

Lemma realloc_inv s L fuel p size s' q :
  heap_inv s L -> p = NULL \/ In p (map fst L) ->
  0 <= size <= SIZE_MAX w - 15 ->
  mm_realloc w fuel s p size = Some (s', q) ->
  heap_inv s' (if size =? 0 then remove_ptr p L
               else if q =? NULL then L else (q, size) :: remove_ptr p L).
Proof.
  intros Hinv Hp Hsize Hr. unfold mm_realloc in Hr.
  destruct (size =? 0) eqn:Ez.
  - inversion Hr; subst. apply free_inv; assumption.
  - destruct (p =? NULL) eqn:En.
    + apply Z.eqb_eq in En. subst p. rewrite (remove_NULL _ _ Hinv).
      eapply malloc_inv; eassumption.
    + apply Z.eqb_neq in En. destruct Hp as [Hp | Hp]; [contradiction|].
      destruct (mm_malloc w fuel s size) as [(s1, newptr)|] eqn:Em; [|discriminate].
      pose proof (malloc_inv _ _ _ _ _ _ Hinv Hsize Em) as Hinv1.
      change 0 with NULL in Hr.
      destruct (newptr =? NULL) eqn:Enew.
      * inversion Hr; subst. cbn [Z.eqb NULL]. exact Hinv1.
      * inversion Hr; subst. rewrite Enew.
        destruct Hinv1 as [(_ & Hnil) | (ch & Hok & Hlive)]; [discriminate|].
        set (m' := memcpy (mem s1) q p (copy_size (mem s1) p size)).
        destruct (payload_write_ok s1 ch _ m' q size Hok Hlive (or_introl eq_refl))
          as (Hok2 & Hlive2).
        { intros x Hx. apply memcpy_other.
          pose proof (copy_size_le (mem s1) p size). lia. }
        assert (Hqp : q <> p).
        { destruct Hlive as (Hnd & _). cbn [map fst] in Hnd.
          inversion Hnd; subst. intros ->. contradiction. }
        assert (Hin : In p (map fst ((q, size) :: L))) by (right; exact Hp).
        pose proof (free_inv _ _ p (or_intror (ex_intro _ ch (conj Hok2 Hlive2)))
                      (or_intror Hin)) as Hfin.
        unfold remove_ptr in Hfin. cbn [filter fst] in Hfin.
        replace (q =? p) with false in Hfin by (symmetry; apply Z.eqb_neq; exact Hqp).
        exact Hfin.
Qed.

Lemma reachable_inv s L : reachable w s L -> heap_inv s L.
Proof.
  induction 1 as [s Hf | s L _ IH Hh | s L fuel size s' p _ IH Hsize Hm
                  | s L p _ IH Hp | s L fuel p size s' q _ IH Hp Hsize Hr
                  | s L p n a v _ IH Hin Ha].
  - left. split; [exact Hf | reflexivity].
  - destruct IH as [(Hf & ->) | (ch & Hok & _)].
    + apply init_inv. exact Hf.
    + pose proof (bound_total _ _ Hok). lia.
  - eapply malloc_inv; eassumption.
  - apply free_inv; assumption.
  - eapply realloc_inv; eassumption.
  - eapply store_inv; eassumption.
Qed.

(** ** What a forward scan of the heap sees *)

Lemma block_list_layout m bs :
  forall fuel p q,
    layout m p bs q -> READ m (HEAD q) = tag 0 true -> q - p < UINT_MOD ->
    (length bs < fuel)%nat ->
    block_list fuel m p = Some bs.
Proof.
  induction bs as [|[sz a] bs IH]; intros fuel p q Hl Hend Hlt Hfuel.
  - simpl in Hl. subst p. destruct fuel as [|fuel]; [simpl in Hfuel; lia|].
    simpl. rewrite (GET_SIZE_tag m _ 0 true); [reflexivity | | reflexivity | exact Hend].
    unfold UINT_MOD. change (2 ^ 32) with 4294967296. lia.
  - destruct fuel as [|fuel]; [simpl in Hfuel; lia|].
    destruct Hl as (H8 & Hm & (Hh & _) & Hl). cbn [fst snd] in *.
    pose proof (layout_total _ _ _ _ Hl). pose proof (layout_nonneg _ _ _ _ Hl).
    assert (G : GET_SIZE m (HEAD p) = sz)
      by (apply (GET_SIZE_tag _ _ _ a); [lia | assumption | assumption]).
    assert (A : GET_ALLOC m (HEAD p) = if a then 1 else 0)
      by (apply (GET_ALLOC_tag _ _ sz); [lia | assumption | assumption]).
    cbn [block_list]. rewrite G, A.
    replace (0 <? sz) with true by (symmetry; apply Z.ltb_lt; lia).
    assert (N : NEXT m p = p + sz) by (unfold NEXT; fold (HEAD p); rewrite G; reflexivity).
    rewrite N, (IH fuel (p + sz) q); try assumption; [| lia | simpl in Hfuel; lia].
    destruct a; reflexivity.
Qed.

(** On a well-formed heap the scan from the first real block sees the list
    without its start block. *)
Lemma heap_ok_scan s ch :
  heap_ok s ch ->
  exists bs,
    ch = (8, true) :: bs
    /\ (forall fuel, (length bs < fuel)%nat ->
                     block_list fuel (mem s) (heapL s + DWORD) = Some bs)
    /\ total bs = mem_brk s - mem_start_brk s - 4 * HFSIZE
    /\ adjacent_free bs = false.
Proof.
  intros Hok. destruct (ok_first _ _ Hok) as (bs & ->). exists bs.
  pose proof (bound_total _ _ Hok) as (Hlt & Hpos).
  pose proof (ok_layout _ _ Hok) as Hl. pose proof (ok_heapL _ _ Hok) as Hh.
  pose proof (layout_total _ _ _ _ Hl) as T.
  destruct Hl as (_ & _ & _ & Hl). cbn [fst total] in *.
  split; [reflexivity|]. split; [|split].
  - intros fuel Hfuel. unfold DWORD.
    apply (block_list_layout _ _ _ _ (mem_brk s)); try assumption.
    + exact (ok_end _ _ Hok).
    + lia.
  - unfold HFSIZE. lia.
  - pose proof (ok_adjacent _ _ Hok) as Ha. cbn [adjacent_free snd negb andb orb] in Ha.
    exact Ha.
Qed.

Lemma located_aligned m bs :
  forall p q x b,
    layout m p bs q -> p mod 8 = 0 -> In (x, b) (located p bs) -> x mod 8 = 0.
Proof.
  induction bs as [|c bs IH]; simpl; intros p q x b Hl Hp H.
  - contradiction.
  - destruct Hl as (_ & Hm & _ & Hl). destruct H as [H | H].
    + inversion H; subst. exact Hp.
    + eapply IH; [exact Hl | apply mod8_add; assumption | exact H].
Qed.

(** ** A failed allocation changes nothing *)

(** Whatever the request, the adjusted size is a multiple of eight below
    [2^w]. *)
Lemma adj_size_any size :
  0 <= adj_size w size < SIZE_MOD w /\ adj_size w size mod 8 = 0.
Proof.
  pose proof UINT_MOD_le_SIZE_MOD as Hle. unfold UINT_MOD in Hle.
  change (2 ^ 32) with 4294967296 in Hle.
  unfold adj_size, DWORD. destruct (size <=? 8).
  - split; [lia | reflexivity].
  - set (k := wrap w (size + 8 + (8 - 1)) / 8). unfold wrap.
    split; [apply Z.mod_pos_bound; lia|].
    pose proof SIZE_MOD_multiple_of_8 as H8.
    pose proof (Z.div_mod (SIZE_MOD w) 8).
    pose proof (Z.div_mod (8 * k) (SIZE_MOD w)).
    replace ((8 * k) mod SIZE_MOD w)
      with (8 * (k - SIZE_MOD w / 8 * (8 * k / SIZE_MOD w))) by nia.
    rewrite Z.mul_comm. apply Z.mod_mul. lia.
Qed.

Lemma malloc_fails_unchanged s ch size fuel s' :
  heap_ok s ch -> size <> 0 ->
  mm_malloc w fuel s size = Some (s', NULL) -> s' = s.
Proof.
  intros Hok Hnz Hm.
  pose proof (bound_total _ _ Hok) as (Hlt & Hpos).
  destruct (adj_size_any size) as ((A0 & Amax) & A8).
  apply (mm_malloc_mono _ (Nat.max fuel (S (length ch)))) in Hm; [|apply Nat.le_max_l].
  unfold mm_malloc in Hm.
  replace (heapL s =? 0) with false in Hm by (symmetry; apply Z.eqb_neq; lia).
  replace (size =? 0) with false in Hm by (symmetry; apply Z.eqb_neq; exact Hnz).
  set (adj := adj_size w size) in *.
  pose proof (ok_trav _ _ Hok) as Ht. apply in_map_iff in Ht.
  destruct Ht as ((t & b) & Et & Hb). cbn [fst] in Et. subst t.
  destruct (located_split _ _ _ _ Hb) as (c1 & c2 & Ech & Etrav).
  assert (Hl : layout (mem s) (heapL s) (c1 ++ b :: c2) (mem_brk s))
    by (rewrite <- Ech; exact (ok_layout _ _ Hok)).
  rewrite (fit_layout s adj c1 (b :: c2) _ Hl (ok_end _ _ Hok) Hlt Etrav) in Hm
    by (rewrite <- Ech; lia).
  destruct (next_fit adj (heapL s) c1 (b :: c2)) as [p|] eqn:Efit.
  - exfalso. apply next_fit_some in Efit.
    destruct Efit as (pre & sz & post & E & -> & Hsz).
    rewrite <- Ech in E. rewrite E in Hok. pose proof (ok_layout _ _ Hok) as Hl2.
    apply layout_app in Hl2. destruct Hl2 as (Hl2 & _).
    apply layout_nonneg in Hl2.
    replace (heapL s + total pre =? NULL) with false in Hm
      by (symmetry; apply Z.eqb_neq; unfold NULL; lia).
    cbn [negb] in Hm. inversion Hm. unfold NULL in *. lia.
  - rewrite set_trav_id in Hm. change (NULL =? NULL) with true in Hm. cbn [negb] in Hm.
    destruct (growsize_words adj A0 A8) as (We & Wm & Wa & Wc).
    set (words := growsize adj / HFSIZE) in *.
    change CHUNKSIZE with 4096 in Wc.
    destruct (Z_le_gt_dec (mem_brk s + words * HFSIZE) (mem_max_addr s)) as [Hroom | Hfull].
    + exfalso.
      destruct (grow_ok s ch [] words Hok (live_ok_nil s ch) We) as
        (pre & n & G1 & G2 & G3 & G4 & G5 & G6 & G7 & G8); [lia | exact Hroom |].
      destruct (grow_heap w s words) as (s2, r) eqn:Eg. cbn [fst snd] in *.
      pose proof (bound_total _ _ G1) as (_ & Hpos2).
      pose proof (ok_layout _ _ G1) as Hl2.
      apply layout_app in Hl2. destruct Hl2 as (Hl2 & _). apply layout_nonneg in Hl2.
      replace (r =? NULL) with false in Hm
        by (symmetry; apply Z.eqb_neq; unfold NULL; lia).
      inversion Hm. unfold NULL in *. lia.
    + rewrite grow_heap_fail in Hm; [| exact We | | lia].
      * change (NULL =? NULL) with true in Hm. inversion Hm. reflexivity.
      * rewrite Wm. unfold growsize. change CHUNKSIZE with 4096.
        pose proof UINT_MOD_le_SIZE_MOD as Hle. unfold UINT_MOD in Hle.
        change (2 ^ 32) with 4294967296 in Hle.
        destruct (4096 <? adj); lia.
Qed.

Lemma located_header m bs :
  forall p q x sz a,
    layout m p bs q -> In (x, (sz, a)) (located p bs) ->
    READ m (HEAD x) = tag sz a /\ 8 <= sz <= q - p /\ sz mod 8 = 0.
Proof.
  induction bs as [|c bs IH]; simpl; intros p q x sz a Hl H.
  - contradiction.
  - destruct Hl as (H8 & Hm & (Hh & _) & Hl).
    pose proof (layout_total _ _ _ _ Hl). pose proof (layout_nonneg _ _ _ _ Hl).
    destruct H as [H | H].
    + inversion H; subst. cbn [fst snd] in *. repeat split; try assumption; lia.
    + destruct (IH _ _ _ _ _ Hl H) as (R & B & M). repeat split; try assumption; lia.
Qed.

(** What [mm_malloc] returns from a state the application can reach. *)
Lemma malloc_result s L fuel size s' p :
  heap_inv s L -> 0 < size <= SIZE_MAX w - 15 ->
  mm_malloc w fuel s size = Some (s', p) -> p <> NULL ->
  exists ch bsz,
    heap_ok s' ch /\ In (p, (bsz, true)) (located (heapL s') ch)
    /\ adj_size w size <= bsz.
Proof.
  intros Hinv Hsize Hm Hp.
  assert (H : exists s0 ch, heap_ok s0 ch /\ live_ok s0 ch L
                            /\ mm_malloc w fuel s0 size = Some (s', p)).
  { destruct Hinv as [(Hf & ->) | (ch & Hok & Hlive)].
    - destruct (mm_init_ok s Hf) as (ch & Hok & _).
      exists (fst (mm_init w s)), ch. rewrite <- mm_malloc_fresh by exact Hf.
      split; [exact Hok|]. split; [apply live_ok_nil | exact Hm].
    - exists s, ch. split; [exact Hok | split; [exact Hlive | exact Hm]]. }
  clear Hinv Hm. destruct H as (s0 & ch & Hok & Hlive & Hm).
  destruct (malloc_heap_ok s0 ch L size (Nat.max fuel (S (length ch))) Hok Hlive)
    as (s'' & p'' & ch' & Hm' & Hok' & _ & Hres & _); [lia | lia |].
  rewrite (mm_malloc_mono _ _ _ _ _ Hm (Nat.le_max_l _ _)) in Hm'.
  inversion Hm'; subst. destruct (Hres Hp) as (bsz & Hin & Hb).
  exists ch', bsz. split; [exact Hok' | split; [exact Hin | exact Hb]].
Qed.

(** ** [fit] against the search the specification describes *)

Lemma first_fit_find adj bs :
  forall p, first_fit adj p bs = option_map fst (find (fits adj) (located p bs)).
Proof.
  induction bs as [|b bs IH]; intros p; [reflexivity|].
  cbn [first_fit located find]. unfold fits at 1. cbn [fst snd].
  destruct (negb (snd b) && (adj <=? fst b)); [reflexivity | apply IH].
Qed.

Lemma find_app {A} (f : A -> bool) l1 l2 :
  find f (l1 ++ l2) = match find f l1 with Some x => Some x | None => find f l2 end.
Proof.
  induction l1 as [|a l1 IH]; [reflexivity|]. simpl. destruct (f a); [reflexivity | exact IH].
Qed.

Lemma filter_all {A} (f : A -> bool) l :
  (forall x, In x l -> f x = true) -> filter f l = l.
Proof.
  induction l as [|a l IH]; intros H; [reflexivity|]. simpl.
  rewrite (H a (or_introl eq_refl)). f_equal. apply IH. intros x Hx. apply H. right. exact Hx.
Qed.

Lemma filter_none {A} (f : A -> bool) l :
  (forall x, In x l -> f x = false) -> filter f l = [].
Proof.
  induction l as [|a l IH]; intros H; [reflexivity|]. simpl.
  rewrite (H a (or_introl eq_refl)). apply IH. intros x Hx. apply H. right. exact Hx.
Qed.

(** The blocks at or after the cursor, and those before it. *)
Lemma located_ahead m c1 c2 p q :
  layout m p (c1 ++ c2) q ->
  filter (fun e : Z * block => p + total c1 <=? fst e) (located p (c1 ++ c2))
  = located (p + total c1) c2.
Proof.
  intros Hl. apply layout_app in Hl. destruct Hl as (H1 & H2).
  rewrite located_app, filter_app.
  rewrite (filter_none _ (located p c1)), (filter_all _ (located (p + total c1) c2)).
  - reflexivity.
  - intros (x, b) Hx. pose proof (located_range _ _ _ _ _ _ H2 Hx).
    apply Z.leb_le. cbn [fst]. lia.
  - intros (x, b) Hx. pose proof (located_range _ _ _ _ _ _ H1 Hx).
    apply Z.leb_gt. cbn [fst]. lia.
Qed.

Lemma located_behind m c1 c2 p q :
  layout m p (c1 ++ c2) q ->
  filter (fun e : Z * block => fst e <? p + total c1) (located p (c1 ++ c2))
  = located p c1.
Proof.
  intros Hl. apply layout_app in Hl. destruct Hl as (H1 & H2).
  rewrite located_app, filter_app.
  rewrite (filter_all _ (located p c1)), (filter_none _ (located (p + total c1) c2)).
  - apply app_nil_r.
  - intros (x, b) Hx. pose proof (located_range _ _ _ _ _ _ H2 Hx).
    apply Z.ltb_ge. cbn [fst]. lia.
  - intros (x, b) Hx. pose proof (located_range _ _ _ _ _ _ H1 Hx).
    apply Z.ltb_lt. cbn [fst]. lia.
Qed.

Lemma next_fit_spec m adj h bs c1 c2 q :
  layout m h ((8, true) :: bs) q ->
  (8, true) :: bs = c1 ++ c2 -> c2 <> [] ->
  fit_spec adj (located (h + DWORD) bs) (h + total c1)
  = match next_fit adj h c1 c2 with Some p => p | None => NULL end.
Proof.
  intros Hl E Hc2. unfold fit_spec, next_fit.
  destruct Hl as (_ & _ & _ & Hl). cbn [fst] in Hl. unfold DWORD.
  destruct c1 as [|c c1].
  - (* the cursor stands at the start block *)
    cbn [app] in E. subst c2. cbn [total first_fit fst snd negb andb].
    rewrite Z.add_0_r.
    rewrite (filter_all _ (located (h + 8) bs)), (filter_none _ (located (h + 8) bs)).
    + rewrite app_nil_r, first_fit_find.
      destruct (find (fits adj) (located (h + 8) bs)); reflexivity.
    + intros (x, b) Hx. pose proof (located_range _ _ _ _ _ _ Hl Hx).
      apply Z.ltb_ge. cbn [fst]. lia.
    + intros (x, b) Hx. pose proof (located_range _ _ _ _ _ _ Hl Hx).
      apply Z.leb_le. cbn [fst]. lia.
  - (* the cursor stands at a real block *)
    cbn [app] in E. inversion E; subst c bs.
    cbn [total first_fit fst snd negb andb].
    replace (h + (8 + total c1)) with (h + 8 + total c1) by lia.
    rewrite (located_ahead _ _ _ _ _ Hl), (located_behind _ _ _ _ _ Hl).
    rewrite find_app, !first_fit_find.
    destruct (find (fits adj) (located (h + 8 + total c1) c2)); [reflexivity|].
    destruct (find (fits adj) (located (h + 8) c1)); reflexivity.
Qed.

Lemma next_fit_not_NULL m adj h ch c1 c2 q p :
  layout m h ch q -> ch = c1 ++ c2 -> 0 < h ->
  next_fit adj h c1 c2 = Some p -> p <> NULL.
Proof.
  intros Hl -> Hh Hn. apply next_fit_some in Hn.
  destruct Hn as (pre & sz & post & E & -> & _). rewrite E in Hl.
  apply layout_app in Hl. destruct Hl as (Hl & _). apply layout_nonneg in Hl.
  unfold NULL. lia.
Qed.

(** ** [mm_malloc] when nothing fits *)

Lemma growsize_max adj : growsize adj = Z.max adj CHUNKSIZE.
Proof.
  unfold growsize. destruct (CHUNKSIZE <? adj) eqn:E;
    [apply Z.ltb_lt in E | apply Z.ltb_ge in E]; lia.
Qed.

(** A search that finds nothing leaves the state as it was. *)
Lemma fit_miss_unchanged s ch adj fuel s1 :
  heap_ok s ch -> fit fuel s adj = Some (s1, NULL) -> s1 = s.
Proof.
  intros Hok Hf.
  pose proof (bound_total _ _ Hok) as (Hlt & Hpos).
  apply (fit_mono _ (Nat.max fuel (S (length ch)))) in Hf; [|apply Nat.le_max_l].
  pose proof (ok_trav _ _ Hok) as Ht. apply in_map_iff in Ht.
  destruct Ht as ((t & b) & Et & Hb). cbn [fst] in Et. subst t.
  destruct (located_split _ _ _ _ Hb) as (c1 & c2 & Ech & Etrav).
  assert (Hl : layout (mem s) (heapL s) (c1 ++ b :: c2) (mem_brk s))
    by (rewrite <- Ech; exact (ok_layout _ _ Hok)).
  rewrite (fit_layout s adj c1 (b :: c2) _ Hl (ok_end _ _ Hok) Hlt Etrav) in Hf
    by (rewrite <- Ech; lia).
  destruct (next_fit adj (heapL s) c1 (b :: c2)) as [p|] eqn:En.
  - exfalso. pose proof (next_fit_not_NULL _ _ _ _ _ _ _ _ Hl eq_refl Hpos En).
    inversion Hf. congruence.
  - inversion Hf. apply set_trav_id.
Qed.

Lemma malloc_miss s ch L size fuel s1 :
  heap_ok s ch -> live_ok s ch L -> 0 < size <= SIZE_MAX w - 15 ->
  fit fuel s (adj_size w size) = Some (s1, NULL) ->
  let adj := adj_size w size in
  let g := Z.max adj CHUNKSIZE in
  (mem_max_addr s < mem_brk s + g -> mm_malloc w fuel s size = Some (s, NULL))
  /\ (mem_brk s + g <= mem_max_addr s ->
      exists s' p pre n,
        mm_malloc w fuel s size = Some (s', p)
        /\ p <> NULL /\ mem_brk s' = mem_brk s + g
        /\ p = heapL s + total pre /\ p <= mem_brk s /\ p + n = mem_brk s'
        /\ heap_ok s' (pre ++ put_blocks n adj)
        /\ live_ok s' (pre ++ put_blocks n adj) ((p, size) :: L)).
Proof.
  intros Hok Hlive Hsize Hf adj g.
  pose proof (bound_total _ _ Hok) as (Hlt & Hpos).
  destruct (adj_size_range size Hsize) as (A16 & A8 & Aroom & Amax & _).
  fold adj in A16, A8, Aroom, Amax, Hf.
  pose proof (fit_miss_unchanged s ch adj fuel s1 Hok Hf). subst s1.
  destruct (growsize_words adj) as (We & Wm & Wa & Wc);
    [unfold DWORD in A16; lia | exact A8 |].
  set (words := growsize adj / HFSIZE) in *.
  assert (Egs : growsize adj = g) by (subst g; apply growsize_max).
  rewrite Egs in Wm, Wa, Wc. change CHUNKSIZE with 4096 in Wc.
  assert (Hgmax : g < SIZE_MOD w).
  { pose proof UINT_MOD_le_SIZE_MOD as Hle. unfold UINT_MOD in Hle.
    change (2 ^ 32) with 4294967296 in Hle. subst g. change CHUNKSIZE with 4096. lia. }
  assert (Em : mm_malloc w fuel s size
               = let '(s2, ptr) := grow_heap w s words in
                 if ptr =? NULL then Some (s2, NULL) else Some (put w s2 ptr adj, ptr)).
  { unfold mm_malloc.
    replace (heapL s =? 0) with false by (symmetry; apply Z.eqb_neq; lia).
    replace (size =? 0) with false by (symmetry; apply Z.eqb_neq; lia).
    fold adj. rewrite Hf. reflexivity. }
  clearbody g words.
  rewrite Em. split.
  - intros Hfull. rewrite grow_heap_fail; [reflexivity | exact We | | lia].
    lia.
  - intros Hroom.
    destruct (grow_ok s ch L words Hok Hlive We) as
      (pre & n & G1 & G2 & G3 & G4 & G5 & G6 & G7 & G8); [lia | lia |].
    destruct (grow_heap w s words) as (s2, r) eqn:Eg. cbn [fst snd] in *.
    pose proof (ok_layout _ _ G1) as Hl2.
    pose proof (layout_total _ _ _ _ Hl2) as T2. rewrite total_app in T2.
    cbn [total fst] in T2.
    apply layout_app in Hl2. destruct Hl2 as (Hl2 & _). apply layout_nonneg in Hl2.
    assert (Hnb : (r =? NULL) = false) by (apply Z.eqb_neq; unfold NULL; lia).
    rewrite Hnb.
    destruct (place_ok s2 (pre ++ [(n, false)]) L pre n [] adj size G1 G2 eq_refl)
      as (P1 & P2 & P3 & P4 & P5 & P6 & P7 & P8); try assumption; try lia.
    rewrite <- G3 in *. rewrite app_nil_r in *.
    exists (put w s2 r adj), r, pre, n. split; [reflexivity|].
    split; [unfold NULL; lia|].
    split; [lia|]. split; [lia|]. split; [lia|]. split; [lia|].
    split; assumption.
Qed.

(** ** Requests whose adjusted size wraps *)

Lemma adj_size_wrapped size :
  SIZE_MAX w - 15 < size <= SIZE_MAX w ->
  adj_size w size = DWORD * ((size + 15 - SIZE_MOD w) / DWORD)
  /\ (adj_size w size = 0 \/ adj_size w size = DWORD)
  /\ adj_size w size < size.
Proof.
  intros Hs. unfold SIZE_MAX in Hs. pose proof UINT_MOD_le_SIZE_MOD as Hle.
  unfold UINT_MOD in Hle. change (2 ^ 32) with 4294967296 in Hle.
  set (k := size + 15 - SIZE_MOD w). assert (Hk : 0 <= k <= 14) by (subst k; lia).
  assert (Hq : k / 8 = 0 \/ k / 8 = 1).
  { pose proof (Z.div_mod k 8). pose proof (Z.mod_pos_bound k 8). lia. }
  assert (E : adj_size w size = DWORD * (k / DWORD)).
  { unfold adj_size, DWORD.
    replace (size <=? 8) with false by (symmetry; apply Z.leb_gt; lia).
    replace (size + 8 + (8 - 1)) with (k + 1 * SIZE_MOD w) by (subst k; lia).
    unfold wrap. rewrite Z.mod_add by lia. rewrite (Z.mod_small k) by lia.
    apply Z.mod_small. lia. }
  rewrite E. unfold DWORD. split; [reflexivity|]. lia.
Qed.

(** [put] with a request of zero bytes leaves the block free. *)
Lemma put_zero s ptr csize :
  READ (mem s) (HEAD ptr) = tag csize false ->
  2 * DWORD <= csize < UINT_MOD -> csize mod 8 = 0 ->
  READ (mem (put w s ptr 0)) (HEAD ptr) = tag csize false.
Proof.
  intros Hh Hc Hcm. unfold DWORD in Hc.
  set (m := mem s) in *.
  assert (Gc : GET_SIZE m (HEAD ptr) = csize)
    by (apply (GET_SIZE_tag _ _ _ false); [lia | assumption | assumption]).
  unfold put. fold m. rewrite Gc. rewrite Z.sub_0_r.
  rewrite wrap_small by lia.
  replace (2 * DWORD <=? csize) with true by (symmetry; apply Z.leb_le; unfold DWORD; lia).
  change (HF 0 1) with (tag 0 true). change (HF csize 0) with (tag csize false).
  assert (Z0 : 0 <= 0 < UINT_MOD)
    by (unfold UINT_MOD; change (2 ^ 32) with 4294967296; lia).
  set (m1 := WRITE m (HEAD ptr) (tag 0 true)).
  assert (R1 : READ m1 (HEAD ptr) = tag 0 true)
    by (apply READ_WRITE_tag; [exact Z0 | reflexivity]).
  assert (F1 : FOOT m1 ptr = ptr - DWORD).
  { unfold FOOT. rewrite (GET_SIZE_tag m1 _ 0 true); [lia | exact Z0 | reflexivity | exact R1]. }
  rewrite F1. set (m2 := WRITE m1 (ptr - DWORD) (tag 0 true)).
  assert (R2 : READ m2 (HEAD ptr) = tag 0 true).
  { unfold m2. rewrite READ_WRITE_other by (unfold HEAD, HFSIZE, DWORD; lia). exact R1. }
  assert (N2 : NEXT m2 ptr = ptr).
  { unfold NEXT. fold (HEAD ptr).
    rewrite (GET_SIZE_tag m2 _ 0 true); [lia | exact Z0 | reflexivity | exact R2]. }
  rewrite N2. set (m3 := WRITE m2 (HEAD ptr) (tag csize false)).
  assert (R3 : READ m3 (HEAD ptr) = tag csize false)
    by (apply READ_WRITE_tag; [lia | assumption]).
  assert (F3 : FOOT m3 ptr = ptr + csize - DWORD).
  { unfold FOOT. rewrite (GET_SIZE_tag m3 _ csize false);
      [reflexivity | lia | assumption | exact R3]. }
  rewrite F3. cbn [mem set_mem].
  rewrite READ_WRITE_other by (unfold HEAD, HFSIZE, DWORD; lia). exact R3.
Qed.

(** The first [mm_malloc] on a fresh state with room for the first chunk,
    for a request whose adjusted size wraps: it returns the first block of
    the heap, which is then an allocated block of eight bytes, or the free
    chunk it still is. *)
Lemma malloc_wrapped s size fuel :
  fresh s -> mem_start_brk s + 4 * HFSIZE + CHUNKSIZE <= mem_max_addr s ->
  SIZE_MAX w - 15 < size <= SIZE_MAX w -> (2 < fuel)%nat ->
  exists s',
    mm_malloc w fuel s size = Some (s', mem_start_brk s + 2 * DWORD)
    /\ READ (mem s') (HEAD (mem_start_brk s + 2 * DWORD))
       = (if adj_size w size =? 0 then tag CHUNKSIZE false else tag DWORD true).
Proof.
  intros Hf Hroom Hs Hfuel.
  destruct (adj_size_wrapped size Hs) as (_ & Hadj & _).
  rewrite mm_malloc_fresh by exact Hf.
  destruct (mm_init_ok s Hf) as (ch & Hok & Ht & Hst & _ & _ & Hch).
  specialize (Hch Hroom). subst ch.
  set (s0 := fst (mm_init w s)) in *.
  pose proof (bound_total _ _ Hok) as (Hlt & Hpos).
  pose proof (ok_heapL _ _ Hok) as Hh. rewrite Hst in Hh.
  unfold SIZE_MAX in Hs. pose proof UINT_MOD_le_SIZE_MOD as Hle.
  unfold UINT_MOD in Hle. change (2 ^ 32) with 4294967296 in Hle.
  unfold mm_malloc.
  replace (heapL s0 =? 0) with false by (symmetry; apply Z.eqb_neq; lia).
  replace (size =? 0) with false by (symmetry; apply Z.eqb_neq; lia).
  set (adj := adj_size w size) in *.
  assert (Etrav : trav s0 = heapL s0 + total []) by (cbn [total]; lia).
  rewrite (fit_layout s0 adj [] [(8, true); (CHUNKSIZE, false)] fuel
             (ok_layout _ _ Hok) (ok_end _ _ Hok) Hlt Etrav)
    by (cbn [app length]; lia).
  assert (En : next_fit adj (heapL s0) [] [(8, true); (CHUNKSIZE, false)]
               = Some (heapL s0 + 8)).
  { unfold next_fit. cbn [total first_fit fst snd negb andb].
    change CHUNKSIZE with 4096.
    replace (adj <=? 4096) with true
      by (symmetry; apply Z.leb_le; unfold DWORD in Hadj; lia).
    rewrite Z.add_0_r. reflexivity. }
  rewrite En.
  replace (heapL s0 + 8 =? NULL) with false
    by (symmetry; apply Z.eqb_neq; unfold NULL; lia).
  cbn [negb].
  replace (mem_start_brk s + 2 * DWORD) with (heapL s0 + 8) by (unfold DWORD; lia).
  eexists. split; [reflexivity|].
  set (s1 := set_trav s0 (heapL s0 + 8)).
  pose proof (ok_layout _ _ Hok) as Hl.
  destruct Hl as (_ & _ & _ & (_ & _ & (Hhd & _) & _)). cbn [fst snd] in Hhd.
  change CHUNKSIZE with 4096 in *.
  assert (Hc : 0 <= 4096 < UINT_MOD)
    by (unfold UINT_MOD; change (2 ^ 32) with 4294967296; lia).
  destruct Hadj as [E | E]; rewrite E.
  - cbn [Z.eqb].
    apply (put_zero s1 (heapL s0 + 8) 4096); [exact Hhd | | reflexivity].
    unfold DWORD, UINT_MOD. change (2 ^ 32) with 4294967296. lia.
  - change (DWORD =? 0) with false. cbv iota.
    destruct (put_mem s1 (heapL s0 + 8) 4096 DWORD Hhd Hc eq_refl) as (_ & Hput);
      [unfold DWORD; lia | reflexivity |].
    change (2 * DWORD <=? 4096 - DWORD) with true in Hput. cbv iota in Hput.
    destruct Hput as (R1 & _). exact R1.
Qed.

(** ** Frames: what the operations leave alone *)

(** Two blocks of a laid-out list do not overlap. *)
Lemma located_disjoint m bs p q x (b : block) y (c : block) :
  layout m p bs q -> In (x, b) (located p bs) -> In (y, c) (located p bs) ->
  x <> y -> x + fst b <= y \/ y + fst c <= x.
Proof.
  intros Hl Hx Hy Hne.
  pose proof (positions_not_inside m bs p q x b y Hl Hx (in_map fst _ _ Hy)) as H1.
  pose proof (positions_not_inside m bs p q y c x Hl Hy (in_map fst _ _ Hx)) as H2.
  cbn [fst] in H1, H2. lia.
Qed.

(** A block the application holds: where it lies. *)
Lemma live_block s ch L q n :
  heap_ok s ch -> live_ok s ch L -> In (q, n) L ->
  exists bsz,
    In (q, (bsz, true)) (located (heapL s) ch) /\ 0 < n /\ n + DWORD <= bsz
    /\ heapL s + DWORD <= q /\ q + bsz <= mem_brk s /\ q mod 8 = 0.
Proof.
  intros Hok (_ & Hlive) Hin. destruct (Hlive _ _ Hin) as (Hn & bsz & Hb & Hroom).
  exists bsz. split; [exact Hb|]. split; [exact Hn|]. split; [exact Hroom|].
  pose proof (located_range _ _ _ _ _ _ (ok_layout _ _ Hok) Hb) as (R1 & R2 & R3).
  cbn [fst] in R2, R3.
  destruct (ok_first _ _ Hok) as (bs & E).
  assert (H0 : In (heapL s, (8, true)) (located (heapL s) ch))
    by (rewrite E; left; reflexivity).
  assert (Hne : q <> heapL s).
  { intros ->. pose proof (located_functional _ _ _ _ _ _ _ (ok_layout _ _ Hok) Hb H0) as Eb.
    inversion Eb. unfold DWORD in *. lia. }
  pose proof (located_disjoint _ _ _ _ _ _ _ _ (ok_layout _ _ Hok) Hb H0 Hne) as Hd.
  cbn [fst] in Hd.
  destruct (ok_start _ _ Hok) as (_ & Hs8). pose proof (ok_heapL _ _ Hok) as Hh.
  split; [unfold DWORD; lia|]. split; [exact R3|].
  eapply located_aligned; [exact (ok_layout _ _ Hok) | | exact Hb].
  rewrite Hh. apply mod8_add; [exact Hs8 | reflexivity].
Qed.

(** [put] writes inside the free block it is given. *)
Lemma put_frame s ptr csize adj :
  READ (mem s) (HEAD ptr) = tag csize false ->
  0 <= csize < UINT_MOD -> csize mod 8 = 0 ->
  8 <= adj <= csize -> adj mod 8 = 0 ->
  forall x, ~ (ptr - 4 <= x < ptr + csize - 4) -> mem (put w s ptr adj) x = mem s x.
Proof.
  intros Hh Hc Hm Ha Ham x Hx.
  destruct (put_mem s ptr csize adj Hh Hc Hm Ha Ham) as (_ & H).
  destruct (2 * DWORD <=? csize - adj) eqn:E.
  - apply Z.leb_le in E. destruct H as (_ & _ & _ & _ & F).
    apply F; unfold DWORD in *; lia.
  - destruct H as (_ & _ & F). apply F; lia.
Qed.

(** A search that succeeds returns a free block of the list that holds the
    request, and moves the cursor to it. *)
Lemma fit_hit s ch adj fuel s1 p :
  heap_ok s ch -> fit fuel s adj = Some (s1, p) -> p <> NULL ->
  s1 = set_trav s p
  /\ exists pre sz post,
       ch = pre ++ (sz, false) :: post /\ p = heapL s + total pre /\ adj <= sz.
Proof.
  intros Hok Hf Hp.
  pose proof (bound_total _ _ Hok) as (Hlt & Hpos).
  apply (fit_mono _ (Nat.max fuel (S (length ch)))) in Hf; [|apply Nat.le_max_l].
  pose proof (ok_trav _ _ Hok) as Ht. apply in_map_iff in Ht.
  destruct Ht as ((t & b) & Et & Hb). cbn [fst] in Et. subst t.
  destruct (located_split _ _ _ _ Hb) as (c1 & c2 & Ech & Etrav).
  assert (Hl : layout (mem s) (heapL s) (c1 ++ b :: c2) (mem_brk s))
    by (rewrite <- Ech; exact (ok_layout _ _ Hok)).
  rewrite (fit_layout s adj c1 (b :: c2) _ Hl (ok_end _ _ Hok) Hlt Etrav) in Hf
    by (rewrite <- Ech; lia).
  destruct (next_fit adj (heapL s) c1 (b :: c2)) as [r|] eqn:En.
  - inversion Hf; subst s1 r. split; [reflexivity|].
    apply next_fit_some in En. destruct En as (pre & sz & post & E & Ep & Hsz).
    exists pre, sz, post. rewrite Ech. repeat split; assumption.
  - inversion Hf. congruence.
Qed.

(** [mm_malloc] when the search finds a block: the block is placed there,
    the provider is not asked for anything, and no byte outside the block
    found changes. *)
Lemma malloc_hit s ch L size fuel s1 p :
  heap_ok s ch -> live_ok s ch L -> 0 < size <= SIZE_MAX w - 15 ->
  fit fuel s (adj_size w size) = Some (s1, p) -> p <> NULL ->
  let adj := adj_size w size in
  let s' := put w (set_trav s p) p adj in
  exists pre sz post,
    ch = pre ++ (sz, false) :: post /\ p = heapL s + total pre /\ adj <= sz
    /\ mm_malloc w fuel s size = Some (s', p)
    /\ heap_ok s' (pre ++ put_blocks sz adj ++ post)
    /\ live_ok s' (pre ++ put_blocks sz adj ++ post) ((p, size) :: L)
    /\ trav s' = p /\ heapL s' = heapL s /\ mem_brk s' = mem_brk s
    /\ mem_max_addr s' = mem_max_addr s /\ mem_start_brk s' = mem_start_brk s
    /\ (forall x, ~ (p - 4 <= x < p + sz - 4) -> mem s' x = mem s x).
Proof.
  intros Hok Hlive Hsize Hf Hp adj s'.
  pose proof (bound_total _ _ Hok) as (Hlt & Hpos).
  destruct (adj_size_range size Hsize) as (A16 & A8 & Aroom & Amax & _).
  fold adj in A16, A8, Aroom, Amax, Hf.
  destruct (fit_hit s ch adj fuel s1 p Hok Hf Hp) as (-> & pre & sz & post & E & Ep & Hsz).
  exists pre, sz, post. split; [exact E|]. split; [exact Ep|]. split; [exact Hsz|].
  assert (Hmid : In (p, (sz, false)) (located (heapL s) ch))
    by (rewrite E, Ep; apply located_mid).
  assert (Hin : In p (map fst (located (heapL s) ch)))
    by (exact (in_map fst _ _ Hmid)).
  destruct (located_header _ _ _ _ _ _ _ (ok_layout _ _ Hok) Hmid) as (Hh & Hr & Hm8).
  pose proof (heap_ok_set_trav s ch p Hok Hin) as Hok1.
  destruct (place_ok (set_trav s p) ch L pre sz post adj size Hok1 Hlive E)
    as (P1 & P2 & _ & P4 & P5 & P6 & P7 & P8);
    try assumption; try (split; assumption); try lia.
  cbn [set_trav heapL mem_brk mem_max_addr mem_start_brk trav] in P1, P2, P4, P5, P6, P7, P8.
  rewrite <- Ep in P1, P2, P4, P5, P6, P7, P8. fold s' in P1, P2, P4, P5, P6, P7, P8.
  split.
  { unfold mm_malloc.
    replace (heapL s =? 0) with false by (symmetry; apply Z.eqb_neq; lia).
    replace (size =? 0) with false by (symmetry; apply Z.eqb_neq; lia).
    fold adj. rewrite Hf.
    replace (p =? NULL) with false by (symmetry; apply Z.eqb_neq; exact Hp).
    reflexivity. }
  split; [exact P1|]. split; [exact P2|].
  split; [exact P4|]. split; [exact P5|]. split; [exact P6|].
  split; [exact P7|]. split; [exact P8|].
  intros x Hx. subst s'.
  rewrite (put_frame (set_trav s p) p sz adj); [reflexivity | exact Hh | lia | exact Hm8 | | exact A8 | exact Hx].
  unfold DWORD in A16. lia.
Qed.

(** [grow_heap] writes at the old end header and above it, and in the free
    block that ends there when there is one: nothing below the block it
    returns changes. *)
Lemma grow_heap_frame s p0 pre pb words :
  layout (mem s) p0 (pre ++ [pb]) (mem_brk s) ->
  READ (mem s) (HEAD (mem_brk s)) = tag 0 true ->
  0 <= p0 -> words mod 2 = 0 -> 8 <= words * HFSIZE ->
  mem_brk s + words * HFSIZE <= mem_max_addr s ->
  mem_brk s + words * HFSIZE - p0 < UINT_MOD ->
  forall x, x < coalesce_ptr (mem_brk s) pb - 4 ->
            mem (fst (grow_heap w s words)) x = mem s x.
Proof.
  intros Hl Hend Hp0 He H8 Hmax Hlt x Hx.
  set (size := words * HFSIZE) in *.
  pose proof (layout_total _ _ _ _ Hl) as Tl.
  pose proof (layout_nonneg _ _ _ _ Hl) as Nl.
  assert (Hsz : 0 <= size < UINT_MOD) by (subst size; lia).
  assert (Hm8 : size mod 8 = 0).
  { subst size. unfold HFSIZE.
    rewrite (Z.div_mod words 2), He by lia.
    replace ((2 * (words / 2) + 0) * 4) with (words / 2 * 8) by lia.
    apply Z.mod_mul. lia. }
  unfold grow_heap.
  rewrite even_words_size by (fold size; pose proof UINT_MOD_le_SIZE_MOD; lia).
  fold size. unfold mem_sbrk.
  replace (mem_brk s + size <=? mem_max_addr s) with true
    by (symmetry; apply Z.leb_le; exact Hmax).
  set (ptr := mem_brk s) in *.
  assert (Hpb : 8 <= total (pre ++ [pb])).
  { pose proof (layout_length _ _ _ _ Hl) as H. rewrite length_app in H.
    simpl length in H. lia. }
  replace (ptr =? -1) with false by (symmetry; apply Z.eqb_neq; subst ptr; lia).
  cbn [mem].
  change (HF size 0) with (tag size false). change (HF 0 1) with (tag 0 true).
  set (m := mem s) in *.
  set (m1 := WRITE m (HEAD ptr) (tag size false)).
  assert (R1 : READ m1 (HEAD ptr) = tag size false)
    by (apply READ_WRITE_tag; assumption).
  assert (F1 : FOOT m1 ptr = ptr + size - DWORD).
  { unfold FOOT. rewrite (GET_SIZE_tag m1 _ size false); [reflexivity | | |]; assumption. }
  rewrite F1. set (m2 := WRITE m1 (ptr + size - DWORD) (tag size false)).
  assert (R2 : READ m2 (HEAD ptr) = tag size false).
  { unfold m2. rewrite READ_WRITE_other by (unfold HEAD, HFSIZE, DWORD in *; lia). exact R1. }
  assert (N2 : NEXT m2 ptr = ptr + size).
  { unfold NEXT. fold (HEAD ptr).
    rewrite (GET_SIZE_tag m2 _ size false); [reflexivity | | |]; assumption. }
  rewrite N2. set (m3 := WRITE m2 (HEAD (ptr + size)) (tag 0 true)).
  set (s1 := set_mem _ m3).
  assert (L1 : layout (mem s1) p0 (pre ++ [pb]) ptr).
  { apply (layout_ext m); [|exact Hl]. intros y Hy. unfold s1, m3, m2, m1. cbn [mem set_mem].
    repeat (rewrite WRITE_other by (unfold HEAD, HFSIZE, DWORD in *; lia)).
    reflexivity. }
  assert (L2 : layout (mem s1) ptr ((size, false) :: []) (ptr + size)).
  { cbn [layout fst snd tagged]. split; [exact H8|]. split; [exact Hm8|].
    split; [split|reflexivity].
    - unfold s1, m3. cbn [mem set_mem].
      rewrite READ_WRITE_other by (unfold HEAD, HFSIZE, DWORD in *; lia). exact R2.
    - unfold s1, m3. cbn [mem set_mem fst snd].
      rewrite READ_WRITE_other by (unfold HEAD, HFSIZE, DWORD in *; lia).
      unfold m2. apply READ_WRITE_tag; assumption. }
  assert (E3 : READ (mem s1) (HEAD (ptr + size)) = tag 0 true).
  { unfold s1, m3. cbn [mem set_mem]. apply READ_WRITE_tag; [|reflexivity].
    unfold UINT_MOD. change (2 ^ 32) with 4294967296. lia. }
  destruct (coalesce_mem s1 ptr p0 pre pb size [] (ptr + size) L1 L2 E3)
    as (_ & _ & _ & F & _); [lia|].
  assert (Hr : coalesce_ptr ptr pb <= ptr).
  { unfold coalesce_ptr. apply layout_last in Hl. destruct Hl as (_ & Hb8 & _).
    destruct (snd pb); lia. }
  rewrite F.
  - unfold s1, m3, m2, m1. cbn [mem set_mem].
    repeat (rewrite WRITE_other by (unfold HEAD, HFSIZE, DWORD in *; lia)).
    reflexivity.
  - lia.
  - unfold coalesce_size. cbn [next_block snd fst].
    assert (0 <= (if snd pb then 0 else fst pb)).
    { apply layout_last in Hl. destruct Hl as (_ & Hb8 & _). destruct (snd pb); lia. }
    unfold coalesce_ptr in *. destruct (snd pb); lia.
Qed.

(** A search that fails has met no free block that holds the request. *)
Lemma fit_miss_none s ch adj fuel s1 :
  heap_ok s ch -> fit fuel s adj = Some (s1, NULL) ->
  forall b, In b ch -> snd b = true \/ fst b < adj.
Proof.
  intros Hok Hf.
  pose proof (bound_total _ _ Hok) as (Hlt & Hpos).
  apply (fit_mono _ (Nat.max fuel (S (length ch)))) in Hf; [|apply Nat.le_max_l].
  pose proof (ok_trav _ _ Hok) as Ht. apply in_map_iff in Ht.
  destruct Ht as ((t & b0) & Et & Hb). cbn [fst] in Et. subst t.
  destruct (located_split _ _ _ _ Hb) as (c1 & c2 & Ech & Etrav).
  assert (Hl : layout (mem s) (heapL s) (c1 ++ b0 :: c2) (mem_brk s))
    by (rewrite <- Ech; exact (ok_layout _ _ Hok)).
  rewrite (fit_layout s adj c1 (b0 :: c2) _ Hl (ok_end _ _ Hok) Hlt Etrav) in Hf
    by (rewrite <- Ech; lia).
  destruct (next_fit adj (heapL s) c1 (b0 :: c2)) as [p|] eqn:En.
  - exfalso. pose proof (next_fit_not_NULL _ _ _ _ _ _ _ _ Hl eq_refl Hpos En).
    inversion Hf. congruence.
  - unfold next_fit in En.
    destruct (first_fit adj (heapL s + total c1) (b0 :: c2)) eqn:E2; [discriminate|].
    intros b Hin. rewrite Ech in Hin. apply in_app_or in Hin. destruct Hin as [Hin | Hin].
    + exact (first_fit_none _ _ _ En b Hin).
    + exact (first_fit_none _ _ _ E2 b Hin).
Qed.

(** The block that [grow_heap] returns lies above every allocated block,
    and nothing below it changes. *)
Lemma grow_result_above s ch words :
  heap_ok s ch ->
  words mod 2 = 0 -> 8 <= words * HFSIZE ->
  mem_brk s + words * HFSIZE <= mem_max_addr s ->
  let r := snd (grow_heap w s words) in
  (forall q bsz, In (q, (bsz, true)) (located (heapL s) ch) -> q + bsz <= r)
  /\ (forall x, x < r - 4 -> mem (fst (grow_heap w s words)) x = mem s x).
Proof.
  intros Hok He H8 Hroom r.
  pose proof (bound_total _ _ Hok) as (Hlt & Hpos).
  destruct (ok_start _ _ Hok) as (Hs0 & Hs8). pose proof (ok_heapL _ _ Hok) as Hh.
  destruct (ok_max _ _ Hok) as (Hm1 & Hm2).
  destruct (chain_snoc ch (ok_first _ _ Hok)) as (pre0 & pb & Ech).
  pose proof (ok_layout _ _ Hok) as Hl. rewrite Ech in Hl.
  pose proof (layout_total _ _ _ _ Hl) as Tl.
  pose proof (layout_last _ _ _ _ _ Hl) as (_ & Hpb8 & _).
  destruct (grow_heap_layout s (heapL s) pre0 pb words Hl (ok_end _ _ Hok))
    as (G1 & _); try assumption; try lia.
  fold r in G1. split.
  - intros q bsz Hq.
    pose proof (located_range _ _ _ _ _ _ (ok_layout _ _ Hok) Hq) as (R1 & R2 & R3).
    cbn [fst] in R2, R3. rewrite G1. unfold coalesce_ptr.
    destruct (snd pb) eqn:Ea; [exact R3|].
    assert (Hpos2 : In (mem_brk s - fst pb, pb) (located (heapL s) ch)).
    { rewrite Ech. replace (mem_brk s - fst pb) with (heapL s + total pre0)
        by (rewrite total_app in Tl; cbn [total] in Tl; lia).
      apply located_mid. }
    assert (Hne : q <> mem_brk s - fst pb).
    { intros ->. pose proof (located_functional _ _ _ _ _ _ _ (ok_layout _ _ Hok) Hq Hpos2) as E.
      rewrite <- E in Ea. discriminate. }
    pose proof (located_disjoint _ _ _ _ _ _ _ _ (ok_layout _ _ Hok) Hq Hpos2 Hne) as Hd.
    cbn [fst] in Hd. lia.
  - intros x Hx. rewrite G1 in Hx.
    apply (grow_heap_frame s (heapL s) pre0 pb words Hl (ok_end _ _ Hok));
      try assumption; lia.
Qed.

(** The three ways [mm_malloc] returns on a well-formed heap: nothing fits
    and the provider refuses; a block fits; nothing fits and the heap
    grows. *)
Lemma malloc_cases s ch L size fuel s' p :
  heap_ok s ch -> live_ok s ch L -> 0 < size <= SIZE_MAX w - 15 ->
  mm_malloc w fuel s size = Some (s', p) ->
  let adj := adj_size w size in
  let g := Z.max adj CHUNKSIZE in
  (p = NULL /\ s' = s
   /\ (forall b, In b ch -> snd b = true \/ fst b < adj)
   /\ mem_max_addr s < mem_brk s + g)
  \/ (p <> NULL /\ mem_brk s' = mem_brk s
      /\ exists pre sz post,
           ch = pre ++ (sz, false) :: post /\ p = heapL s + total pre /\ adj <= sz
           /\ heap_ok s' (pre ++ put_blocks sz adj ++ post)
           /\ live_ok s' (pre ++ put_blocks sz adj ++ post) ((p, size) :: L)
           /\ trav s' = p /\ heapL s' = heapL s
           /\ mem_max_addr s' = mem_max_addr s /\ mem_start_brk s' = mem_start_brk s
           /\ (forall x, ~ (p - 4 <= x < p + sz - 4) -> mem s' x = mem s x))
  \/ (p <> NULL /\ mem_brk s' = mem_brk s + g
      /\ (forall b, In b ch -> snd b = true \/ fst b < adj)
      /\ mem_brk s + g <= mem_max_addr s
      /\ exists pre n,
           p = heapL s + total pre /\ p + n = mem_brk s' /\ adj <= n
           /\ heap_ok s' (pre ++ put_blocks n adj)
           /\ live_ok s' (pre ++ put_blocks n adj) ((p, size) :: L)
           /\ heapL s' = heapL s
           /\ mem_max_addr s' = mem_max_addr s /\ mem_start_brk s' = mem_start_brk s
           /\ (forall q bsz, In (q, (bsz, true)) (located (heapL s) ch) -> q + bsz <= p)
           /\ (forall x, x < p - 4 -> mem s' x = mem s x)).
Proof.
  intros Hok Hlive Hsize Hm adj g.
  pose proof (bound_total _ _ Hok) as (Hlt & Hpos).
  destruct (adj_size_range size Hsize) as (A16 & A8 & Aroom & Amax & _).
  fold adj in A16, A8, Aroom, Amax.
  pose proof Hm as Hm0.
  unfold mm_malloc in Hm.
  replace (heapL s =? 0) with false in Hm by (symmetry; apply Z.eqb_neq; lia).
  replace (size =? 0) with false in Hm by (symmetry; apply Z.eqb_neq; lia).
  fold adj in Hm.
  destruct (fit fuel s adj) as [(s1, r)|] eqn:Ef; [|discriminate Hm].
  destruct (Z.eq_dec r NULL) as [-> | Hr].
  - (* nothing fits *)
    pose proof (fit_miss_none s ch adj fuel s1 Hok Ef) as Hnone.
    pose proof (fit_miss_unchanged s ch adj fuel s1 Hok Ef). subst s1.
    change (NULL =? NULL) with true in Hm. cbn [negb] in Hm.
    destruct (growsize_words adj) as (We & Wm & Wa & Wc);
      [unfold DWORD in A16; lia | exact A8 |].
    set (words := growsize adj / HFSIZE) in *.
    assert (Egs : growsize adj = g) by (subst g; apply growsize_max).
    rewrite Egs in Wm, Wa, Wc. change CHUNKSIZE with 4096 in Wc.
    assert (Hgmax : g < SIZE_MOD w).
    { pose proof UINT_MOD_le_SIZE_MOD as Hle. unfold UINT_MOD in Hle.
      change (2 ^ 32) with 4294967296 in Hle. subst g. change CHUNKSIZE with 4096. lia. }
    clearbody g words.
    destruct (Z_le_gt_dec (mem_brk s + g) (mem_max_addr s)) as [Hroom | Hfull].
    + right. right.
      destruct (grow_ok s ch L words Hok Hlive We) as
        (pre & n & G1 & G2 & G3 & G4 & G5 & G6 & G7 & G8); [lia | lia |].
      destruct (grow_result_above s ch words Hok We) as (Ha & Hfr); [lia | lia |].
      destruct (grow_heap w s words) as (s2, r) eqn:Eg. cbn [fst snd] in *.
      pose proof (ok_layout _ _ G1) as Hl2.
      pose proof (layout_total _ _ _ _ Hl2) as T2. rewrite total_app in T2.
      cbn [total fst] in T2.
      assert (Hmid : In (r, (n, false)) (located (heapL s2) (pre ++ [(n, false)])))
        by (rewrite G3; apply located_mid).
      destruct (located_header _ _ _ _ _ _ _ Hl2 Hmid) as (Hh & Hrg & Hm8).
      apply layout_app in Hl2. destruct Hl2 as (Hl2 & _). apply layout_nonneg in Hl2.
      assert (Hnb : (r =? NULL) = false) by (apply Z.eqb_neq; unfold NULL; lia).
      rewrite Hnb in Hm. inversion Hm; subst s' p. clear Hm.
      destruct (place_ok s2 (pre ++ [(n, false)]) L pre n [] adj size G1 G2 eq_refl)
        as (P1 & P2 & P3 & P4 & P5 & P6 & P7 & P8); try assumption; try lia.
      rewrite <- G3 in *. rewrite app_nil_r in *.
      split; [unfold NULL; lia|]. split; [lia|]. split; [exact Hnone|].
      split; [exact Hroom|].
      exists pre, n. split; [lia|]. split; [lia|]. split; [lia|].
      split; [exact P1|]. split; [exact P2|]. split; [lia|]. split; [lia|].
      split; [lia|]. split; [exact Ha|].
      intros x Hx. rewrite (put_frame s2 r n adj); [apply Hfr; exact Hx | exact Hh | | exact Hm8 | | exact A8 | lia].
      * pose proof (bound_total _ _ G1). lia.
      * unfold DWORD in A16. lia.
    + left. rewrite grow_heap_fail in Hm; [| exact We | lia | lia].
      change (NULL =? NULL) with true in Hm. inversion Hm; subst s' p.
      split; [reflexivity|]. split; [reflexivity|]. split; [exact Hnone | lia].
  - (* a block fits *)
    right. left.
    destruct (malloc_hit s ch L size fuel s1 r Hok Hlive Hsize Ef Hr)
      as (pre & sz & post & E & Ep & Hsz & Em & H1 & H2 & H3 & H4 & H5 & H6 & H7 & H8).
    rewrite Em in Hm0. inversion Hm0; subst s' p.
    split; [exact Hr|]. split; [exact H5|].
    exists pre, sz, post. repeat (split; [assumption|]). exact H8.
Qed.

(** [mm_free] on a block the application holds, step by step: the block
    becomes free and absorbs its free neighbours; only the header and the
    footer of the block and of the merged block are written. *)
Lemma free_step s ch L p n :
  heap_ok s ch -> live_ok s ch L -> In (p, n) L ->
  let s' := mm_free w s p in
  exists pre pb sz post,
    ch = pre ++ pb :: (sz, true) :: post /\ p = heapL s + total (pre ++ [pb])
    /\ n + DWORD <= sz
    /\ heap_ok s' (coalesce_blocks pre pb sz post)
    /\ live_ok s' (coalesce_blocks pre pb sz post) (remove_ptr p L)
    /\ trav s' = coalesce_trav (trav s) p pb sz post
    /\ heapL s' = heapL s /\ mem_brk s' = mem_brk s
    /\ mem_max_addr s' = mem_max_addr s /\ mem_start_brk s' = mem_start_brk s
    /\ GET_ALLOC (mem s') (HEAD p) = 0
    /\ coalesce_ptr p pb <= p
    /\ p + sz <= coalesce_ptr p pb + coalesce_size pb sz post
    /\ (forall x, ~ (p - 4 <= x < p) -> ~ (p + sz - 8 <= x < p + sz - 4) ->
                  ~ (coalesce_ptr p pb - 4 <= x < coalesce_ptr p pb) ->
                  ~ (coalesce_ptr p pb + coalesce_size pb sz post - 8 <= x
                     < coalesce_ptr p pb + coalesce_size pb sz post - 4) ->
                  mem s' x = mem s x).
Proof.
  intros Hok (Hnd & Hlive) Hin s'.
  pose proof (bound_total _ _ Hok) as (Hlt & Hpos).
  destruct (Hlive _ _ Hin) as (Hn & sz & Hb & Hroom).
  destruct (located_split _ _ _ _ Hb) as (pre0 & post & Ech & Ep).
  assert (Hpre0 : pre0 <> []).
  { intros ->. destruct (ok_first _ _ Hok) as (bs & E). rewrite E in Ech.
    inversion Ech. unfold DWORD in *. lia. }
  destruct (exists_last Hpre0) as (pre & pb & ->).
  pose proof (ok_layout _ _ Hok) as Hl. rewrite Ech in Hl.
  apply layout_app in Hl. rewrite <- Ep in Hl. destruct Hl as (Hl1 & Hl2).
  pose proof (layout_nonneg _ _ _ _ Hl1) as N1.
  pose proof (layout_length _ _ _ _ Hl1) as Len1.
  rewrite length_app in Len1. cbn [length] in Len1.
  pose proof (layout_last _ _ _ _ _ Hl1) as (_ & Hpb8 & _).
  destruct Hl2 as (H8 & Hm & (Hh & Hf) & Hl3). cbn [fst snd] in *.
  pose proof (layout_total _ _ _ _ Hl3) as T3.
  pose proof (layout_nonneg _ _ _ _ Hl3) as N3.
  assert (G : GET_SIZE (mem s) (HEAD p) = sz)
    by (apply (GET_SIZE_tag _ _ _ true); [lia | assumption | assumption]).
  exists pre, pb, sz, post.
  split; [rewrite Ech, <- app_assoc; reflexivity|]. split; [exact Ep|].
  split; [exact Hroom|].
  subst s'. unfold mm_free.
  replace (p =? 0) with false by (symmetry; apply Z.eqb_neq; lia).
  replace (heapL s =? 0) with false by (symmetry; apply Z.eqb_neq; lia).
  rewrite G. change (HF sz 0) with (tag sz false).
  set (m1 := WRITE (mem s) (HEAD p) (tag sz false)).
  assert (R1 : READ m1 (HEAD p) = tag sz false)
    by (apply READ_WRITE_tag; [lia | assumption]).
  assert (F1 : FOOT m1 p = p + sz - DWORD).
  { unfold FOOT. rewrite (GET_SIZE_tag m1 _ sz false); [reflexivity | lia | assumption | exact R1]. }
  rewrite F1. set (m2 := WRITE m1 (p + sz - DWORD) (tag sz false)).
  set (s2 := set_mem s m2).
  assert (Hagree : forall x, ~ (p - 4 <= x < p) -> ~ (p + sz - 8 <= x < p + sz - 4) ->
                             m2 x = mem s x).
  { intros x H1 H2. unfold m2, m1.
    rewrite !WRITE_other by (unfold HEAD, HFSIZE, DWORD; lia). reflexivity. }
  assert (L1 : layout (mem s2) (heapL s) (pre ++ [pb]) p).
  { apply (layout_ext (mem s)); [|exact Hl1]. intros x Hx. apply Hagree; lia. }
  assert (R2 : READ m2 (HEAD p) = tag sz false).
  { unfold m2. rewrite READ_WRITE_other by (unfold HEAD, HFSIZE, DWORD; lia). exact R1. }
  assert (L2 : layout (mem s2) p ((sz, false) :: post) (mem_brk s)).
  { cbn [layout]. unfold tagged. cbn [fst snd].
    split; [exact H8|]. split; [exact Hm|]. split; [split|].
    - exact R2.
    - unfold s2, m2. cbn [mem set_mem]. apply READ_WRITE_tag; [lia | assumption].
    - apply (layout_ext (mem s)); [|exact Hl3]. intros x Hx. apply Hagree; lia. }
  assert (E2 : READ (mem s2) (HEAD (mem_brk s)) = tag 0 true).
  { rewrite <- (ok_end _ _ Hok). apply READ_ext. intros x Hx.
    apply Hagree; unfold HEAD, HFSIZE in *; lia. }
  assert (Hsh : heap_shape s2 (pre ++ pb :: (sz, false) :: post)).
  { constructor; cbn [s2 set_mem mem mem_start_brk mem_brk mem_max_addr heapL trav].
    - exact (ok_start _ _ Hok).
    - exact (ok_heapL _ _ Hok).
    - destruct (ok_first _ _ Hok) as (bs & E). rewrite E in Ech.
      destruct pre as [|c pre]; simpl in Ech; inversion Ech; subst; eexists; reflexivity.
    - change (pre ++ pb :: (sz, false) :: post) with (pre ++ [pb] ++ (sz, false) :: post).
      rewrite app_assoc. apply layout_app. rewrite <- Ep. split; [exact L1 | exact L2].
    - exact E2.
    - exact (ok_max _ _ Hok).
    - pose proof (ok_trav _ _ Hok) as Ht. rewrite Ech in Ht.
      rewrite (positions_flip (pre ++ [pb]) sz true false) in Ht.
      rewrite <- app_assoc in Ht. exact Ht. }
  assert (Hadj : adjacent_free (pre ++ pb :: (sz, true) :: post) = false).
  { pose proof (ok_adjacent _ _ Hok) as Ha. rewrite Ech, <- app_assoc in Ha. exact Ha. }
  assert (Hlive2 : live_ok s2 (pre ++ pb :: (sz, false) :: post) (remove_ptr p L)).
  { split; [apply remove_ptr_NoDup; exact Hnd|].
    intros q k Hq. apply remove_ptr_In in Hq. destruct Hq as (Hq & Hne).
    destruct (Hlive _ _ Hq) as (Hk & bsz & Hqb & Hqr).
    split; [exact Hk|]. exists bsz. split; [|exact Hqr].
    cbn [s2 set_mem heapL]. rewrite Ech in Hqb.
    change (pre ++ pb :: (sz, false) :: post) with (pre ++ [pb] ++ (sz, false) :: post).
    rewrite app_assoc. apply (located_flip _ sz true false); [exact Hqb | lia]. }
  destruct (coalesce_ok s2 (remove_ptr p L) pre pb sz post Hsh Hadj Hlive2)
    as (C1 & C2 & _ & _ & C5 & C6 & C7 & C8).
  cbn [s2 set_mem heapL mem_brk mem_max_addr mem_start_brk] in C1, C2, C5, C6, C7, C8.
  rewrite <- Ep in C1, C2, C5, C6, C7, C8.
  destruct (coalesce_refines s2 (heapL s) pre pb sz post (mem_brk s)
              (sh_layout _ _ Hsh) (sh_end _ _ Hsh) Hlt) as (_ & _ & _ & Ct & _).
  rewrite <- Ep in Ct. cbn [s2 set_mem trav] in Ct.
  destruct (coalesce_mem s2 p (heapL s) pre pb sz post (mem_brk s) L1 L2 E2 Hlt)
    as (_ & M1 & _ & M3 & _).
  cbn [s2 set_mem mem] in M1, M3.
  split; [exact C1|]. split; [exact C2|]. split; [exact Ct|].
  split; [exact C5|]. split; [exact C6|]. split; [exact C7|]. split; [exact C8|].
  assert (Hk : 0 <= coalesce_size pb sz post < UINT_MOD /\ coalesce_size pb sz post mod 8 = 0
               /\ sz <= coalesce_size pb sz post).
  { pose proof (next_block_size _ _ _ _ Hl3) as (Hnr & Hnm).
    pose proof (layout_last _ _ _ _ _ Hl1) as (Hl0 & _ & Hpm & _).
    pose proof (layout_total _ _ _ _ Hl0) as T0.
    pose proof (layout_nonneg _ _ _ _ Hl0) as N0.
    unfold coalesce_size.
    destruct (snd pb), (snd (next_block post)); rewrite ?Z.add_0_r;
      (split; [lia | split; [|lia]]); repeat apply mod8_add; assumption. }
  destruct Hk as (Hk1 & Hk2 & Hk3).
  split.
  - destruct (snd pb) eqn:Ea.
    + unfold coalesce_ptr in M1. rewrite Ea in M1.
      apply (GET_ALLOC_tag _ _ (coalesce_size pb sz post) false); [exact Hk1 | exact Hk2 |].
      exact M1.
    + apply (GET_ALLOC_tag _ _ sz false); [lia | exact Hm |].
      rewrite <- R2. apply READ_ext. intros x Hx. apply M3.
      * unfold coalesce_ptr. rewrite Ea. unfold HEAD, HFSIZE in Hx. lia.
      * unfold coalesce_ptr. rewrite Ea. unfold HEAD, HFSIZE in Hx.
        unfold coalesce_size in *. rewrite Ea in *.
        destruct (snd (next_block post));
          pose proof (next_block_size _ _ _ _ Hl3) as (Hnr & _); lia.
  - split; [|split].
    + unfold coalesce_ptr. destruct (snd pb); lia.
    + pose proof (next_block_size _ _ _ _ Hl3) as (Hnr & _).
      unfold coalesce_ptr, coalesce_size.
      destruct (snd pb), (snd (next_block post)); lia.
    + intros x X1 X2 X3 X4. rewrite M3 by assumption. apply Hagree; assumption.
Qed.

(** [mm_init] on a provider that has granted nothing yet, with what it
    returns. *)
Lemma mm_init_full s :
  fresh s ->
  let s' := fst (mm_init w s) in
  let r := snd (mm_init w s) in
  heapL s' = mem_start_brk s + DWORD /\ trav s' = heapL s'
  /\ mem_start_brk s' = mem_start_brk s /\ mem_max_addr s' = mem_max_addr s
  /\ ((mem_start_brk s + 4 * HFSIZE + CHUNKSIZE <= mem_max_addr s
       /\ r = 0 /\ mem_brk s' = mem_start_brk s + 4 * HFSIZE + CHUNKSIZE
       /\ heap_ok s' [(8, true); (CHUNKSIZE, false)])
      \/ (mem_max_addr s < mem_start_brk s + 4 * HFSIZE + CHUNKSIZE
          /\ r = -1 /\ mem_brk s' = mem_start_brk s + 4 * HFSIZE
          /\ heap_ok s' [(8, true)])).
Proof.
  intros (Hh & Hb & H0 & H8 & Hroom & Hmax) s' r. subst s' r.
  unfold mm_init, mem_sbrk.
  replace (mem_brk s + 4 * HFSIZE <=? mem_max_addr s) with true
    by (symmetry; apply Z.leb_le; lia).
  cbn [set_heapL heapL mem]. rewrite Hb.
  set (b := mem_start_brk s) in *.
  replace (b =? -1) with false by (symmetry; apply Z.eqb_neq; lia).
  unfold set_trav, set_heapL, set_mem.
  cbn [heapL mem mem_start_brk mem_brk mem_max_addr trav].
  change (HF DWORD 1) with (tag 8 true). change (HF 0 1) with (tag 0 true).
  set (m4 := WRITE _ (b + 3 * HFSIZE) _).
  set (s4 := mkState m4 b (b + 4 * HFSIZE) (mem_max_addr s) (b + 2 * HFSIZE) (b + 2 * HFSIZE)).
  assert (R1 : READ m4 (b + 4) = tag 8 true).
  { unfold m4. repeat (rewrite READ_WRITE_other by (unfold HFSIZE; lia)).
    unfold HFSIZE. replace (b + 1 * 4) with (b + 4) by lia.
    apply READ_WRITE_tag; [unfold UINT_MOD; change (2 ^ 32) with 4294967296; lia | reflexivity]. }
  assert (R2 : READ m4 (b + 8) = tag 8 true).
  { unfold m4. repeat (rewrite READ_WRITE_other by (unfold HFSIZE; lia)).
    unfold HFSIZE. replace (b + 2 * 4) with (b + 8) by lia.
    apply READ_WRITE_tag; [unfold UINT_MOD; change (2 ^ 32) with 4294967296; lia | reflexivity]. }
  assert (R3 : READ m4 (b + 12) = tag 0 true).
  { unfold m4. unfold HFSIZE. replace (b + 3 * 4) with (b + 12) by lia.
    apply READ_WRITE_tag; [unfold UINT_MOD; change (2 ^ 32) with 4294967296; lia | reflexivity]. }
  assert (L4 : layout (mem s4) (b + 8) ([] ++ [(8, true)]) (mem_brk s4)).
  { cbn [app layout mem mem_brk s4]. unfold tagged. cbn [fst snd].
    unfold HEAD, HFSIZE, DWORD.
    replace (b + 8 - 4) with (b + 4) by lia. replace (b + 8 + 8 - 8) with (b + 8) by lia.
    repeat split; try assumption; try lia; try reflexivity. }
  assert (E4 : READ (mem s4) (HEAD (mem_brk s4)) = tag 0 true).
  { cbn [mem mem_brk s4]. unfold HEAD, HFSIZE. replace (b + 4 * 4 - 4) with (b + 12) by lia.
    exact R3. }
  assert (W : CHUNKSIZE / HFSIZE = 1024) by reflexivity.
  rewrite W.
  destruct (Z_le_gt_dec (mem_brk s4 + 1024 * HFSIZE) (mem_max_addr s4)) as [Hfit | Hfull].
  - (* the first growth succeeds *)
    assert (Hfit' : b + 16 + 4096 <= mem_max_addr s)
      by (unfold s4, HFSIZE in Hfit; cbn [mem_brk mem_max_addr] in Hfit; lia).
    pose proof (grow_heap_layout s4 (b + 8) [] (8, true) 1024 L4 E4) as G.
    cbv zeta in G.
    destruct G as (G1 & G2 & G3 & G4 & G5 & G6 & G7 & G8);
      try (cbn [mem_brk mem_max_addr s4] in *; unfold HFSIZE in *; lia);
      [reflexivity|].
    destruct (grow_heap w s4 1024) as (s5, r) eqn:Eg.
    cbn [fst snd] in *.
    assert (r <> NULL).
    { rewrite G1. unfold coalesce_ptr, NULL. cbn [snd mem_brk s4]. unfold HFSIZE. lia. }
    replace (r =? NULL) with false by (symmetry; apply Z.eqb_neq; assumption).
    cbn [fst snd].
    assert (Ech : coalesce_blocks [] (8, true) (1024 * HFSIZE) []
                  = [(8, true); (CHUNKSIZE, false)]) by reflexivity.
    rewrite Ech in G2. cbn [heapL s4] in G5. cbn [mem_brk s4] in G6, G3, G2.
    cbn [mem_max_addr s4] in G7. cbn [mem_start_brk s4] in G8.
    assert (Et : trav s5 = b + 2 * HFSIZE).
    { rewrite G4. unfold coalesce_trav. reflexivity. }
    split; [rewrite G5; unfold HFSIZE, DWORD; lia|].
    split; [rewrite Et, G5; reflexivity|].
    split; [exact G8|]. split; [exact G7|].
    left. split; [change CHUNKSIZE with 4096; unfold HFSIZE; lia|].
    split; [reflexivity|].
    split; [rewrite G6; change CHUNKSIZE with 4096; unfold HFSIZE; lia|].
    apply heap_ok_intro.
    + rewrite G8. split; assumption.
    + rewrite G5, G8. unfold HFSIZE. lia.
    + eexists. reflexivity.
    + rewrite G5, G6. unfold HFSIZE in *. replace (b + 2 * 4) with (b + 8) by lia. exact G2.
    + rewrite G6. exact G3.
    + rewrite G6, G7, G8. unfold HFSIZE in *. split; [lia | assumption].
    + reflexivity.
    + rewrite Et, G5. left. reflexivity.
  - (* the provider has no room for the first chunk *)
    rewrite grow_heap_fail;
      [| reflexivity
       | unfold HFSIZE; pose proof UINT_MOD_le_SIZE_MOD; unfold UINT_MOD in *;
         change (2 ^ 32) with 4294967296 in *; lia
       | fold s4; lia].
    cbn [Z.eqb NULL fst snd]. fold s4.
    cbn [s4 mem_start_brk heapL mem_brk mem_max_addr trav mem].
    split; [unfold HFSIZE, DWORD; lia|].
    split; [reflexivity|]. split; [reflexivity|]. split; [reflexivity|].
    right.
    split; [unfold s4 in Hfull; cbn [mem_brk mem_max_addr] in Hfull;
            change CHUNKSIZE with 4096; unfold HFSIZE in *; lia|].
    split; [reflexivity|]. split; [reflexivity|].
    apply heap_ok_intro; cbn [s4 mem_start_brk heapL mem_brk mem_max_addr trav mem].
    + split; assumption.
    + unfold HFSIZE. lia.
    + eexists. reflexivity.
    + replace (b + 2 * HFSIZE) with (b + 8) by (unfold HFSIZE; lia). exact L4.
    + exact E4.
    + unfold HFSIZE in *. split; [lia | assumption].
    + reflexivity.
    + left. reflexivity.
Qed.

(** The block that [put] has made at [p]: allocated, of [adj] bytes or of
    [adj] and eight bytes more. *)
Lemma placed_block_size s pre sz adj post p :
  heap_ok s (pre ++ put_blocks sz adj ++ post) -> p = heapL s + total pre ->
  adj <= sz -> adj mod 8 = 0 ->
  GET_ALLOC (mem s) (HEAD p) = 1
  /\ adj <= GET_SIZE (mem s) (HEAD p) <= adj + DWORD
  /\ GET_SIZE (mem s) (HEAD p) <= sz.
Proof.
  intros Hok -> Hsz Ha8.
  pose proof (bound_total _ _ Hok) as (Hlt & Hpos).
  assert (Hin : exists b, In (heapL s + total pre, (b, true))
                             (located (heapL s) (pre ++ put_blocks sz adj ++ post))
                          /\ adj <= b <= sz /\ (b = adj \/ sz - adj < 2 * DWORD /\ b = sz)).
  { unfold put_blocks. destruct (2 * DWORD <=? sz - adj) eqn:E.
    - exists adj. split; [apply located_mid|]. split; [lia | left; reflexivity].
    - apply Z.leb_gt in E. exists sz. split; [apply located_mid|].
      split; [lia | right; split; [exact E | reflexivity]]. }
  destruct Hin as (b & Hin & Hb & Hcase).
  destruct (located_header _ _ _ _ _ _ _ (ok_layout _ _ Hok) Hin) as (Hh & Hr & Hm8).
  rewrite (GET_SIZE_tag _ _ b true); [| lia | exact Hm8 | exact Hh].
  split; [apply (GET_ALLOC_tag _ _ b true); [lia | exact Hm8 | exact Hh]|].
  split; [|lia]. split; [lia|].
  destruct Hcase as [-> | (E & ->)]; [unfold DWORD; lia|].
  unfold DWORD in *.
  pose proof (Z.div_mod sz 8) as D1. pose proof (Z.div_mod adj 8) as D2.
  rewrite Hm8 in D1. rewrite Ha8 in D2. lia.
Qed.


(** The heap on which [mm_malloc] searches, from a state that satisfies the
    invariant: the state itself, or the state after [mm_init]. *)
Lemma malloc_from_inv s L fuel size :
  heap_inv s L ->
  exists s0 ch,
    heap_ok s0 ch /\ live_ok s0 ch L
    /\ mm_malloc w fuel s size = mm_malloc w fuel s0 size
    /\ (s0 = s \/ (L = [] /\ fresh s /\ s0 = fst (mm_init w s))).
Proof.
  intros [(Hf & ->) | (ch & Hok & Hlive)].
  - destruct (mm_init_ok s Hf) as (ch & Hok & _).
    exists (fst (mm_init w s)), ch. split; [exact Hok|].
    split; [apply live_ok_nil|]. split; [apply mm_malloc_fresh; exact Hf|].
    right. split; [reflexivity | split; [exact Hf | reflexivity]].
  - exists s, ch. split; [exact Hok|]. split; [exact Hlive|].
    split; [reflexivity | left; reflexivity].
Qed.



(** Where a list of blocks of positive sizes is cut is decided by the
    bytes before the cut. *)
Lemma split_unique (A : list block) :
  forall A' b b' B B',
    Forall (fun x : block => 8 <= fst x) (A ++ b :: B) ->
    A ++ b :: B = A' ++ b' :: B' -> total A = total A' ->
    A = A' /\ b = b' /\ B = B'.
Proof.
  induction A as [|a A IH]; intros A' b b' B B' Hall E Ht.
  - destruct A' as [|c A'].
    + simpl in E. inversion E. repeat split.
    + exfalso. simpl in E. inversion E; subst.
      simpl in Hall. inversion Hall as [|? ? Hc Hrest]; subst.
      apply Forall_app in Hrest. destruct Hrest as (Hrest & _).
      assert (0 <= total A').
      { clear - Hrest. induction Hrest as [|x l Hx _ IHl]; simpl; lia. }
      simpl in Ht. lia.
  - destruct A' as [|c A'].
    + exfalso. simpl in E. inversion E; subst.
      simpl in Hall. inversion Hall as [|? ? Hc Hrest]; subst.
      apply Forall_app in Hrest. destruct Hrest as (Hrest & _).
      assert (0 <= total A).
      { clear - Hrest. induction Hrest as [|x l Hx _ IHl]; simpl; lia. }
      simpl in Ht. lia.
    + simpl in E. inversion E; subst. simpl in Hall. inversion Hall; subst.
      simpl in Ht.
      destruct (IH A' b b' B B') as (-> & -> & ->); [assumption | assumption | lia |].
      repeat split.
Qed.

(** [mm_malloc] that finds a block, then [mm_free] of the block: the list
    of blocks is the one before. *)
Lemma malloc_free_blocks s ch L size fuel s1 p :
  heap_ok s ch -> live_ok s ch L -> 0 < size <= SIZE_MAX w - 15 ->
  mm_malloc w fuel s size = Some (s1, p) -> p <> NULL -> mem_brk s1 = mem_brk s ->
  heap_ok (mm_free w s1 p) ch
  /\ mem_brk (mm_free w s1 p) = mem_brk s /\ heapL (mm_free w s1 p) = heapL s.
Proof.
  intros Hok Hlive Hsize Hm Hp Hbrk.
  destruct (adj_size_range size Hsize) as (A16 & A8 & _).
  destruct (malloc_cases s ch L size fuel s1 p Hok Hlive Hsize Hm)
    as [(E & _) | [(_ & _ & pre & sz & post & E & Ep & Hsz & H1 & H2 & _ & Eh & _)
                 | (_ & Eb & _)]].
  - contradiction.
  - set (adj := adj_size w size) in *.
    destruct (free_step s1 _ ((p, size) :: L) p size H1 H2 (or_introl eq_refl))
      as (pre' & pb' & sz' & post' & E1 & Ep1 & _ & Hok' & _ & _ & Eh' & Eb' & _).
    pose proof (layout_sizes _ _ _ _ (ok_layout _ _ H1)) as Hall.
    pose proof (ok_adjacent _ _ Hok) as Hadj. rewrite E in Hadj.
    apply adjacent_free_mid_free in Hadj. destruct Hadj as (_ & Hla & Hna & _).
    assert (Ht : total pre = total (pre' ++ [pb'])) by lia.
    assert (E1' : pre ++ put_blocks sz adj ++ post
                  = (pre' ++ [pb']) ++ (sz', true) :: post')
      by (rewrite E1, <- app_assoc; reflexivity).
    clear E1. rename E1' into E1.
    assert (Hres : coalesce_blocks pre' pb' sz' post' = ch).
    { unfold put_blocks in E1, Hall.
      destruct (2 * DWORD <=? sz - adj) eqn:Es.
      - cbn [app] in E1, Hall.
        destruct (split_unique pre _ _ _ _ _ Hall E1 Ht) as (Epre & Eb1 & Epost).
        inversion Eb1; subst sz'. subst post'.
        rewrite Epre in Hla. rewrite last_alloc_snoc in Hla.
        unfold coalesce_blocks, coalesce_size. rewrite Hla. cbn [next_block snd fst tl].
        rewrite E, Epre.
        replace (adj + 0 + (sz - adj)) with sz by lia. reflexivity.
      - cbn [app] in E1, Hall.
        destruct (split_unique pre _ _ _ _ _ Hall E1 Ht) as (Epre & Eb1 & Epost).
        inversion Eb1; subst sz'. subst post'.
        rewrite Epre in Hla. rewrite last_alloc_snoc in Hla.
        unfold coalesce_blocks, coalesce_size. rewrite Hla, Hna.
        rewrite E, Epre. rewrite !Z.add_0_r. reflexivity. }
    rewrite Hres in Hok'. split; [exact Hok'|]. split; lia.
  - exfalso. rewrite Eb in Hbrk. change CHUNKSIZE with 4096 in Hbrk. lia.
Qed.


(** [grow_heap] rounds an odd number of words up to the next even one. *)
Lemma grow_heap_odd s words :
  words mod 2 = 1 -> 0 <= words -> (words + 1) * HFSIZE < UINT_MOD ->
  grow_heap w s words = grow_heap w s (words + 1).
Proof.
  intros Ho H0 Hlt. unfold grow_heap.
  assert (He : (words + 1) mod 2 = 0).
  { pose proof (Z.div_mod words 2). pose proof (Z.div_mod (words + 1) 2).
    pose proof (Z.mod_pos_bound (words + 1) 2). lia. }
  rewrite Ho, He. cbn [Z.eqb negb].
  rewrite (wrap_small (words + 1)) by (unfold HFSIZE in *; lia).
  reflexivity.
Qed.

(** [grow_heap] on a well-formed heap, for any number of words. *)
Lemma grow_heap_any s ch L words :
  heap_ok s ch -> live_ok s ch L ->
  1 <= words -> (words + 1) * HFSIZE < UINT_MOD ->
  let size := HFSIZE * (words + words mod 2) in
  let s' := fst (grow_heap w s words) in
  let r := snd (grow_heap w s words) in
  size mod 8 = 0 /\ HFSIZE * words <= size
  /\ (mem_max_addr s < mem_brk s + size -> s' = s /\ r = NULL)
  /\ (mem_brk s + size <= mem_max_addr s ->
      exists pre n,
        heap_ok s' (pre ++ [(n, false)]) /\ live_ok s' (pre ++ [(n, false)]) L
        /\ r = heapL s' + total pre /\ size <= n
        /\ heapL s' = heapL s /\ mem_brk s' = mem_brk s + size
        /\ (forall q bsz, In (q, (bsz, true)) (located (heapL s) ch) -> q + bsz <= r)
        /\ (forall x, x < r - 4 -> mem s' x = mem s x)).
Proof.
  intros Hok Hlive H1 Hlt size s' r.
  pose proof (Z.mod_pos_bound words 2) as Hb.
  pose proof (Z.div_mod words 2 ltac:(lia)) as Hdm.
  assert (Hcases : words mod 2 = 0 \/ words mod 2 = 1) by lia.
  set (words' := words + words mod 2) in *.
  assert (He : words' mod 2 = 0).
  { subst words'. pose proof (Z.div_mod words 2).
    pose proof (Z.div_mod (words + words mod 2) 2).
    pose proof (Z.mod_pos_bound (words + words mod 2) 2). lia. }
  assert (Eg : grow_heap w s words = grow_heap w s words').
  { subst words'. destruct Hcases as [E | E]; rewrite E.
    - rewrite Z.add_0_r. reflexivity.
    - apply grow_heap_odd; [exact E | lia | exact Hlt]. }
  assert (Es : size = words' * HFSIZE) by (subst size; lia).
  subst s' r. rewrite Eg.
  split.
  { rewrite Es. unfold HFSIZE. pose proof (Z.div_mod words' 2). rewrite He in H.
    replace (words' * 4) with (words' / 2 * 8) by lia. apply Z.mod_mul. lia. }
  split; [subst size words'; unfold HFSIZE; lia|].
  split.
  - intros Hfull. rewrite grow_heap_fail;
      [split; reflexivity | exact He | | rewrite <- Es; exact Hfull].
    pose proof UINT_MOD_le_SIZE_MOD. subst words'. unfold HFSIZE in *. lia.
  - intros Hroom.
    destruct (grow_ok s ch L words' Hok Hlive He)
      as (pre & n & G1 & G2 & G3 & G4 & G5 & G6 & _);
      [subst words'; unfold HFSIZE; lia | rewrite <- Es; exact Hroom |].
    destruct (grow_result_above s ch words' Hok He) as (Ha & Hf);
      [subst words'; unfold HFSIZE; lia | rewrite <- Es; exact Hroom |].
    exists pre, n. rewrite Es.
    split; [exact G1|]. split; [exact G2|]. split; [exact G3|]. split; [exact G4|].
    split; [exact G5|]. split; [exact G6|]. split; [exact Ha | exact Hf].
Qed.

End Refinement.

(** * The documented properties *)

(** ** Conservation of the heap's bytes *)

(** C9, as the code has it.  At every state the application can reach with
    requests whose adjusted size does not wrap, once the heap is initialised,
    the forward scan from the first real block to the end header terminates
    and the sizes of the blocks it sees add up to the bytes granted by the
    provider less the sixteen bytes of the skeleton that [mm_init] lays
    (padding word, start block, end header). *)
Theorem block_sizes_sum (w : Z) (s : state) (L : list (Z * Z)) :
  32 <= w -> reachable w s L -> heapL s <> 0 ->
  exists bs,
    (forall fuel, (length bs < fuel)%nat ->
                  block_list fuel (mem s) (heapL s + DWORD) = Some bs)
    /\ total bs = (mem_brk s - mem_start_brk s) - 4 * HFSIZE.
Proof.
  intros Hw Hr Hh.
  destruct (heap_inv_initialised s L (reachable_inv w Hw s L Hr) Hh)
    as (ch & Hok & _).
  destruct (heap_ok_scan s ch Hok) as (bs & _ & Hscan & Htot & _).
  exists bs. split; assumption.
Qed.

(** ** Immediate coalescing *)

(** X6.  For requests whose adjusted size does not wrap, the forward scan
    never meets two consecutive free blocks. *)
Theorem no_adjacent_free_blocks (w : Z) (s : state) (L : list (Z * Z)) :
  32 <= w -> reachable w s L -> heapL s <> 0 ->
  exists bs,
    (forall fuel, (length bs < fuel)%nat ->
                  block_list fuel (mem s) (heapL s + DWORD) = Some bs)
    /\ adjacent_free bs = false.
Proof.
  intros Hw Hr Hh.
  destruct (heap_inv_initialised s L (reachable_inv w Hw s L Hr) Hh)
    as (ch & Hok & _).
  destruct (heap_ok_scan s ch Hok) as (bs & _ & Hscan & _ & Hadj).
  exists bs. split; assumption.
Qed.

(** ** Alignment and minimum block size *)

(** X7.  For requests whose adjusted size does not wrap, the pointer that
    [mm_malloc] returns is a multiple of eight, and its block is allocated,
    holds the request and is at least sixteen bytes long. *)
Theorem malloc_aligned (w : Z) (s : state) (L : list (Z * Z))
  (fuel : nat) (size : Z) (s' : state) (p : Z) :
  32 <= w -> reachable w s L -> 0 < size <= SIZE_MAX w - 15 ->
  mm_malloc w fuel s size = Some (s', p) -> p <> NULL ->
  p mod DWORD = 0
  /\ GET_ALLOC (mem s') (HEAD p) = 1
  /\ 2 * DWORD <= GET_SIZE (mem s') (HEAD p)
  /\ size + DWORD <= GET_SIZE (mem s') (HEAD p).
Proof.
  intros Hw Hr Hsize Hm Hp.
  destruct (malloc_result w Hw s L fuel size s' p (reachable_inv w Hw s L Hr) Hsize Hm Hp)
    as (ch & bsz & Hok & Hin & Hb).
  destruct (adj_size_range w Hw size Hsize) as (A16 & _ & Aroom & _).
  pose proof (bound_total s' ch Hok) as (Hlt & _).
  destruct (located_header _ _ _ _ _ _ _ (ok_layout _ _ Hok) Hin) as (R & B & M).
  destruct (ok_start _ _ Hok) as (_ & Hal). pose proof (ok_heapL _ _ Hok) as Hh.
  assert (G : GET_SIZE (mem s') (HEAD p) = bsz)
    by (apply (GET_SIZE_tag _ _ _ true); [lia | assumption | assumption]).
  rewrite G. split; [|split; [|split; lia]].
  - unfold DWORD.
    apply (located_aligned _ _ _ _ p (bsz, true) (ok_layout _ _ Hok)); [|exact Hin].
    rewrite Hh. apply mod8_add; [exact Hal | reflexivity].
  - apply (GET_ALLOC_tag _ _ bsz true); [lia | assumption | assumption].
Qed.

(** ** The fit search *)

(** C3.  On a laid-out heap, with fuel for one pass over the list, [fit]
    returns what the specification describes: the first free block of at
    least [adj] bytes met from the cursor toward the end header, else the
    first one met from the first real block up to, not including, the cursor,
    else [NULL].  The cursor moves to the block found and stays where it was
    when nothing fits. *)
Theorem fit_is_next_fit (s : state) (bs : list block) (adj : Z) (fuel : nat) :
  heap_shape s ((8, true) :: bs) -> (S (length bs) < fuel)%nat ->
  let r := fit_spec adj (located (heapL s + DWORD) bs) (trav s) in
  fit fuel s adj = Some (set_trav s (if r =? NULL then trav s else r), r).
Proof.
  intros Hsh Hfuel r.
  assert (Hlt : mem_brk s - heapL s < UINT_MOD /\ 0 < heapL s).
  { destruct (sh_start _ _ Hsh). pose proof (sh_heapL _ _ Hsh).
    destruct (sh_max _ _ Hsh). lia. }
  destruct Hlt as (Hlt & Hpos).
  pose proof (sh_trav _ _ Hsh) as Ht. apply in_map_iff in Ht.
  destruct Ht as ((t & b) & Et & Hb). cbn [fst] in Et. subst t.
  destruct (located_split _ _ _ _ Hb) as (c1 & c2 & Ech & Etrav).
  pose proof (sh_layout _ _ Hsh) as Hl.
  assert (Hl' : layout (mem s) (heapL s) (c1 ++ b :: c2) (mem_brk s))
    by (rewrite <- Ech; exact Hl).
  rewrite (fit_layout s adj c1 (b :: c2) fuel Hl' (sh_end _ _ Hsh) Hlt Etrav)
    by (rewrite <- Ech; exact Hfuel).
  assert (Er : r = match next_fit adj (heapL s) c1 (b :: c2) with
                   | Some p => p
                   | None => NULL
                   end).
  { subst r. rewrite Etrav.
    apply (next_fit_spec (mem s) adj (heapL s) bs c1 (b :: c2) (mem_brk s) Hl Ech).
    discriminate. }
  destruct (next_fit adj (heapL s) c1 (b :: c2)) as [p|] eqn:En.
  - pose proof (next_fit_not_NULL _ _ _ _ _ _ _ _ Hl Ech Hpos En) as Hp.
    rewrite Er. replace (p =? NULL) with false by (symmetry; apply Z.eqb_neq; exact Hp).
    reflexivity.
  - rewrite Er. reflexivity.
Qed.

(** ** Placement *)

(** C5.  [put] on a free block of [csize] bytes and an adjusted request of
    [adj] bytes that fits: when at least sixteen bytes are left over, the
    first [adj] bytes become an allocated block and the remainder a free
    block, each with its own header and footer; otherwise the whole block
    becomes allocated.  No other byte of memory changes. *)
Theorem put_splits_or_fills (w : Z) (s : state) (ptr csize adj : Z) :
  32 <= w ->
  READ (mem s) (HEAD ptr) = HF csize 0 ->
  0 <= csize < UINT_MOD -> csize mod DWORD = 0 ->
  DWORD <= adj <= csize -> adj mod DWORD = 0 ->
  let m' := mem (put w s ptr adj) in
  put w s ptr adj = set_mem s m'
  /\ (if 2 * DWORD <=? csize - adj
      then READ m' (HEAD ptr) = HF adj 1
           /\ READ m' (ptr + adj - DWORD) = HF adj 1
           /\ READ m' (HEAD (ptr + adj)) = HF (csize - adj) 0
           /\ READ m' (ptr + csize - DWORD) = HF (csize - adj) 0
           /\ (forall x, ~ (ptr - 4 <= x < ptr) -> ~ (ptr + adj - 8 <= x < ptr + adj) ->
                         ~ (ptr + csize - 8 <= x < ptr + csize - 4) ->
                         m' x = mem s x)
      else READ m' (HEAD ptr) = HF csize 1
           /\ READ m' (ptr + csize - DWORD) = HF csize 1
           /\ (forall x, ~ (ptr - 4 <= x < ptr) ->
                         ~ (ptr + csize - 8 <= x < ptr + csize - 4) ->
                         m' x = mem s x)).
Proof.
  intros Hw Hh Hc Hcm Ha Ham.
  exact (put_mem w Hw s ptr csize adj Hh Hc Hcm Ha Ham).
Qed.

(** ** Reallocation when the provider is exhausted *)

(** C7.  From a state the application can reach, for a block [ptr] it holds
    and any request [size > 0]: when the inner [mm_malloc] returns [NULL],
    [mm_realloc] returns [NULL] and the whole state is as before the call,
    so the block at [ptr] is still allocated and every byte is unchanged. *)
Theorem realloc_failure_keeps_block (w : Z) (s : state) (L : list (Z * Z))
  (fuel : nat) (ptr n size : Z) (s1 : state) :
  32 <= w -> reachable w s L -> In (ptr, n) L -> 0 < size ->
  mm_malloc w fuel s size = Some (s1, NULL) ->
  mm_realloc w fuel s ptr size = Some (s1, NULL)
  /\ s1 = s
  /\ GET_ALLOC (mem s1) (HEAD ptr) = 1
  /\ n + DWORD <= GET_SIZE (mem s1) (HEAD ptr)
  /\ (forall x, mem s1 x = mem s x).
Proof.
  intros Hw Hr Hin Hsize Hm.
  destruct (reachable_inv w Hw s L Hr) as [(_ & ->) | (ch & Hok & Hlive)];
    [contradiction|].
  pose proof (live_ptr_pos s ch L ptr n Hok Hlive Hin) as Hpos.
  assert (Es : s1 = s).
  { apply (malloc_fails_unchanged w Hw s ch size fuel s1 Hok); [lia | exact Hm]. }
  split.
  - unfold mm_realloc.
    replace (size =? 0) with false by (symmetry; apply Z.eqb_neq; lia).
    replace (ptr =? NULL) with false by (symmetry; apply Z.eqb_neq; unfold NULL; lia).
    rewrite Hm. reflexivity.
  - subst s1. split; [reflexivity|].
    destruct Hlive as (_ & Hlive). destruct (Hlive _ _ Hin) as (_ & sz & Hb & Hroom).
    pose proof (bound_total s ch Hok) as (Hlt & _).
    destruct (located_header _ _ _ _ _ _ _ (ok_layout _ _ Hok) Hb) as (R & B & M).
    split; [|split; [|reflexivity]].
    + apply (GET_ALLOC_tag _ _ sz true); [lia | assumption | assumption].
    + rewrite (GET_SIZE_tag _ _ sz true); [exact Hroom | lia | assumption | assumption].
Qed.

(** ** Growing the heap when nothing fits *)

(** On an initialised heap: a miss makes [mm_malloc] ask for
    [max adj CHUNKSIZE] bytes and place the request in the block that ends
    at the new break. *)
Lemma malloc_miss_grows (w : Z) (s : state) (L : list (Z * Z))
  (size : Z) (fuel : nat) (s1 : state) :
  32 <= w -> reachable w s L -> heapL s <> 0 ->
  0 < size <= SIZE_MAX w - 15 ->
  fit fuel s (adj_size w size) = Some (s1, NULL) ->
  let adj := adj_size w size in
  let g := Z.max adj CHUNKSIZE in
  g / HFSIZE * HFSIZE = g
  /\ (snd (mem_sbrk s g) = -1 -> mm_malloc w fuel s size = Some (s, NULL))
  /\ (snd (mem_sbrk s g) <> -1 ->
      exists s' p pre n,
        mm_malloc w fuel s size = Some (s', p)
        /\ p <> NULL /\ mem_brk s' = mem_brk s + g
        /\ p = heapL s + total pre /\ p <= mem_brk s /\ p + n = mem_brk s'
        /\ heap_ok s' (pre ++ put_blocks n adj)
        /\ live_ok s' (pre ++ put_blocks n adj) ((p, size) :: L)).
Proof.
  intros Hw Hr Hh Hsize Hf adj g.
  destruct (heap_inv_initialised s L (reachable_inv w Hw s L Hr) Hh)
    as (ch & Hok & Hlive).
  destruct (adj_size_range w Hw size Hsize) as (A16 & A8 & _).
  destruct (growsize_words adj) as (_ & Wm & _); [unfold DWORD in A16; fold adj in A16; lia | exact A8 |].
  rewrite growsize_max in Wm. fold g in Wm.
  destruct (malloc_miss w Hw s ch L size fuel s1 Hok Hlive Hsize Hf) as (M1 & M2).
  fold adj in M1, M2. fold g in M1, M2.
  pose proof (bound_total s ch Hok) as (_ & Hpos).
  pose proof (layout_total _ _ _ _ (ok_layout _ _ Hok)) as T.
  pose proof (layout_nonneg _ _ _ _ (ok_layout _ _ Hok)) as N.
  split; [exact Wm|]. unfold mem_sbrk.
  destruct (mem_brk s + g <=? mem_max_addr s) eqn:E; cbn [snd].
  - apply Z.leb_le in E. split; [intros Hneg; lia | intros _; exact (M2 E)].
  - apply Z.leb_gt in E. split; [intros _; apply M1; lia | intros Hneg; contradiction].
Qed.

Lemma mm_malloc_init (w : Z) (s : state) (fuel : nat) (size : Z) :
  heapL s = 0 -> heapL (fst (mm_init w s)) <> 0 ->
  mm_malloc w fuel s size = mm_malloc w fuel (fst (mm_init w s)) size.
Proof.
  intros H0 H1. unfold mm_malloc.
  apply Z.eqb_eq in H0. apply Z.eqb_neq in H1. rewrite H0, H1. reflexivity.
Qed.

(** C8, as the code has it.  From a state [s] the application can reach,
    let [s0] be the heap on which [mm_malloc] searches: [s] itself, or [s]
    after [mm_init] when the heap is not initialised yet.  When the search
    finds no block for a request whose adjusted size [adj] does not wrap,
    [mm_malloc] asks [grow_heap] for [max adj CHUNKSIZE / HFSIZE] header
    words, that is [max adj CHUNKSIZE] bytes.  When the provider refuses,
    [mm_malloc] returns [NULL] and leaves the heap as it was.  Otherwise the
    break moves up by exactly [max adj CHUNKSIZE] bytes and the request is
    placed at the start [p] of the free block that ends at the new break:
    the grown block, merged with the free block in front of it when there
    is one. *)
Theorem malloc_grows_on_miss (w : Z) (s : state) (L : list (Z * Z))
  (size : Z) (fuel : nat) (s1 : state) :
  32 <= w -> reachable w s L ->
  let s0 := if heapL s =? 0 then fst (mm_init w s) else s in
  heapL s0 <> 0 ->
  0 < size <= SIZE_MAX w - 15 ->
  fit fuel s0 (adj_size w size) = Some (s1, NULL) ->
  let adj := adj_size w size in
  let g := Z.max adj CHUNKSIZE in
  g / HFSIZE * HFSIZE = g
  /\ (snd (mem_sbrk s0 g) = -1 -> mm_malloc w fuel s size = Some (s0, NULL))
  /\ (snd (mem_sbrk s0 g) <> -1 ->
      exists s' p pre n,
        mm_malloc w fuel s size = Some (s', p)
        /\ p <> NULL /\ mem_brk s' = mem_brk s0 + g
        /\ p = heapL s0 + total pre /\ p <= mem_brk s0 /\ p + n = mem_brk s'
        /\ heap_ok s' (pre ++ put_blocks n adj)
        /\ live_ok s' (pre ++ put_blocks n adj) ((p, size) :: L)).
Proof.
  intros Hw Hr s0. destruct (heapL s =? 0) eqn:E; subst s0; intros Hh Hsize Hf.
  - apply Z.eqb_eq in E. rewrite (mm_malloc_init w s fuel size E Hh).
    exact (malloc_miss_grows w (fst (mm_init w s)) L size fuel s1 Hw
             (reach_init w s L Hr E) Hh Hsize Hf).
  - exact (malloc_miss_grows w s L size fuel s1 Hw Hr Hh Hsize Hf).
Qed.

(** ** The search cursor *)

(** X18.  A coalescing step on a laid-out heap whose block at [ptr] has just
    become free: [coalesce] returns the start [r] of the merged block, of
    [n] bytes; a cursor strictly inside the merged span moves to [r], any
    other cursor stays; afterwards the heap is laid out again and its cursor
    is the address of one of its blocks.  And at every initialised state [s]
    the application can reach with requests whose adjusted size does not
    wrap, the heap is well formed, so its cursor is the address of a block,
    between the start of the heap and the end header. *)
Theorem cursor_follows_merge (w : Z) (s : state) (L : list (Z * Z))
  (s1 : state) (pre : list block) (pb : block) (sz : Z) (post : list block) :
  32 <= w ->
  heap_shape s1 (pre ++ pb :: (sz, false) :: post) ->
  reachable w s L -> heapL s <> 0 ->
  let ptr := heapL s1 + total (pre ++ [pb]) in
  let r := snd (coalesce w s1 ptr) in
  let s1' := fst (coalesce w s1 ptr) in
  let n := coalesce_size pb sz post in
  (r = coalesce_ptr ptr pb
   /\ heap_shape s1' (coalesce_blocks pre pb sz post)
   /\ In (r, (n, false)) (located (heapL s1') (coalesce_blocks pre pb sz post))
   /\ (r < trav s1 < r + n -> trav s1' = r)
   /\ (~ (r < trav s1 < r + n) -> trav s1' = trav s1)
   /\ In (trav s1') (map fst (located (heapL s1') (coalesce_blocks pre pb sz post))))
  /\ (exists ch, heap_ok s ch
                 /\ In (trav s) (map fst (located (heapL s) ch))
                 /\ heapL s <= trav s < mem_brk s).
Proof.
  intros Hw Hsh Hr Hh ptr r s1' n. split.
  - destruct (coalesce_shape w Hw s1 pre pb sz post Hsh)
      as (Hsh' & Er & Hres & Hin & Hout & _).
    fold ptr in Er, Hres, Hin, Hout. fold r in Er.
    rewrite <- Er in Hres, Hin, Hout.
    split; [exact Er|]. split; [exact Hsh'|]. split; [exact Hres|].
    split; [exact Hin|]. split; [exact Hout|]. exact (sh_trav _ _ Hsh').
  - destruct (heap_inv_initialised s L (reachable_inv w Hw s L Hr) Hh)
      as (ch & Hok & _).
    exists ch. split; [exact Hok|]. split; [exact (ok_trav _ _ Hok)|].
    pose proof (ok_trav _ _ Hok) as Ht. apply in_map_iff in Ht.
    destruct Ht as ((t & b) & Et & Hb). cbn [fst] in Et. subst t.
    pose proof (located_range _ _ _ _ _ _ (ok_layout _ _ Hok) Hb). lia.
Qed.

(** ** Requests near the maximum of [size_t] *)

(** C10.  For every request above [SIZE_MAX - 15] the sum
    [size + DWORD + (DWORD-1)] wraps modulo [2^w], so that the adjusted size
    is smaller than the request: it is 0 up to [SIZE_MAX - 7] and 8 above.
    On a fresh state with room for the first chunk, [mm_malloc] then returns
    a pointer that is not [NULL], the first block of the heap, sixteen bytes
    above the start of the provider's region: for adjusted size 8 an
    allocated block of eight bytes, with no payload, and for adjusted size 0
    the first chunk, which [put] has left free.  Either way the size of the
    block less header and footer is smaller than the request. *)
Theorem adjusted_size_wraps (w : Z) (s : state) (size : Z) (fuel : nat) :
  32 <= w ->
  fresh s -> mem_start_brk s + 4 * HFSIZE + CHUNKSIZE <= mem_max_addr s ->
  SIZE_MAX w - 15 < size <= SIZE_MAX w -> (2 < fuel)%nat ->
  adj_size w size = DWORD * ((size + DWORD + (DWORD - 1) - SIZE_MOD w) / DWORD)
  /\ adj_size w size = (if size <=? SIZE_MAX w - 7 then 0 else DWORD)
  /\ adj_size w size < size
  /\ exists s' p,
       mm_malloc w fuel s size = Some (s', p) /\ p <> NULL
       /\ p = mem_start_brk s + 2 * DWORD
       /\ GET_SIZE (mem s') (HEAD p) = (if size <=? SIZE_MAX w - 7 then CHUNKSIZE else DWORD)
       /\ GET_ALLOC (mem s') (HEAD p) = (if size <=? SIZE_MAX w - 7 then 0 else 1)
       /\ GET_SIZE (mem s') (HEAD p) - DWORD < size.
Proof.
  intros Hw Hf Hroom Hs Hfuel.
  destruct (adj_size_wrapped w Hw size Hs) as (E & Hadj & Hlt).
  pose proof (UINT_MOD_le_SIZE_MOD w Hw) as Hle.
  assert (Hu : UINT_MOD = 4294967296) by reflexivity.
  assert (Ea : adj_size w size = (if size <=? SIZE_MAX w - 7 then 0 else DWORD)).
  { rewrite E. unfold SIZE_MAX in *. unfold DWORD.
    set (k := size + 15 - SIZE_MOD w). assert (Hk : 0 <= k <= 14) by (subst k; lia).
    pose proof (Z.div_mod k 8 ltac:(lia)) as D.
    pose proof (Z.mod_pos_bound k 8 ltac:(lia)) as B.
    destruct (size <=? SIZE_MOD w - 1 - 7) eqn:C.
    - apply Z.leb_le in C. assert (k <= 7) by (subst k; lia). lia.
    - apply Z.leb_gt in C. assert (8 <= k) by (subst k; lia). lia. }
  split; [rewrite E; unfold DWORD; do 2 f_equal; lia|].
  split; [exact Ea|]. split; [exact Hlt|].
  destruct (malloc_wrapped w Hw s size fuel Hf Hroom Hs Hfuel) as (s' & Hm & Hr).
  exists s', (mem_start_brk s + 2 * DWORD). split; [exact Hm|].
  destruct Hf as (_ & _ & H0 & _).
  split; [unfold NULL, DWORD; lia|]. split; [reflexivity|].
  rewrite Ea in Hr. unfold SIZE_MAX in *.
  destruct (size <=? SIZE_MOD w - 1 - 7).
  - change (0 =? 0) with true in Hr. cbv iota in Hr.
    assert (Hc : 0 <= CHUNKSIZE < UINT_MOD) by (rewrite Hu; change CHUNKSIZE with 4096; lia).
    rewrite (GET_SIZE_tag _ _ _ false Hc eq_refl Hr).
    rewrite (GET_ALLOC_tag _ _ _ false Hc eq_refl Hr).
    split; [reflexivity|]. split; [reflexivity|].
    change CHUNKSIZE with 4096. unfold DWORD. lia.
  - change (DWORD =? 0) with false in Hr. cbv iota in Hr.
    assert (Hc : 0 <= DWORD < UINT_MOD) by (rewrite Hu; unfold DWORD; lia).
    rewrite (GET_SIZE_tag _ _ _ true Hc eq_refl Hr).
    rewrite (GET_ALLOC_tag _ _ _ true Hc eq_refl Hr).
    split; [reflexivity|]. split; [reflexivity|]. unfold DWORD. lia.
Qed.

(** * Concrete heaps *)

(** ** Running the allocator *)

Lemma run_some (r : option (state * Z)) (d : state) :
  returned r = true -> r = Some (state_of r d, ptr_of r).
Proof. destruct r as [(s, p)|]; [reflexivity | discriminate]. Qed.

Lemma run_null (r : option (state * Z)) (d : state) :
  returned r = true -> ptr_of r = NULL -> r = Some (state_of r d, NULL).
Proof. destruct r as [(s, p)|]; simpl; [intros _ ->; reflexivity | discriminate]. Qed.

(** A call of [mm_malloc] that returns the block [p] leads from a reachable
    state to a reachable state. *)
Lemma reach_malloc_at (w : Z) (s : state) (L : list (Z * Z)) (fuel : nat) (size p : Z) :
  reachable w s L -> 0 <= size <= SIZE_MAX w - 15 ->
  returned (mm_malloc w fuel s size) = true ->
  ptr_of (mm_malloc w fuel s size) = p -> p <> NULL ->
  reachable w (state_of (mm_malloc w fuel s size) s) ((p, size) :: L).
Proof.
  intros Hr Hsize Hm Hp Hne.
  pose proof (reach_malloc w s L fuel size _ _ Hr Hsize (run_some _ s Hm)) as H.
  rewrite Hp in H. apply Z.eqb_neq in Hne. rewrite Hne in H. exact H.
Qed.

Lemma mm_free_marked (w : Z) (s : state) (ptr : Z) :
  ptr <> 0 -> heapL s <> 0 ->
  mm_free w s ptr = fst (coalesce w (marked_free s ptr) ptr).
Proof.
  intros Hp Hh. unfold mm_free, marked_free.
  apply Z.eqb_neq in Hp, Hh. rewrite Hp, Hh. reflexivity.
Qed.

(** ** The scan determines the block list *)

Lemma block_list_mono (m : memory) :
  forall fuel fuel' p bs,
    block_list fuel m p = Some bs -> (fuel <= fuel')%nat ->
    block_list fuel' m p = Some bs.
Proof.
  induction fuel as [|fuel IH]; intros fuel' p bs H Hle; [discriminate H|].
  destruct fuel' as [|fuel']; [lia|].
  simpl in H |- *. destruct (0 <? GET_SIZE m (HEAD p)); [|exact H].
  destruct (block_list fuel m (NEXT m p)) as [tl|] eqn:E; [|discriminate H].
  rewrite (IH fuel' _ _ E); [exact H | lia].
Qed.

(** In a reachable state the list that the forward scan collects is the
    block list of the heap. *)
Lemma reachable_shape (w : Z) (s : state) (L : list (Z * Z)) (fuel : nat) (bs : list block) :
  32 <= w -> reachable w s L -> heapL s <> 0 ->
  block_list fuel (mem s) (heapL s + DWORD) = Some bs ->
  heap_ok s ((8, true) :: bs) /\ live_ok s ((8, true) :: bs) L.
Proof.
  intros Hw Hr Hh Hb.
  destruct (heap_inv_initialised s L (reachable_inv w Hw s L Hr) Hh) as (ch & Hok & Hlive).
  destruct (heap_ok_scan s ch Hok) as (bs0 & -> & Hscan & _).
  pose proof (block_list_mono _ _ (Nat.max fuel (S (length bs0))) _ _ Hb (Nat.le_max_l _ _)) as H1.
  rewrite Hscan in H1 by lia. inversion H1; subst bs0. split; assumption.
Qed.

(** ** The states of the examples *)

Lemma example_heap_fresh : fresh example_heap.
Proof. unfold fresh. repeat split; try reflexivity; vm_compute; discriminate. Qed.

Lemma small_heap_fresh : fresh small_heap.
Proof. unfold fresh. repeat split; try reflexivity; vm_compute; discriminate. Qed.

Lemma heap1_reachable : reachable 32 heap1 [(4112, 8)].
Proof.
  unfold heap1. apply reach_malloc_at.
  - apply reach_fresh. exact example_heap_fresh.
  - vm_compute. split; discriminate.
  - vm_compute. reflexivity.
  - vm_compute. reflexivity.
  - discriminate.
Qed.

Lemma heap2_reachable : reachable 32 heap2 [(4128, 8); (4112, 8)].
Proof.
  unfold heap2. apply reach_malloc_at.
  - exact heap1_reachable.
  - vm_compute. split; discriminate.
  - vm_compute. reflexivity.
  - vm_compute. reflexivity.
  - discriminate.
Qed.

Lemma heap3_reachable : reachable 32 heap3 [(4144, 4056); (4128, 8); (4112, 8)].
Proof.
  unfold heap3. apply reach_malloc_at.
  - exact heap2_reachable.
  - vm_compute. split; discriminate.
  - vm_compute. reflexivity.
  - vm_compute. reflexivity.
  - discriminate.
Qed.

Lemma heap4_reachable : reachable 32 heap4 [(4144, 4056); (4128, 8)].
Proof.
  apply (reach_free 32 heap3 _ 4112 heap3_reachable).
  right. simpl. auto.
Qed.

Lemma heap4_shape : heap_shape heap4 [(8, true); (16, false); (16, true); (4064, true)].
Proof.
  apply ok_shape.
  refine (proj1 (reachable_shape 32 heap4 _ 5 _ _ heap4_reachable _ _)).
  - lia.
  - vm_compute. discriminate.
  - vm_compute. reflexivity.
Qed.

Lemma heap2_freed_reachable : reachable 32 heap2_freed [(4128, 8)].
Proof.
  apply (reach_free 32 heap2 _ 4112 heap2_reachable).
  right. simpl. auto.
Qed.

Lemma heap2_marked_shape :
  heap_shape (marked_free heap2_freed 4128)
    ([(8, true)] ++ (16, false) :: (16, false) :: [(4064, false)]).
Proof.
  constructor.
  - vm_compute. split; [discriminate | reflexivity].
  - vm_compute. reflexivity.
  - eexists. reflexivity.
  - vm_compute. repeat match goal with |- _ /\ _ => split end;
      first [reflexivity | discriminate].
  - vm_compute. reflexivity.
  - vm_compute. split; [discriminate | reflexivity].
  - vm_compute. right. right. left. reflexivity.
Qed.

Lemma small1_reachable : reachable 32 small1 [(4112, 8)].
Proof.
  unfold small1. apply reach_malloc_at.
  - apply reach_fresh. exact small_heap_fresh.
  - vm_compute. split; discriminate.
  - vm_compute. reflexivity.
  - vm_compute. reflexivity.
  - discriminate.
Qed.

Lemma small1_malloc_fails :
  mm_malloc 32 4 small1 5000
  = Some (state_of (mm_malloc 32 4 small1 5000) small1, NULL).
Proof. apply run_null; vm_compute; reflexivity. Qed.

(** ** Instances of the theorems *)

(** C9, amended, on [heap1]. *)
Lemma block_sizes_sum_witness :
  32 <= 32 /\ reachable 32 heap1 [(4112, 8)] /\ heapL heap1 <> 0
  /\ exists bs,
       (forall fuel, (length bs < fuel)%nat ->
                     block_list fuel (mem heap1) (heapL heap1 + DWORD) = Some bs)
       /\ total bs = (mem_brk heap1 - mem_start_brk heap1) - 4 * HFSIZE.
Proof.
  assert (Hw : 32 <= 32) by lia.
  assert (Hh : heapL heap1 <> 0) by (vm_compute; discriminate).
  split; [exact Hw|]. split; [exact heap1_reachable|]. split; [exact Hh|].
  exact (block_sizes_sum 32 heap1 [(4112, 8)] Hw heap1_reachable Hh).
Defined.

(** C3 on [heap4]: the cursor is on the last block, the search reaches the
    end header, wraps and finds the free block [4112]. *)
Lemma fit_is_next_fit_witness :
  (let r := fit_spec 16 (located (heapL heap4 + DWORD)
                           [(16, false); (16, true); (4064, true)]) (trav heap4) in
   fit 5 heap4 16 = Some (set_trav heap4 (if r =? NULL then trav heap4 else r), r))
  /\ trav heap4 = 4144
  /\ fit_spec 16 (located (heapL heap4 + DWORD)
                    [(16, false); (16, true); (4064, true)]) (trav heap4) = 4112.
Proof.
  split; [| split; vm_compute; reflexivity].
  apply (fit_is_next_fit heap4 [(16, false); (16, true); (4064, true)] 16 5).
  - exact heap4_shape.
  - simpl. lia.
Defined.

(** C5 on [heap0]: a request of 16 bytes splits the first chunk. *)
Lemma put_splits_or_fills_witness :
  let m' := mem (put 32 heap0 4112 16) in
  put 32 heap0 4112 16 = set_mem heap0 m'
  /\ READ m' (HEAD 4112) = HF 16 1
  /\ READ m' (4112 + 16 - DWORD) = HF 16 1
  /\ READ m' (HEAD (4112 + 16)) = HF (4096 - 16) 0
  /\ READ m' (4112 + 4096 - DWORD) = HF (4096 - 16) 0
  /\ (forall x, ~ (4112 - 4 <= x < 4112) -> ~ (4112 + 16 - 8 <= x < 4112 + 16) ->
                ~ (4112 + 4096 - 8 <= x < 4112 + 4096 - 4) ->
                m' x = mem heap0 x).
Proof.
  apply (put_splits_or_fills 32 heap0 4112 4096 16).
  - lia.
  - vm_compute. reflexivity.
  - vm_compute. split; [discriminate | reflexivity].
  - reflexivity.
  - vm_compute. split; discriminate.
  - reflexivity.
Defined.

(** On [heap2_freed] while [mm_free(4128)] runs: the block merges with
    both neighbours and the cursor, which was on it, moves to [4112]. *)
Lemma cursor_follows_merge_witness :
  let s1 := marked_free heap2_freed 4128 in
  let pre := [(8, true)] in
  let post := [(4064, false)] in
  let ptr := heapL s1 + total (pre ++ [(16, false)]) in
  let r := snd (coalesce 32 s1 ptr) in
  let s1' := fst (coalesce 32 s1 ptr) in
  let n := coalesce_size (16, false) 16 post in
  (r = coalesce_ptr ptr (16, false)
   /\ heap_shape s1' (coalesce_blocks pre (16, false) 16 post)
   /\ In (r, (n, false)) (located (heapL s1') (coalesce_blocks pre (16, false) 16 post))
   /\ (r < trav s1 < r + n -> trav s1' = r)
   /\ (~ (r < trav s1 < r + n) -> trav s1' = trav s1)
   /\ In (trav s1') (map fst (located (heapL s1') (coalesce_blocks pre (16, false) 16 post))))
  /\ (exists ch, heap_ok heap2_freed ch
                 /\ In (trav heap2_freed) (map fst (located (heapL heap2_freed) ch))
                 /\ heapL heap2_freed <= trav heap2_freed < mem_brk heap2_freed).
Proof.
  apply (cursor_follows_merge 32 heap2_freed [(4128, 8)] (marked_free heap2_freed 4128)
           [(8, true)] (16, false) 16 [(4064, false)]).
  - lia.
  - exact heap2_marked_shape.
  - exact heap2_freed_reachable.
  - vm_compute. discriminate.
Defined.

(** C7 on [small1]: the provider has no room for 5000 bytes more. *)
Lemma realloc_failure_keeps_block_witness :
  let s1 := state_of (mm_malloc 32 4 small1 5000) small1 in
  mm_realloc 32 4 small1 4112 5000 = Some (s1, NULL)
  /\ s1 = small1
  /\ GET_ALLOC (mem s1) (HEAD 4112) = 1
  /\ 8 + DWORD <= GET_SIZE (mem s1) (HEAD 4112)
  /\ (forall x, mem s1 x = mem small1 x).
Proof.
  apply (realloc_failure_keeps_block 32 small1 [(4112, 8)] 4 4112 8 5000).
  - lia.
  - exact small1_reachable.
  - left. reflexivity.
  - lia.
  - exact small1_malloc_fails.
Defined.

(** C8, amended, on [heap1]: a request of 5000 bytes finds no block. *)
Lemma malloc_grows_on_miss_witness :
  let s0 := if heapL heap1 =? 0 then fst (mm_init 32 heap1) else heap1 in
  let adj := adj_size 32 5000 in
  let g := Z.max adj CHUNKSIZE in
  g / HFSIZE * HFSIZE = g
  /\ (snd (mem_sbrk s0 g) = -1 -> mm_malloc 32 4 heap1 5000 = Some (s0, NULL))
  /\ (snd (mem_sbrk s0 g) <> -1 ->
      exists s' p pre n,
        mm_malloc 32 4 heap1 5000 = Some (s', p)
        /\ p <> NULL /\ mem_brk s' = mem_brk s0 + g
        /\ p = heapL s0 + total pre /\ p <= mem_brk s0 /\ p + n = mem_brk s'
        /\ heap_ok s' (pre ++ put_blocks n adj)
        /\ live_ok s' (pre ++ put_blocks n adj) ((p, 5000) :: [(4112, 8)])).
Proof.
  apply (malloc_grows_on_miss 32 heap1 [(4112, 8)] 5000 4
           (state_of (fit 4 (if heapL heap1 =? 0 then fst (mm_init 32 heap1) else heap1)
                          (adj_size 32 5000)) heap1)).
  - lia.
  - exact heap1_reachable.
  - vm_compute. discriminate.
  - vm_compute. split; [reflexivity | discriminate].
  - apply run_null; vm_compute; reflexivity.
Defined.

(** C10 for [w = 32] and [size = SIZE_MAX]. *)
Lemma adjusted_size_wraps_witness :
  adj_size 32 4294967295
  = DWORD * ((4294967295 + DWORD + (DWORD - 1) - SIZE_MOD 32) / DWORD)
  /\ adj_size 32 4294967295 = (if 4294967295 <=? SIZE_MAX 32 - 7 then 0 else DWORD)
  /\ adj_size 32 4294967295 < 4294967295
  /\ exists s' p,
       mm_malloc 32 3 example_heap 4294967295 = Some (s', p) /\ p <> NULL
       /\ p = mem_start_brk example_heap + 2 * DWORD
       /\ GET_SIZE (mem s') (HEAD p)
          = (if 4294967295 <=? SIZE_MAX 32 - 7 then CHUNKSIZE else DWORD)
       /\ GET_ALLOC (mem s') (HEAD p) = (if 4294967295 <=? SIZE_MAX 32 - 7 then 0 else 1)
       /\ GET_SIZE (mem s') (HEAD p) - DWORD < 4294967295.
Proof.
  apply (adjusted_size_wraps 32 example_heap 4294967295 3).
  - lia.
  - exact example_heap_fresh.
  - vm_compute. discriminate.
  - vm_compute. split; [reflexivity | discriminate].
  - lia.
Defined.

(** ** The documentation where it differs from the code by design *)

(** C9 as it is written fails.  After [mm_malloc(8)] on [example_heap] the
    provider has granted 4112 bytes and the blocks add up to 4096, or to
    4104 with the start sentinel: the padding word and the end header are
    part of no block. *)
Lemma conservation_counterexample :
  ~ conserved_as_stated 32 0 /\ ~ conserved_as_stated 32 DWORD.
Proof.
  assert (Hh : heapL heap1 <> 0) by (vm_compute; discriminate).
  assert (Ht : mem_brk heap1 - mem_start_brk heap1 = 4112) by (vm_compute; reflexivity).
  assert (Hb : block_list 4 (mem heap1) (heapL heap1 + DWORD)
               = Some [(16, true); (4080, false)]) by (vm_compute; reflexivity).
  split; intros H.
  - pose proof (H heap1 _ heap1_reachable Hh 4%nat _ Hb) as Hsum.
    rewrite Ht in Hsum. cbn in Hsum. discriminate Hsum.
  - pose proof (H heap1 _ heap1_reachable Hh 4%nat _ Hb) as Hsum.
    rewrite Ht in Hsum. cbn in Hsum. discriminate Hsum.
Qed.

(** C8 as it is written fails.  [mm_malloc(5000)] on [heap1] finds no fit
    and moves the break up by 5008 bytes: not by 5008 alignment units of
    eight bytes, nor by 5008 header words. *)
Lemma growth_counterexample : ~ grows_by DWORD 32 /\ ~ grows_by HFSIZE 32.
Proof.
  assert (Hh : heapL heap1 <> 0) by (vm_compute; discriminate).
  assert (Hs : 0 < 5000 <= SIZE_MAX 32 - 15)
    by (vm_compute; split; [reflexivity | discriminate]).
  assert (Hp : ptr_of (mm_malloc 32 4 heap1 5000) <> NULL) by (vm_compute; discriminate).
  assert (Hg : mem_brk (state_of (mm_malloc 32 4 heap1 5000) heap1) - mem_brk heap1 = 5008)
    by (vm_compute; reflexivity).
  assert (Hu : DWORD * Z.max (adj_size 32 5000) CHUNKSIZE = 40064)
    by (vm_compute; reflexivity).
  assert (Hv : HFSIZE * Z.max (adj_size 32 5000) CHUNKSIZE = 20032)
    by (vm_compute; reflexivity).
  assert (Hf : fit 4 heap1 (adj_size 32 5000)
               = Some (state_of (fit 4 heap1 (adj_size 32 5000)) heap1, NULL))
    by (apply run_null; vm_compute; reflexivity).
  assert (Hm : mm_malloc 32 4 heap1 5000
               = Some (state_of (mm_malloc 32 4 heap1 5000) heap1,
                       ptr_of (mm_malloc 32 4 heap1 5000)))
    by (apply run_some; vm_compute; reflexivity).
  split; intros H.
  - pose proof (H heap1 _ 5000 4%nat _ _ _ heap1_reachable Hh Hs Hf Hm Hp) as Hgrow.
    rewrite Hg, Hu in Hgrow. discriminate Hgrow.
  - pose proof (H heap1 _ 5000 4%nat _ _ _ heap1_reachable Hh Hs Hf Hm Hp) as Hgrow.
    rewrite Hg, Hv in Hgrow. discriminate Hgrow.
Qed.

(** ** Where the code leaves the documented behaviour *)

(** C1.  [mm_realloc] copies [min(size, GET_SIZE(HEAD(ptr)))] bytes, and
    [GET_SIZE] is the size of the whole block: for [p = mm_malloc(100)], a
    block of 112 bytes with 104 bytes of payload, [mm_realloc(p, 200)] copies
    112 bytes, not [min(200, 104)]; the new payload holds, after the 104 bytes
    of the old one, the old footer (113) and the header that followed the
    old block (209). *)
Theorem realloc_copies_block_size :
  ptr_of (mm_malloc 32 4 example_heap 100) = 4112
  /\ GET_SIZE (mem heap_a) (HEAD 4112) = 112
  /\ Z.min 200 (GET_SIZE (mem heap_a) (HEAD 4112) - DWORD) = 104
  /\ returned (mm_realloc 32 4 heap_a 4112 200) = true
  /\ ptr_of (mm_realloc 32 4 heap_a 4112 200) = 4224
  /\ copy_size (mem (state_of (mm_malloc 32 4 heap_a 200) heap_a)) 4112 200 = 112
  /\ mem (state_of (mm_malloc 32 4 heap_a 200) heap_a) (4224 + 104) = 0
  /\ mem (state_of (mm_realloc 32 4 heap_a 4112 200) heap_a) (4224 + 104) = 113
  /\ mem (state_of (mm_realloc 32 4 heap_a 4112 200) heap_a) (4224 + 108) = 209.
Proof. repeat split; vm_compute; reflexivity. Qed.

(** The instance of C1 that the specification names does hold: after
    [p = mm_malloc(100)] filled with a pattern, [mm_realloc(p, 40)] returns a
    block whose first 40 bytes are the first 40 bytes of the pattern. *)
Example realloc_shrink_keeps_prefix :
  returned (mm_realloc 32 4 heap_b 4112 40) = true
  /\ ptr_of (mm_realloc 32 4 heap_b 4112 40) = 4224
  /\ copy_size (mem (state_of (mm_malloc 32 4 heap_b 40) heap_b)) 4112 40 = 40
  /\ same_bytes 40 (mem (state_of (mm_realloc 32 4 heap_b 4112 40) heap_b)) 4224
                   (mem heap_b) 4112 = true
  /\ mem heap_b (4112 + 39) = 40.
Proof. repeat split; vm_compute; reflexivity. Qed.

(** C2.  After [a = mm_malloc(8)], [b = mm_malloc(8)], [c = mm_malloc(4056)],
    [mm_free(a)], [d = mm_malloc(SIZE_MAX - 14)], [mm_free(c)], [mm_free(d)]
    the forward scan meets two free blocks in a row.  The adjusted size of
    the fifth call wraps to zero, [put] writes a footer of size zero over the
    footer of the start sentinel, and [coalesce] later reads that footer as
    the block before [d]. *)
Theorem adjacent_free_after_wrapped_request :
  adj_size 32 (SIZE_MAX 32 - 14) = 0
  /\ returned (mm_malloc 32 5 heap4 (SIZE_MAX 32 - 14)) = true
  /\ ptr_of (mm_malloc 32 5 heap4 (SIZE_MAX 32 - 14)) = 4112
  /\ block_list 5 (mem heap7) (heapL heap7 + DWORD) = Some [(32, false); (4064, false)]
  /\ adjacent_free [(32, false); (4064, false)] = true.
Proof. repeat split; vm_compute; reflexivity. Qed.

(** C4.  [mm_malloc(SIZE_MAX)] on a heap not yet initialised returns the
    aligned pointer 4112 to a block of 8 bytes, less than two alignment
    units: the adjusted size wraps to 8. *)
Theorem wrapped_request_gets_short_block :
  adj_size 32 (SIZE_MAX 32) = 8
  /\ returned (mm_malloc 32 3 example_heap (SIZE_MAX 32)) = true
  /\ ptr_of (mm_malloc 32 3 example_heap (SIZE_MAX 32)) = 4112
  /\ 4112 mod DWORD = 0
  /\ GET_ALLOC (mem (state_of (mm_malloc 32 3 example_heap (SIZE_MAX 32)) example_heap))
               (HEAD 4112) = 1
  /\ GET_SIZE (mem (state_of (mm_malloc 32 3 example_heap (SIZE_MAX 32)) example_heap))
              (HEAD 4112) = 8
  /\ 8 < 2 * DWORD.
Proof. repeat split; vm_compute; reflexivity. Qed.

(** C6.  After [d = mm_malloc(SIZE_MAX - 14)] on a heap not yet initialised,
    [mm_free(d)], [mm_malloc(5000)] and [mm_malloc(3000)] the search cursor
    is [9120], above the provider's break [8208] and so above the end header.
    The adjusted size of the first call wraps to zero, [put] writes a footer
    of size zero over the footer of the start sentinel, [coalesce] in
    [mm_free(d)] reads that footer as the block before [d] and merges [d]
    with itself into a block of 8192 bytes that ends above the break; the
    two requests are then placed in that block, the second one in the part
    the provider never granted, and [fit] leaves the cursor there. *)
Theorem cursor_leaves_heap_after_wrapped_request :
  adj_size 32 (SIZE_MAX 32 - 14) = 0
  /\ returned (mm_malloc 32 3 example_heap (SIZE_MAX 32 - 14)) = true
  /\ ptr_of (mm_malloc 32 3 example_heap (SIZE_MAX 32 - 14)) = 4112
  /\ block_list 2 (mem heap9) (heapL heap9 + DWORD) = Some [(8192, false)]
  /\ returned (mm_malloc 32 4 heap9 5000) = true
  /\ ptr_of (mm_malloc 32 4 heap9 5000) = 4112
  /\ returned (mm_malloc 32 4 heap10 3000) = true
  /\ ptr_of (mm_malloc 32 4 heap10 3000) = 9120
  /\ heapL heap11 = 4104
  /\ mem_brk heap11 = 8208
  /\ trav heap11 = 9120
  /\ mem_brk heap11 < trav heap11.
Proof. repeat split; vm_compute; reflexivity. Qed.

(** * Further properties of the allocator *)

(** ** Header and footer words *)

(** X1.  Writing [HF(size, alloc)] with [WRITE] and reading it back with
    [GET_SIZE] and [GET_ALLOC] gives [size] and [alloc] again, for every size
    that is a multiple of eight below [2^32] and every allocated bit; the
    write touches the four bytes of the word only. *)
Theorem header_word_round_trip (m : memory) (a size alloc : Z) :
  0 <= size < UINT_MOD -> size mod DWORD = 0 -> alloc = 0 \/ alloc = 1 ->
  let m' := WRITE m a (HF size alloc) in
  GET_SIZE m' a = size /\ GET_ALLOC m' a = alloc
  /\ (forall x, x < a \/ a + 4 <= x -> m' x = m x).
Proof.
  intros Hs Hm Ha m'. unfold DWORD in Hm.
  assert (Ht : exists al, HF size alloc = tag size al /\ alloc = if al then 1 else 0).
  { destruct Ha as [-> | ->]; [exists false | exists true]; split; reflexivity. }
  destruct Ht as (al & Et & Eal).
  assert (R : READ m' a = tag size al).
  { subst m'. rewrite Et. apply READ_WRITE_tag; assumption. }
  split; [exact (GET_SIZE_tag m' a size al Hs Hm R)|].
  split; [rewrite Eal; exact (GET_ALLOC_tag m' a size al Hs Hm R)|].
  intros x Hx. subst m'. apply WRITE_other. exact Hx.
Qed.

Lemma header_word_round_trip_witness :
  let m' := WRITE (fun _ => 0) 100 (HF 24 1) in
  GET_SIZE m' 100 = 24 /\ GET_ALLOC m' 100 = 1
  /\ (forall x, x < 100 \/ 100 + 4 <= x -> m' x = (fun _ => 0) x).
Proof.
  apply (header_word_round_trip (fun _ => 0) 100 24 1).
  - vm_compute. split; [discriminate | reflexivity].
  - reflexivity.
  - right. reflexivity.
Defined.

(** ** The adjusted size *)

(** X2.  For a request that does not wrap, the adjusted size that
    [mm_malloc] computes is the least multiple of eight that is at least
    sixteen and leaves eight bytes for header and footer. *)
Theorem adj_size_least_multiple (w size : Z) :
  32 <= w -> 0 < size <= SIZE_MAX w - 15 ->
  adj_size w size mod DWORD = 0
  /\ 2 * DWORD <= adj_size w size
  /\ size + DWORD <= adj_size w size
  /\ forall k, k mod DWORD = 0 -> 2 * DWORD <= k -> size + DWORD <= k ->
               adj_size w size <= k.
Proof.
  intros Hw Hsize.
  destruct (adj_size_range w Hw size Hsize) as (A16 & A8 & Aroom & _ & Aup).
  split; [exact A8|]. split; [exact A16|]. split; [exact Aroom|].
  intros k Hk8 Hk16 Hkroom. unfold DWORD in *.
  pose proof (Z.div_mod k 8) as Dk. pose proof (Z.div_mod (adj_size w size) 8) as Da.
  rewrite Hk8 in Dk. rewrite A8 in Da.
  destruct (Z_le_gt_dec (adj_size w size) k) as [Hle | Hgt]; [exact Hle|].
  exfalso.
  destruct (Z_le_gt_dec size 8) as [Hs | Hs].
  - unfold adj_size in Hgt. replace (size <=? DWORD) with true in Hgt
      by (symmetry; apply Z.leb_le; unfold DWORD; lia).
    unfold DWORD in Hgt. lia.
  - lia.
Qed.

Lemma adj_size_least_multiple_witness :
  adj_size 32 100 mod DWORD = 0
  /\ 2 * DWORD <= adj_size 32 100
  /\ 100 + DWORD <= adj_size 32 100
  /\ forall k, k mod DWORD = 0 -> 2 * DWORD <= k -> 100 + DWORD <= k ->
               adj_size 32 100 <= k.
Proof.
  apply (adj_size_least_multiple 32 100).
  - lia.
  - vm_compute. split; [reflexivity | discriminate].
Defined.

(** ** The blocks the application holds *)

(** X3.  In every state the application can reach with requests that do
    not wrap, the blocks it holds lie inside the heap, after the start
    block and below the end header, at addresses that are multiples of
    eight, and the bytes it asked for in two different blocks never overlap:
    at least eight bytes of header and footer lie between them. *)
Theorem live_blocks_disjoint (w : Z) (s : state) (L : list (Z * Z)) (p n q k : Z) :
  32 <= w -> reachable w s L -> In (p, n) L -> In (q, k) L ->
  (p mod DWORD = 0 /\ 0 < n /\ heapL s + DWORD <= p /\ p + n + DWORD <= mem_brk s)
  /\ (p <> q -> p + n + DWORD <= q \/ q + k + DWORD <= p)
  /\ (p = q -> n = k).
Proof.
  intros Hw Hr Hp Hq.
  pose proof (reachable_inv w Hw s L Hr) as Hinv.
  destruct Hinv as [(_ & ->) | (ch & Hok & Hlive)]; [destruct Hp|].
  destruct (live_block s ch L p n Hok Hlive Hp) as (bp & Bp & Np & Rp & Lp & Up & Ap).
  destruct (live_block s ch L q k Hok Hlive Hq) as (bq & Bq & Nq & Rq & Lq & Uq & Aq).
  unfold DWORD in *.
  split; [repeat split; try assumption; lia|]. split.
  - intros Hne.
    pose proof (located_disjoint _ _ _ _ _ _ _ _ (ok_layout _ _ Hok) Bp Bq Hne) as Hd.
    cbn [fst] in Hd. lia.
  - intros ->. destruct Hlive as (Hnd & _).
    clear - Hnd Hp Hq. induction L as [|(a, b) L IH]; [destruct Hp|].
    cbn [map fst] in Hnd. inversion Hnd as [|? ? Hnin Hnd']; subst.
    destruct Hp as [Ep | Hp], Hq as [Eq | Hq].
    + congruence.
    + inversion Ep; subst. exfalso. apply Hnin. exact (in_map fst _ _ Hq).
    + inversion Eq; subst. exfalso. apply Hnin. exact (in_map fst _ _ Hp).
    + exact (IH Hp Hq Hnd').
Qed.

Lemma live_blocks_disjoint_witness :
  (4128 mod DWORD = 0 /\ 0 < 8 /\ heapL heap2 + DWORD <= 4128
   /\ 4128 + 8 + DWORD <= mem_brk heap2)
  /\ (4128 <> 4112 -> 4128 + 8 + DWORD <= 4112 \/ 4112 + 8 + DWORD <= 4128)
  /\ (4128 = 4112 -> 8 = 8).
Proof.
  apply (live_blocks_disjoint 32 heap2 [(4128, 8); (4112, 8)] 4128 8 4112 8).
  - lia.
  - exact heap2_reachable.
  - left. reflexivity.
  - right. left. reflexivity.
Defined.

(** ** Initialisation *)

(** X4.  [mm_init] on a provider that has granted nothing yet and has room
    for the sixteen bytes of the skeleton: [heapL] and the cursor point at
    the start block; when the provider also has room for the first chunk,
    [mm_init] returns 0 and the heap is one free block of [CHUNKSIZE]
    bytes; otherwise it returns -1 and leaves the skeleton with no block in
    it. *)
Theorem mm_init_result (w : Z) (s : state) :
  32 <= w -> fresh s ->
  let s' := fst (mm_init w s) in
  let r := snd (mm_init w s) in
  heapL s' = mem_start_brk s + DWORD /\ trav s' = heapL s'
  /\ (if mem_start_brk s + 4 * HFSIZE + CHUNKSIZE <=? mem_max_addr s
      then r = 0
           /\ mem_brk s' = mem_start_brk s + 4 * HFSIZE + CHUNKSIZE
           /\ forall fuel, (1 < fuel)%nat ->
                block_list fuel (mem s') (heapL s' + DWORD) = Some [(CHUNKSIZE, false)]
      else r = -1
           /\ mem_brk s' = mem_start_brk s + 4 * HFSIZE
           /\ forall fuel, (0 < fuel)%nat ->
                block_list fuel (mem s') (heapL s' + DWORD) = Some []).
Proof.
  intros Hw Hf s' r.
  destruct (mm_init_full w Hw s Hf) as (I1 & I2 & _ & _ & I5).
  fold s' in I1, I2, I5. fold r in I5.
  split; [exact I1|]. split; [exact I2|].
  destruct I5 as [(Hroom & Er & Eb & Hok) | (Hfull & Er & Eb & Hok)].
  - replace (mem_start_brk s + 4 * HFSIZE + CHUNKSIZE <=? mem_max_addr s) with true
      by (symmetry; apply Z.leb_le; exact Hroom).
    split; [exact Er|]. split; [exact Eb|].
    destruct (heap_ok_scan s' _ Hok) as (bs & E & Hscan & _).
    inversion E; subst bs. intros fuel Hfuel. apply Hscan. simpl. lia.
  - replace (mem_start_brk s + 4 * HFSIZE + CHUNKSIZE <=? mem_max_addr s) with false
      by (symmetry; apply Z.leb_gt; exact Hfull).
    split; [exact Er|]. split; [exact Eb|].
    destruct (heap_ok_scan s' _ Hok) as (bs & E & Hscan & _).
    inversion E; subst bs. intros fuel Hfuel. apply Hscan. simpl. lia.
Qed.

Lemma mm_init_result_witness :
  let s' := fst (mm_init 32 small_heap) in
  let r := snd (mm_init 32 small_heap) in
  heapL s' = mem_start_brk small_heap + DWORD /\ trav s' = heapL s'
  /\ (if mem_start_brk small_heap + 4 * HFSIZE + CHUNKSIZE <=? mem_max_addr small_heap
      then r = 0
           /\ mem_brk s' = mem_start_brk small_heap + 4 * HFSIZE + CHUNKSIZE
           /\ forall fuel, (1 < fuel)%nat ->
                block_list fuel (mem s') (heapL s' + DWORD) = Some [(CHUNKSIZE, false)]
      else r = -1
           /\ mem_brk s' = mem_start_brk small_heap + 4 * HFSIZE
           /\ forall fuel, (0 < fuel)%nat ->
                block_list fuel (mem s') (heapL s' + DWORD) = Some []).
Proof.
  apply (mm_init_result 32 small_heap).
  - lia.
  - exact small_heap_fresh.
Defined.

(** X5.  When the provider cannot grant the sixteen bytes of the skeleton,
    [mm_init] returns -1 and has stored the provider's [(void * )-1] in
    [heapL]; nothing else changes.  [heapL] is then not 0, so that
    [mm_malloc] does not call [mm_init] again: [mm_malloc(0)] on the state
    before returns [NULL] and leaves [heapL] at -1. *)
Theorem mm_init_without_memory (w : Z) (s : state) (fuel : nat) :
  heapL s = 0 -> mem_max_addr s < mem_brk s + 4 * HFSIZE ->
  mm_init w s = (set_heapL s (-1), -1)
  /\ mm_malloc w fuel s 0 = Some (set_heapL s (-1), NULL)
  /\ mm_malloc w fuel (set_heapL s (-1)) 0 = Some (set_heapL s (-1), NULL).
Proof.
  intros Hh Hfull.
  assert (E : mm_init w s = (set_heapL s (-1), -1)).
  { unfold mm_init, mem_sbrk.
    replace (mem_brk s + 4 * HFSIZE <=? mem_max_addr s) with false
      by (symmetry; apply Z.leb_gt; exact Hfull).
    reflexivity. }
  split; [exact E|]. split.
  - unfold mm_malloc. rewrite E. apply Z.eqb_eq in Hh. rewrite Hh. reflexivity.
  - unfold mm_malloc. reflexivity.
Qed.

Lemma mm_init_without_memory_witness :
  mm_init 32 empty_provider = (set_heapL empty_provider (-1), -1)
  /\ mm_malloc 32 3 empty_provider 0 = Some (set_heapL empty_provider (-1), NULL)
  /\ mm_malloc 32 3 (set_heapL empty_provider (-1)) 0
     = Some (set_heapL empty_provider (-1), NULL).
Proof.
  apply (mm_init_without_memory 32 empty_provider 3).
  - reflexivity.
  - vm_compute. reflexivity.
Defined.

(** ** Invariants of the block list *)

Lemma no_adjacent_free_blocks_witness :
  exists bs,
    (forall fuel, (length bs < fuel)%nat ->
                  block_list fuel (mem heap2_freed) (heapL heap2_freed + DWORD) = Some bs)
    /\ adjacent_free bs = false.
Proof.
  apply (no_adjacent_free_blocks 32 heap2_freed [(4128, 8)]).
  - lia.
  - exact heap2_freed_reachable.
  - vm_compute. discriminate.
Defined.

Lemma malloc_aligned_witness :
  ptr_of (mm_malloc 32 4 heap1 5000) mod DWORD = 0
  /\ GET_ALLOC (mem (state_of (mm_malloc 32 4 heap1 5000) heap1))
               (HEAD (ptr_of (mm_malloc 32 4 heap1 5000))) = 1
  /\ 2 * DWORD <= GET_SIZE (mem (state_of (mm_malloc 32 4 heap1 5000) heap1))
                           (HEAD (ptr_of (mm_malloc 32 4 heap1 5000)))
  /\ 5000 + DWORD <= GET_SIZE (mem (state_of (mm_malloc 32 4 heap1 5000) heap1))
                              (HEAD (ptr_of (mm_malloc 32 4 heap1 5000))).
Proof.
  apply (malloc_aligned 32 heap1 [(4112, 8)] 4 5000).
  - lia.
  - exact heap1_reachable.
  - vm_compute. split; [reflexivity | discriminate].
  - apply run_some. vm_compute. reflexivity.
  - vm_compute. discriminate.
Defined.

(** ** [mm_malloc] *)

(** X8.  On an initialised heap the application can reach, [mm_malloc] of a
    request that does not wrap returns, given fuel for one pass over the
    block list.  It returns [NULL] exactly when no free block holds the
    adjusted size and the provider cannot grant [max adj CHUNKSIZE] bytes
    more, and then it leaves the whole state as it was. *)
Theorem malloc_null_iff (w : Z) (s : state) (L : list (Z * Z)) (size : Z)
  (fuel : nat) (bs : list block) :
  32 <= w -> reachable w s L -> heapL s <> 0 ->
  0 < size <= SIZE_MAX w - 15 ->
  block_list fuel (mem s) (heapL s + DWORD) = Some bs ->
  (S (length bs) < fuel)%nat ->
  exists s' p,
    mm_malloc w fuel s size = Some (s', p)
    /\ (p = NULL <->
        existsb (fun b : block => negb (snd b) && (adj_size w size <=? fst b)) bs = false
        /\ mem_max_addr s < mem_brk s + Z.max (adj_size w size) CHUNKSIZE)
    /\ (p = NULL -> s' = s).
Proof.
  intros Hw Hr Hh Hsize Hb Hfuel.
  destruct (reachable_shape w s L fuel bs Hw Hr Hh Hb) as (Hok & Hlive).
  destruct (malloc_heap_ok w Hw s _ L size fuel Hok Hlive Hsize Hfuel)
    as (s' & p & _ & Hm & _).
  exists s', p. split; [exact Hm|].
  set (f := fun b : block => negb (snd b) && (adj_size w size <=? fst b)).
  assert (Hnone : (forall b, In b ((8, true) :: bs) -> snd b = true \/ fst b < adj_size w size)
                  -> existsb f bs = false).
  { intros H. destruct (existsb f bs) eqn:E; [|reflexivity].
    apply existsb_exists in E. destruct E as (b & Hin & Hfb).
    unfold f in Hfb. apply andb_true_iff in Hfb. destruct Hfb as (F1 & F2).
    apply Z.leb_le in F2. destruct (H b (or_intror Hin)) as [Ha | Hs].
    - rewrite Ha in F1. discriminate.
    - lia. }
  destruct (malloc_cases w Hw s _ L size fuel s' p Hok Hlive Hsize Hm)
    as [(Ep & Es & Hn & Hfull) | [(Hp & _ & pre & sz & post & E & _ & Hsz & _)
                                 | (Hp & _ & _ & Hroom & _)]].
  - split; [|intros _; exact Es].
    split; [intros _; split; [exact (Hnone Hn) | exact Hfull] | intros _; exact Ep].
  - split; [|intros Ep; contradiction].
    split; [intros Ep; contradiction|]. intros (Hex & _). exfalso.
    assert (Hin : In (sz, false) bs).
    { assert (H : In (sz, false) ((8, true) :: bs)) by (rewrite E; apply in_elt).
      destruct H as [H | H]; [discriminate | exact H]. }
    assert (Ht : existsb f bs = true).
    { apply existsb_exists. exists (sz, false). split; [exact Hin|].
      unfold f. cbn [fst snd negb andb]. apply Z.leb_le. exact Hsz. }
    congruence.
  - split; [|intros Ep; contradiction].
    split; [intros Ep; contradiction | intros (_ & Hfull); lia].
Qed.

Lemma malloc_null_iff_witness :
  exists s' p,
    mm_malloc 32 4 small1 5000 = Some (s', p)
    /\ (p = NULL <->
        existsb (fun b : block => negb (snd b) && (adj_size 32 5000 <=? fst b))
                [(16, true); (4080, false)] = false
        /\ mem_max_addr small1 < mem_brk small1 + Z.max (adj_size 32 5000) CHUNKSIZE)
    /\ (p = NULL -> s' = small1).
Proof.
  apply (malloc_null_iff 32 small1 [(4112, 8)] 5000 4 [(16, true); (4080, false)]).
  - lia.
  - exact small1_reachable.
  - vm_compute. discriminate.
  - vm_compute. split; [reflexivity | discriminate].
  - vm_compute. reflexivity.
  - simpl. lia.
Defined.

(** X9.  On an initialised heap the application can reach, for a request
    that does not wrap ([0 < size <= SIZE_MAX - 15]) and with fuel for one
    pass over the block list: when some free block of the list holds the
    adjusted size, [mm_malloc] returns, and what it returns is a free block
    of the list that holds the adjusted size; it does not move the
    provider's break, it leaves the cursor on the block it returns, and it
    writes nothing outside that block. *)
Theorem malloc_reuses_free_block (w : Z) (s : state) (L : list (Z * Z)) (size : Z)
  (fuel : nat) (bs : list block) (sz0 : Z) :
  32 <= w -> reachable w s L -> heapL s <> 0 ->
  0 < size <= SIZE_MAX w - 15 ->
  block_list fuel (mem s) (heapL s + DWORD) = Some bs ->
  (S (length bs) < fuel)%nat ->
  In (sz0, false) bs -> adj_size w size <= sz0 ->
  exists s' p,
    mm_malloc w fuel s size = Some (s', p)
    /\ p <> NULL /\ mem_brk s' = mem_brk s /\ trav s' = p
    /\ exists sz,
         In (p, (sz, false)) (located (heapL s + DWORD) bs)
         /\ adj_size w size <= sz
         /\ forall x, ~ (p - 4 <= x < p + sz - 4) -> mem s' x = mem s x.
Proof.
  intros Hw Hr Hh Hsize Hb Hfuel Hin0 Hfit.
  destruct (reachable_shape w s L fuel bs Hw Hr Hh Hb) as (Hok & Hlive).
  destruct (malloc_heap_ok w Hw s _ L size fuel Hok Hlive Hsize Hfuel)
    as (s' & p & _ & Hm & _).
  exists s', p. split; [exact Hm|].
  assert (Hno : ~ (forall b, In b ((8, true) :: bs) ->
                             snd b = true \/ fst b < adj_size w size)).
  { intros H. destruct (H (sz0, false) (or_intror Hin0)) as [Ha | Hs].
    - discriminate.
    - cbn [fst] in Hs. lia. }
  destruct (malloc_cases w Hw s _ L size fuel s' p Hok Hlive Hsize Hm)
    as [(_ & _ & Hn & _) | [(Hp & Eb & pre & sz & post & E & Ep & Hsz & _ & _ & Et & _ & _ & _ & F)
                           | (_ & _ & Hn & _)]];
    [contradiction | | contradiction].
  split; [exact Hp|]. split; [exact Eb|]. split; [exact Et|].
  exists sz. split; [|split; [exact Hsz | exact F]].
  assert (H : In (p, (sz, false)) (located (heapL s) ((8, true) :: bs)))
    by (rewrite E, Ep; apply located_mid).
  destruct H as [H | H]; [discriminate | exact H].
Qed.

Lemma malloc_reuses_free_block_witness :
  exists s' p,
    mm_malloc 32 4 heap1 8 = Some (s', p)
    /\ p <> NULL /\ mem_brk s' = mem_brk heap1 /\ trav s' = p
    /\ exists sz,
         In (p, (sz, false)) (located (heapL heap1 + DWORD) [(16, true); (4080, false)])
         /\ adj_size 32 8 <= sz
         /\ forall x, ~ (p - 4 <= x < p + sz - 4) -> mem s' x = mem heap1 x.
Proof.
  apply (malloc_reuses_free_block 32 heap1 [(4112, 8)] 8 4 [(16, true); (4080, false)] 4080).
  - lia.
  - exact heap1_reachable.
  - vm_compute. discriminate.
  - vm_compute. split; [reflexivity | discriminate].
  - vm_compute. reflexivity.
  - simpl. lia.
  - right. left. reflexivity.
  - vm_compute. discriminate.
Defined.

(** X10.  In a state the application can reach, for a request that does not
    wrap ([0 < size <= SIZE_MAX - 15]): the block that [mm_malloc] hands out
    when it returns a pointer that is not [NULL] is as large as the adjusted
    size or eight bytes larger, so its payload holds the request and exceeds
    it by fifteen bytes at most. *)
Theorem malloc_block_is_tight (w : Z) (s : state) (L : list (Z * Z)) (size : Z)
  (fuel : nat) (s' : state) (p : Z) :
  32 <= w -> reachable w s L ->
  0 < size <= SIZE_MAX w - 15 ->
  mm_malloc w fuel s size = Some (s', p) -> p <> NULL ->
  adj_size w size <= GET_SIZE (mem s') (HEAD p) <= adj_size w size + DWORD
  /\ size <= GET_SIZE (mem s') (HEAD p) - DWORD <= size + 15.
Proof.
  intros Hw Hr Hsize Hm Hp.
  destruct (malloc_from_inv w Hw s L fuel size (reachable_inv w Hw s L Hr))
    as (s0 & ch & Hok & Hlive & Em & _).
  rewrite Em in Hm.
  destruct (adj_size_range w Hw size Hsize) as (A16 & A8 & Aroom & _ & Aup).
  assert (Hb : adj_size w size <= GET_SIZE (mem s') (HEAD p) <= adj_size w size + DWORD).
  { destruct (malloc_cases w Hw s0 ch L size fuel s' p Hok Hlive Hsize Hm)
      as [(Ep & _) | [(_ & _ & pre & sz & post & _ & Ep & Hsz & Hok' & _ & _ & Eh & _)
                    | (_ & _ & _ & _ & pre & n & Ep & _ & Hsz & Hok' & _ & Eh & _)]];
      [contradiction | |].
    - rewrite <- Eh in Ep.
      exact (proj1 (proj2 (placed_block_size s' pre sz _ post p Hok' Ep Hsz A8))).
    - rewrite <- Eh in Ep. rewrite <- (app_nil_r (put_blocks n _)) in Hok'.
      exact (proj1 (proj2 (placed_block_size s' pre n _ [] p Hok' Ep Hsz A8))). }
  split; [exact Hb|]. unfold DWORD in *. lia.
Qed.

Lemma malloc_block_is_tight_witness :
  adj_size 32 5000
  <= GET_SIZE (mem (state_of (mm_malloc 32 4 heap1 5000) heap1))
              (HEAD (ptr_of (mm_malloc 32 4 heap1 5000)))
  <= adj_size 32 5000 + DWORD
  /\ 5000 <= GET_SIZE (mem (state_of (mm_malloc 32 4 heap1 5000) heap1))
                      (HEAD (ptr_of (mm_malloc 32 4 heap1 5000))) - DWORD
          <= 5000 + 15.
Proof.
  apply (malloc_block_is_tight 32 heap1 [(4112, 8)] 5000 4).
  - lia.
  - exact heap1_reachable.
  - vm_compute. split; [reflexivity | discriminate].
  - apply run_some. vm_compute. reflexivity.
  - vm_compute. discriminate.
Defined.



(** ** [mm_free] *)



(** X13.  On an initialised heap the application can reach, for a request
    that does not wrap ([0 < size <= SIZE_MAX - 15]): when [mm_malloc]
    returns a pointer that is not [NULL] without moving the break, [mm_free]
    of that pointer gives back the heap as a forward scan reads it: the same
    blocks, of the same sizes, free and allocated as before, and the same
    break. *)
Theorem malloc_free_round_trip (w : Z) (s : state) (L : list (Z * Z)) (size : Z)
  (fuel : nat) (s1 : state) (p : Z) :
  32 <= w -> reachable w s L -> heapL s <> 0 ->
  0 < size <= SIZE_MAX w - 15 ->
  mm_malloc w fuel s size = Some (s1, p) -> p <> NULL ->
  mem_brk s1 = mem_brk s ->
  let s2 := mm_free w s1 p in
  mem_brk s2 = mem_brk s
  /\ exists bs,
       (forall f, (length bs < f)%nat ->
                  block_list f (mem s) (heapL s + DWORD) = Some bs)
       /\ (forall f, (length bs < f)%nat ->
                     block_list f (mem s2) (heapL s2 + DWORD) = Some bs).
Proof.
  intros Hw Hr Hh Hsize Hm Hp Hbrk s2.
  destruct (heap_inv_initialised s L (reachable_inv w Hw s L Hr) Hh) as (ch & Hok & Hlive).
  destruct (malloc_free_blocks w Hw s ch L size fuel s1 p Hok Hlive Hsize Hm Hp Hbrk)
    as (Hok2 & Eb & _).
  fold s2 in Hok2, Eb. split; [exact Eb|].
  destruct (heap_ok_scan s ch Hok) as (bs & E & Hscan & _).
  destruct (heap_ok_scan s2 ch Hok2) as (bs2 & E2 & Hscan2 & _).
  rewrite E in E2. inversion E2; subst bs2.
  exists bs. split; assumption.
Qed.

Lemma malloc_free_round_trip_witness :
  let s2 := mm_free 32 (state_of (mm_malloc 32 4 heap1 8) heap1)
                    (ptr_of (mm_malloc 32 4 heap1 8)) in
  mem_brk s2 = mem_brk heap1
  /\ exists bs,
       (forall f, (length bs < f)%nat ->
                  block_list f (mem heap1) (heapL heap1 + DWORD) = Some bs)
       /\ (forall f, (length bs < f)%nat ->
                     block_list f (mem s2) (heapL s2 + DWORD) = Some bs).
Proof.
  apply (malloc_free_round_trip 32 heap1 [(4112, 8)] 8 4).
  - lia.
  - exact heap1_reachable.
  - vm_compute. discriminate.
  - vm_compute. split; [reflexivity | discriminate].
  - apply run_some. vm_compute. reflexivity.
  - vm_compute. discriminate.
  - vm_compute. reflexivity.
Defined.

(** ** [mm_realloc] *)



(** ** [grow_heap] *)

(** X15.  [grow_heap] on an initialised heap the application can reach
    asks the provider for the number of words it is given, rounded up to an
    even number, so for a multiple of eight bytes.  When the provider
    refuses, it returns [NULL] and the state is as before.  Otherwise the
    break moves up by exactly that many bytes and the block it returns is
    free, ends at the new break and is at least that large; the heap keeps
    no two free blocks in a row, and no byte the application asked for
    changes. *)
Theorem grow_heap_effect (w : Z) (s : state) (L : list (Z * Z)) (words : Z) :
  32 <= w -> reachable w s L -> heapL s <> 0 ->
  1 <= words -> (words + 1) * HFSIZE < UINT_MOD ->
  let size := HFSIZE * (words + words mod 2) in
  let s' := fst (grow_heap w s words) in
  let r := snd (grow_heap w s words) in
  size mod DWORD = 0 /\ HFSIZE * words <= size
  /\ (if mem_brk s + size <=? mem_max_addr s
      then r <> NULL
           /\ mem_brk s' = mem_brk s + size
           /\ GET_ALLOC (mem s') (HEAD r) = 0
           /\ size <= GET_SIZE (mem s') (HEAD r)
           /\ r + GET_SIZE (mem s') (HEAD r) = mem_brk s'
           /\ (exists bs,
                 (forall f, (length bs < f)%nat ->
                            block_list f (mem s') (heapL s' + DWORD) = Some bs)
                 /\ adjacent_free bs = false)
           /\ (forall q k, In (q, k) L ->
                           forall x, q <= x < q + k -> mem s' x = mem s x)
      else s' = s /\ r = NULL).
Proof.
  intros Hw Hr Hh H1 Hlt size s' r.
  destruct (heap_inv_initialised s L (reachable_inv w Hw s L Hr) Hh) as (ch & Hok & Hlive).
  destruct (grow_heap_any w Hw s ch L words Hok Hlive H1 Hlt) as (G8 & Gw & Gf & Gs).
  fold size in G8, Gw, Gf, Gs. fold s' in Gf, Gs. fold r in Gf, Gs.
  split; [exact G8|]. split; [exact Gw|].
  destruct (mem_brk s + size <=? mem_max_addr s) eqn:E.
  - apply Z.leb_le in E.
    destruct (Gs E) as (pre & n & Hok' & Hlive' & Er & Hn & Eh & Eb & Ha & Hf).
    pose proof (bound_total s' _ Hok') as (Hlt' & Hpos').
    pose proof (ok_layout _ _ Hok') as Hl'.
    pose proof (layout_total _ _ _ _ Hl') as T'. rewrite total_app in T'.
    cbn [total fst] in T'.
    assert (Hmid : In (r, (n, false)) (located (heapL s') (pre ++ [(n, false)])))
      by (rewrite Er; apply located_mid).
    destruct (located_header _ _ _ _ _ _ _ Hl' Hmid) as (Hhd & Hrg & Hm8).
    assert (Gn : GET_SIZE (mem s') (HEAD r) = n)
      by (apply (GET_SIZE_tag _ _ _ false); [lia | exact Hm8 | exact Hhd]).
    apply layout_app in Hl'. destruct Hl' as (Hl1 & _). apply layout_nonneg in Hl1.
    split; [unfold NULL; lia|]. split; [exact Eb|].
    split; [apply (GET_ALLOC_tag _ _ n false); [lia | exact Hm8 | exact Hhd]|].
    rewrite Gn. split; [exact Hn|]. split; [lia|].
    split.
    + destruct (heap_ok_scan s' _ Hok') as (bs & _ & Hscan & _ & Hadj).
      exists bs. split; assumption.
    + intros q k Hq x Hx.
      destruct (live_block s ch L q k Hok Hlive Hq) as (bq & Bq & _ & Rq & _).
      apply Hf. pose proof (Ha q bq Bq). unfold DWORD in *. lia.
  - apply Z.leb_gt in E. apply Gf. lia.
Qed.

Lemma grow_heap_effect_witness :
  let size := HFSIZE * (3 + 3 mod 2) in
  let s' := fst (grow_heap 32 heap1 3) in
  let r := snd (grow_heap 32 heap1 3) in
  size mod DWORD = 0 /\ HFSIZE * 3 <= size
  /\ (if mem_brk heap1 + size <=? mem_max_addr heap1
      then r <> NULL
           /\ mem_brk s' = mem_brk heap1 + size
           /\ GET_ALLOC (mem s') (HEAD r) = 0
           /\ size <= GET_SIZE (mem s') (HEAD r)
           /\ r + GET_SIZE (mem s') (HEAD r) = mem_brk s'
           /\ (exists bs,
                 (forall f, (length bs < f)%nat ->
                            block_list f (mem s') (heapL s' + DWORD) = Some bs)
                 /\ adjacent_free bs = false)
           /\ (forall q k, In (q, k) [(4112, 8)] ->
                           forall x, q <= x < q + k -> mem s' x = mem heap1 x)
      else s' = heap1 /\ r = NULL).
Proof.
  apply (grow_heap_effect 32 heap1 [(4112, 8)] 3).
  - lia.
  - exact heap1_reachable.
  - vm_compute. discriminate.
  - lia.
  - vm_compute. reflexivity.
Defined.

(** ** Freed memory is used again *)



(** ** The first call *)

(** X17.  [mm_malloc] initialises the heap when it is called first: on a
    provider that has granted nothing yet and has room for the skeleton and
    the first chunk, a request that does not wrap
    ([0 < size <= SIZE_MAX - 15]) and whose adjusted size is at most
    [CHUNKSIZE], given fuel for three steps of the search, is placed at the
    start of the first chunk, sixteen bytes above the start of the
    provider's region, and the heap is that chunk, split by [put] or wholly
    allocated. *)
Theorem first_malloc_initialises (w : Z) (s : state) (size : Z) (fuel : nat) :
  32 <= w -> fresh s ->
  mem_start_brk s + 4 * HFSIZE + CHUNKSIZE <= mem_max_addr s ->
  0 < size <= SIZE_MAX w - 15 -> adj_size w size <= CHUNKSIZE ->
  (2 < fuel)%nat ->
  exists s',
    mm_malloc w fuel s size = Some (s', mem_start_brk s + 2 * DWORD)
    /\ heapL s' = mem_start_brk s + DWORD
    /\ mem_brk s' = mem_start_brk s + 4 * HFSIZE + CHUNKSIZE
    /\ forall f, (length (put_blocks CHUNKSIZE (adj_size w size)) < f)%nat ->
         block_list f (mem s') (heapL s' + DWORD)
         = Some (put_blocks CHUNKSIZE (adj_size w size)).
Proof.
  intros Hw Hf Hroom Hsize Hadj Hfuel.
  destruct (mm_init_full w Hw s Hf) as (I1 & I2 & _ & _ & I5).
  destruct I5 as [(_ & _ & Eb & Hok) | (Hfull & _)]; [|lia].
  set (s0 := fst (mm_init w s)) in *.
  rewrite (mm_malloc_fresh w Hw fuel s size Hf). fold s0.
  destruct (malloc_heap_ok w Hw s0 _ [] size fuel Hok (live_ok_nil s0 _) Hsize)
    as (s' & p & _ & Hm & _); [simpl; lia|].
  assert (Hno : ~ (forall b, In b [(8, true); (CHUNKSIZE, false)] ->
                             snd b = true \/ fst b < adj_size w size)).
  { intros H. destruct (H (CHUNKSIZE, false)) as [Ha | Hs].
    - right. left. reflexivity.
    - discriminate.
    - cbn [fst] in Hs. lia. }
  destruct (malloc_cases w Hw s0 _ [] size fuel s' p Hok (live_ok_nil s0 _) Hsize Hm)
    as [(_ & _ & Hn & _) | [(_ & Ebrk & pre & sz & post & E & Ep & _ & Hok' & _ & _ & Eh & _)
                           | (_ & _ & Hn & _)]];
    [contradiction | | contradiction].
  assert (Ecut : pre = [(8, true)] /\ sz = CHUNKSIZE /\ post = []).
  { destruct pre as [|b0 [|b1 pre]].
    - simpl in E. inversion E.
    - simpl in E. inversion E. repeat split.
    - simpl in E. inversion E as [[E0 E1 E2]]. destruct pre; discriminate E2. }
  destruct Ecut as (-> & -> & ->).
  exists s'. cbn [total fst] in Ep. rewrite I1 in Ep.
  replace (mem_start_brk s + 2 * DWORD) with p by (unfold DWORD in *; lia).
  split; [exact Hm|]. split; [rewrite Eh; exact I1|]. split; [lia|].
  destruct (heap_ok_scan s' _ Hok') as (bs & E' & Hscan & _).
  rewrite app_nil_r in E'. cbn [app] in E'. inversion E'; subst bs. exact Hscan.
Qed.

Lemma first_malloc_initialises_witness :
  exists s',
    mm_malloc 32 3 example_heap 100 = Some (s', mem_start_brk example_heap + 2 * DWORD)
    /\ heapL s' = mem_start_brk example_heap + DWORD
    /\ mem_brk s' = mem_start_brk example_heap + 4 * HFSIZE + CHUNKSIZE
    /\ forall f, (length (put_blocks CHUNKSIZE (adj_size 32 100)) < f)%nat ->
         block_list f (mem s') (heapL s' + DWORD)
         = Some (put_blocks CHUNKSIZE (adj_size 32 100)).
Proof.
  apply (first_malloc_initialises 32 example_heap 100 3).
  - lia.
  - exact example_heap_fresh.
  - vm_compute. discriminate.
  - vm_compute. split; [reflexivity | discriminate].
  - vm_compute. discriminate.
  - lia.
Defined.
